(** * Reactive core of Vue 2: scheduler, dependencies, observers

    A shallow embedding of three source files:
    - the scheduler ([queueWatcher], [flushSchedulerQueue]),
    - the dependency class ([Dep], [pushTarget], [popTarget]),
    - the observer ([observe], [defineReactive], [set], [del]).

    Code that lives outside these files (watchers, hooks, user accessors)
    is gathered in an environment record; module-level mutable state is
    threaded explicitly. *)

From Stdlib Require Import ZArith Lia SpecFloat.
From stdpp Require Import gmap strings list sorting.

(** The double-quote character, used inside diagnostic messages. *)
Definition dquote : string :=
  String (Ascii.Ascii false true false false false true false false) EmptyString.

(* ===================================================================== *)
(** * The scheduler *)
(* ===================================================================== *)
Module Scheduler.

(** [export const MAX_UPDATE_COUNT = 100] *)
Definition MAX_UPDATE_COUNT : nat := 100.

(** The fields of a watcher that the scheduler reads. [w_before] tells
    whether the optional [before] hook is present; [w_vm] names the owning
    component. *)
Record Watcher := mkWatcher {
  w_id : Z;
  w_user : bool;
  w_expression : string;
  w_before : bool;
  w_vm : nat
}.

Global Instance Watcher_eq_dec : EqDecision Watcher.
Proof. solve_decision. Defined.

(** Values stored in the [has] table: [true] or [null]. A missing key reads
    as [undefined]. *)
Inductive mark := MTrue | MNull.

(** [has[id] == null]: holds for [null] and for [undefined]. *)
Definition nullish (o : option mark) : bool :=
  match o with
  | Some MTrue => false
  | Some MNull | None => true
  end.

(** The two exported entry points, as seen from code that runs inside a
    watcher. *)
Inductive call :=
  | CallQueueWatcher (w : Watcher)
  | CallQueueActivatedComponent (vm : nat).

Inductive event :=
  | EBefore (w : Watcher)
  | ERun (w : Watcher)
  | EWarn (msg : string) (vm : nat)
  | EActivated (vm : nat)
  | EUpdated (vm : nat)
  | EDevtoolsFlush
  | ENextTick.

Global Instance event_eq_dec : EqDecision event.
Proof. solve_decision. Defined.

(** [production]: [process.env.NODE_ENV === 'production'];
    [async]: [config.async]; [devtools]: [devtools && config.devtools]. *)
Record Config := mkConfig {
  production : bool;
  async : bool;
  devtools : bool
}.

(** Everything outside the scheduler module.
    - [World]: component instances, reactive data, the watchers' own
      bookkeeping;
    - [run], [before_hook]: [watcher.run()] and [watcher.before()]; they
      change the world and may call back into the scheduler through its
      exported functions, in the order given (the scheduler's own variables
      are private to the module, so such code cannot see or touch them
      otherwise);
    - [is_mounted_render_watcher]: [vm._watcher === watcher && vm._isMounted]
      for [vm = watcher.vm];
    - [set_inactive]: assignment to [vm._inactive];
    - [cfg]: build and configuration flags. *)
Record Env := mkEnv {
  World : Type;
  run : Watcher -> World -> World * list call;
  before_hook : Watcher -> World -> World * list call;
  is_mounted_render_watcher : World -> Watcher -> bool;
  set_inactive : nat -> bool -> World -> World;
  cfg : Config
}.

Arguments run {_}.
Arguments before_hook {_}.
Arguments is_mounted_render_watcher {_}.
Arguments set_inactive {_}.

Section WithEnv.

Context {E : Env}.

(** The module-level variables, the outside world and a log of the calls
    made to external code. *)
Record Sched := mkSched {
  queue : list Watcher;
  activatedChildren : list nat;
  has : gmap Z mark;
  circular : gmap Z nat;
  waiting : bool;
  flushing : bool;
  index : nat;
  world : World E;
  log : list event
}.

Definition set_queue (q : list Watcher) (st : Sched) : Sched :=
  mkSched q (activatedChildren st) (has st) (circular st) (waiting st)
          (flushing st) (index st) (world st) (log st).
Definition set_activatedChildren (a : list nat) (st : Sched) : Sched :=
  mkSched (queue st) a (has st) (circular st) (waiting st)
          (flushing st) (index st) (world st) (log st).
Definition set_has (h : gmap Z mark) (st : Sched) : Sched :=
  mkSched (queue st) (activatedChildren st) h (circular st) (waiting st)
          (flushing st) (index st) (world st) (log st).
Definition set_circular (c : gmap Z nat) (st : Sched) : Sched :=
  mkSched (queue st) (activatedChildren st) (has st) c (waiting st)
          (flushing st) (index st) (world st) (log st).
Definition set_waiting (b : bool) (st : Sched) : Sched :=
  mkSched (queue st) (activatedChildren st) (has st) (circular st) b
          (flushing st) (index st) (world st) (log st).
Definition set_flushing (b : bool) (st : Sched) : Sched :=
  mkSched (queue st) (activatedChildren st) (has st) (circular st) (waiting st)
          b (index st) (world st) (log st).
Definition set_index (i : nat) (st : Sched) : Sched :=
  mkSched (queue st) (activatedChildren st) (has st) (circular st) (waiting st)
          (flushing st) i (world st) (log st).
Definition set_world (w : World E) (st : Sched) : Sched :=
  mkSched (queue st) (activatedChildren st) (has st) (circular st) (waiting st)
          (flushing st) (index st) w (log st).
Definition emit (e : event) (st : Sched) : Sched :=
  mkSched (queue st) (activatedChildren st) (has st) (circular st) (waiting st)
          (flushing st) (index st) (world st) (log st ++ [e]).

(** The module as first loaded. *)
Definition initial (w : World E) : Sched :=
  mkSched [] [] ∅ ∅ false false 0 w [].

(** [resetSchedulerState] *)
Definition resetSchedulerState (st : Sched) : Sched :=
  mkSched [] [] ∅
          (if production (cfg E) then circular st else ∅)
          false false 0 (world st) (log st).

(** [queue.sort((a, b) => a.id - b.id)]: a merge sort on the ids stands
    for the engine's sorting algorithm. *)
Definition id_le (a b : Watcher) : Prop := (w_id a <= w_id b)%Z.

Global Instance id_le_dec a b : Decision (id_le a b).
Proof. unfold id_le. apply _. Defined.

Definition sort_queue (q : list Watcher) : list Watcher := merge_sort id_le q.

(** The backward scan of [queueWatcher]:
    [let i = queue.length - 1; while (i > index && queue[i].id > watcher.id) i--].
    The counter is carried as [p = i + 1], so that [i = -1] is [p = 0]; the
    result is the splice position [i + 1]. ([i] starts below the length,
    so [queue[i]] is always there.) *)
Fixpoint scan (q : list Watcher) (idx : nat) (wid : Z) (p : nat) : nat :=
  match p with
  | 0 => 0
  | S i =>
      if bool_decide (idx < i) then
        match q !! i with
        | Some x => if bool_decide (wid < w_id x)%Z then scan q idx wid i else S i
        | None => S i
        end
      else S i
  end.

(** [queue.splice(p, 0, watcher)] *)
Definition splice_in (p : nat) (w : Watcher) (q : list Watcher) : list Watcher :=
  take p q ++ w :: drop p q.

(** [queueActivatedComponent] *)
Definition queueActivatedComponent (vm : nat) (st : Sched) : Sched :=
  let st := set_world (set_inactive vm false (world st)) st in
  set_activatedChildren (activatedChildren st ++ [vm]) st.

(** [queueWatcher], with the function it schedules left open. The result
    is [None] when a synchronous flush does not finish within its fuel. *)
Definition queueWatcher_with (flush : Sched -> option Sched)
    (w : Watcher) (st : Sched) : option Sched :=
  let id := w_id w in
  if nullish (has st !! id) then
    let st := set_has (<[id := MTrue]> (has st)) st in
    let st :=
      if flushing st
      then set_queue (splice_in (scan (queue st) (index st) id (length (queue st)))
                                w (queue st)) st
      else set_queue (queue st ++ [w]) st in
    if waiting st then Some st
    else
      let st := set_waiting true st in
      if negb (production (cfg E)) && negb (async (cfg E))
      then flush st
      else Some (emit ENextTick st)
  else Some st.

Definition perform_with (flush : Sched -> option Sched)
    (c : call) (st : Sched) : option Sched :=
  match c with
  | CallQueueWatcher w => queueWatcher_with flush w st
  | CallQueueActivatedComponent vm => Some (queueActivatedComponent vm st)
  end.

Fixpoint perform_all (flush : Sched -> option Sched)
    (cs : list call) (st : Sched) : option Sched :=
  match cs with
  | [] => Some st
  | c :: cs' =>
      match perform_with flush c st with
      | Some st' => perform_all flush cs' st'
      | None => None
      end
  end.

(** A call into watcher code: the event is logged, the world is updated
    and the scheduler calls made by that code are performed in order. *)
Definition external (flush : Sched -> option Sched)
    (body : Watcher -> World E -> World E * list call) (e : event)
    (w : Watcher) (st : Sched) : option Sched :=
  let '(wo, cs) := body w (world st) in
  perform_all flush cs (set_world wo (emit e st)).

(** The diagnostic of the circular-update guard. *)
Definition loop_message (w : Watcher) : string :=
  "You may have an infinite update loop " +:+
  (if w_user w
   then "in watcher with expression " +:+ dquote +:+ w_expression w +:+ dquote
   else "in a component render function.").

(** The first half of the loop body for the entry under the cursor:
    [if (watcher.before) watcher.before(); id = watcher.id; has[id] = null;
    watcher.run()]. *)
Definition run_entry (flush : Sched -> option Sched)
    (w : Watcher) (st : Sched) : option Sched :=
  match (if w_before w then external flush before_hook (EBefore w) w st
         else Some st) with
  | None => None
  | Some st =>
      let st := set_has (<[w_id w := MNull]> (has st)) st in
      external flush run (ERun w) w st
  end.

(** The second half: the development-build check for circular updates.
    The boolean tells whether the loop is left with [break]. *)
Definition circular_check (w : Watcher) (st : Sched) : Sched * bool :=
  let id := w_id w in
  if negb (production (cfg E)) && negb (nullish (has st !! id)) then
    let n := S (default 0 (circular st !! id)) in
    let st := set_circular (<[id := n]> (circular st)) st in
    if bool_decide (MAX_UPDATE_COUNT < n)
    then (emit (EWarn (loop_message w) (w_vm w)) st, true)
    else (st, false)
  else (st, false).

Definition loop_body (flush : Sched -> option Sched)
    (w : Watcher) (st : Sched) : option (Sched * bool) :=
  match run_entry flush w st with
  | None => None
  | Some st => Some (circular_check w st)
  end.

(** [for (...; index < queue.length; index++)] from the current cursor.
    The queue length is read again at every turn. *)
Fixpoint flushLoop (flush : Sched -> option Sched)
    (fuel : nat) (st : Sched) : option Sched :=
  match fuel with
  | 0 => None
  | S n =>
      match queue st !! index st with
      | None => Some st
      | Some w =>
          match loop_body flush w st with
          | None => None
          | Some (st', true) => Some st'
          | Some (st', false) => flushLoop flush n (set_index (S (index st')) st')
          end
      end
  end.

(** [callActivatedHooks] *)
Fixpoint callActivatedHooks (q : list nat) (st : Sched) : Sched :=
  match q with
  | [] => st
  | vm :: q' =>
      callActivatedHooks q'
        (emit (EActivated vm) (set_world (set_inactive vm true (world st)) st))
  end.

(** [callUpdatedHooks]: walks the copy of the queue from its end. *)
Definition callUpdatedHooks (q : list Watcher) (st : Sched) : Sched :=
  foldl (fun st w =>
           if is_mounted_render_watcher (world st) w
           then emit (EUpdated (w_vm w)) st else st)
        st (reverse q).

(** What [flushSchedulerQueue] does once the loop is over. *)
Definition finish_flush (st : Sched) : Sched :=
  let activatedQueue := activatedChildren st in
  let updatedQueue := queue st in
  let st := resetSchedulerState st in
  let st := callActivatedHooks activatedQueue st in
  let st := callUpdatedHooks updatedQueue st in
  if devtools (cfg E) then emit EDevtoolsFlush st else st.

(** [flushSchedulerQueue]; [fuel] bounds the number of loop turns and the
    depth of nested synchronous flushes. *)
Fixpoint flushSchedulerQueue (fuel : nat) (st : Sched) : option Sched :=
  match fuel with
  | 0 => None
  | S n =>
      let st := set_flushing true st in
      let st := set_queue (sort_queue (queue st)) st in
      match flushLoop (flushSchedulerQueue n) n (set_index 0 st) with
      | None => None
      | Some st' => Some (finish_flush st')
      end
  end.

(** [queueWatcher] *)
Definition queueWatcher (fuel : nat) (w : Watcher) (st : Sched) : option Sched :=
  queueWatcher_with (flushSchedulerQueue fuel) w st.

(** Several calls in a row. *)
Fixpoint queueWatchers (fuel : nat) (ws : list Watcher) (st : Sched) : option Sched :=
  match ws with
  | [] => Some st
  | w :: ws' =>
      match queueWatcher fuel w st with
      | Some st' => queueWatchers fuel ws' st'
      | None => None
      end
  end.

(** The watchers run so far, oldest first. *)
Definition runs (l : list event) : list Watcher :=
  omap (fun e => match e with ERun w => Some w | _ => None end) l.

Definition warnings (l : list event) : list string :=
  omap (fun e => match e with EWarn m _ => Some m | _ => None end) l.

(** ** Vocabulary for the statements below *)

(** A flush is in progress, was scheduled through [queueWatcher], and its
    cursor is on an entry. *)
Definition in_flush (st : Sched) : Prop :=
  flushing st = true /\ waiting st = true /\ index st < length (queue st).

(** What scheduler calls made by watcher code leave alone during a flush:
    the flags, the cursor, the entries up to the cursor, and the entries
    still waiting behind it in their order (others may come in between).
    [l] is what was added to the log. *)
Definition keeps (l : list event) (st st' : Sched) : Prop :=
  flushing st' = flushing st /\ waiting st' = waiting st /\
  index st' = index st /\ log st' = log st ++ l /\
  take (S (index st)) (queue st') = take (S (index st)) (queue st) /\
  drop (S (index st)) (queue st) `sublist_of` drop (S (index st)) (queue st').

(** The watchers that a run of [queueWatcher] calls lets through the
    [has] filter, starting from the table [h]. *)
Fixpoint pending (h : gmap Z mark) (ws : list Watcher) : list Watcher :=
  match ws with
  | [] => []
  | w :: ws' =>
      if nullish (h !! w_id w)
      then w :: pending (<[w_id w := MTrue]> h) ws'
      else pending h ws'
  end.

(** [g] returns whatever [f] returns. *)
Definition extends (f g : Sched -> option Sched) : Prop :=
  forall s s', f s = Some s' -> g s = Some s'.

(** The cursor is on [w] and every entry behind it has a greater id. *)
Definition heads_tail (w : Watcher) (st : Sched) : Prop :=
  flushing st = true /\ waiting st = true /\
  queue st !! index st = Some w /\
  forall x, x ∈ drop (S (index st)) (queue st) -> (w_id w < w_id x)%Z.

(** A watcher whose hooks make no scheduler call. *)
Definition quiet (w : Watcher) : Prop :=
  forall wo : World E, (run w wo).2 = [] /\ (before_hook w wo).2 = [].

(** A watcher without [before] hook whose every run queues the watcher
    itself again, and nothing else. *)
Definition self_invalidating (w : Watcher) : Prop :=
  w_before w = false /\
  forall wo : World E, (run w wo).2 = [CallQueueWatcher w].

(** The calls made for one entry of the queue by a watcher that makes no
    scheduler call: the optional [before] hook, then [run]. *)
Definition turn (w : Watcher) : list event :=
  if w_before w then [EBefore w; ERun w] else [ERun w].

(** The world once the entries of [q] have had their turn, in order. *)
Definition world_after (q : list Watcher) (wo : World E) : World E :=
  foldl (fun wo w =>
           (run w (if w_before w then (before_hook w wo).1 else wo)).1) wo q.

(** [vm._watcher === watcher && vm._isMounted], as a property. *)
Definition mounted_render_watcher (wo : World E) (w : Watcher) : Prop :=
  is_mounted_render_watcher wo w = true.

Global Instance mounted_render_watcher_dec wo w :
  Decision (mounted_render_watcher wo w).
Proof. unfold mounted_render_watcher. apply _. Defined.

(** The calls made by [callUpdatedHooks] on the queue [q]. *)
Definition updated_calls (wo : World E) (q : list Watcher) : list event :=
  (fun w => EUpdated (w_vm w)) <$> filter (mounted_render_watcher wo) (reverse q).

(** Flushing is left to [nextTick]: a production build, or [config.async]. *)
Definition deferred : Prop := production (cfg E) || async (cfg E) = true.

End WithEnv.

Arguments Sched : clear implicits.
Arguments quiet : clear implicits.
Arguments self_invalidating : clear implicits.
Arguments deferred : clear implicits.

(** ** Sample watchers and environments *)

Definition sample_watcher (i : Z) : Watcher := mkWatcher i false "" false 0.

Definition development : Config := mkConfig false true false.
Definition production_build : Config := mkConfig true true false.

(** Watchers that make no scheduler call. *)
Definition quiet_env (c : Config) : Env :=
  mkEnv unit (fun _ u => (u, [])) (fun _ u => (u, []))
        (fun _ _ => false) (fun _ _ u => u) c.

(** Watcher 2, when it runs, queues watcher 1 and then watcher 5. *)
Definition reentrant_env : Env :=
  mkEnv unit
        (fun w u =>
           (u, if bool_decide (w_id w = 2%Z)
               then [CallQueueWatcher (sample_watcher 1);
                     CallQueueWatcher (sample_watcher 5)]
               else []))
        (fun _ u => (u, []))
        (fun _ _ => false) (fun _ _ u => u) development.

(** Every watcher queues itself again when it runs. *)
Definition looping_env (c : Config) : Env :=
  mkEnv unit (fun w u => (u, [CallQueueWatcher w])) (fun _ u => (u, []))
        (fun _ _ => false) (fun _ _ u => u) c.

(** Watchers 1 and 2 queue each other when they run, as long as the
    counter kept in the world has not reached zero. *)
Definition ping_pong_env (c : Config) : Env :=
  mkEnv nat
        (fun w n =>
           (pred n,
            if bool_decide (0 < n)
            then [CallQueueWatcher
                    (sample_watcher (if bool_decide (w_id w = 1%Z) then 2 else 1))]
            else []))
        (fun _ n => (n, []))
        (fun _ _ => false) (fun _ _ n => n) c.

(** Watchers that make no scheduler call and count their runs in the
    world; the watchers with an even id are the mounted render watchers
    of their components. *)
Definition counting_env (c : Config) : Env :=
  mkEnv nat (fun _ n => (S n, [])) (fun _ n => (n, []))
        (fun _ w => Z.even (w_id w)) (fun _ _ n => n) c.

(** A flush over watchers 1, 2, 3 at the moment watcher 2 is running. *)
Definition while_watcher_2_runs : Sched reentrant_env :=
  mkSched [sample_watcher 1; sample_watcher 2; sample_watcher 3] []
          (<[1%Z := MNull]> (<[2%Z := MNull]> (<[3%Z := MTrue]> ∅))) ∅
          true true 1 (tt : World reentrant_env)
          [ERun (sample_watcher 1); ERun (sample_watcher 2)].

(** A flush whose only watcher has already been queued again a hundred
    times by its own runs. *)
Definition after_100_rounds (c : Config) : Sched (looping_env c) :=
  mkSched (replicate 101 (sample_watcher 1)) []
          (<[1%Z := MTrue]> ∅) (<[1%Z := 100]> ∅)
          true true 100 (tt : World (looping_env c))
          (replicate 100 (ERun (sample_watcher 1))).

End Scheduler.

(* ===================================================================== *)
(** * The data model shared by the dependency class and the observer *)
(* ===================================================================== *)
Module Store.

Abbreviation Watcher := Scheduler.Watcher.

(** JavaScript values. Numbers are IEEE 754 doubles in the Standard
    Library's specification format, so that [NaN] and the two zeros behave
    as they do in the language. Objects are references into the heap. *)
Inductive value :=
  | VUndefined
  | VNull
  | VBool (b : bool)
  | VNumber (x : spec_float)
  | VString (s : string)
  | VFunction (f : nat)
  | VObject (l : nat).

Global Instance spec_float_eq_dec : EqDecision spec_float.
Proof. solve_decision. Defined.

Global Instance value_eq_dec : EqDecision value.
Proof. solve_decision. Defined.

(** [a === b] *)
Definition strict_equal (a b : value) : bool :=
  match a, b with
  | VUndefined, VUndefined => true
  | VNull, VNull => true
  | VBool x, VBool y => bool_decide (x = y)
  | VNumber x, VNumber y => SFeqb x y
  | VString x, VString y => bool_decide (x = y)
  | VFunction x, VFunction y => bool_decide (x = y)
  | VObject x, VObject y => bool_decide (x = y)
  | _, _ => false
  end.

(** [a !== b] *)
Definition strict_not_equal (a b : value) : bool := negb (strict_equal a b).

(** Property keys. [KIndex i] stands for the keys accepted by
    [isValidArrayIndex] (a non-negative integer, as a number or as its
    decimal string); [KName s] for every other key. The two hidden
    properties the framework reserves for itself, [__ob__] and [_isVue],
    are fields of the object record below and are not reachable through
    [KName]. *)
Inductive key :=
  | KIndex (i : nat)
  | KName (s : string).

Global Instance key_eq_dec : EqDecision key.
Proof. solve_decision. Defined.

Global Instance key_countable : Countable key.
Proof.
  refine (inj_countable'
    (fun k => match k with KIndex i => inl i | KName s => inr s end)
    (fun x => match x with inl i => KIndex i | inr s => KName s end) _).
  by intros [].
Defined.

(** Modelled from the spec: [isValidArrayIndex] is imported from the
    utility module, which is not part of the sources at hand; the keys it
    accepts ("valid array index") are the [KIndex] keys. *)
Definition isValidArrayIndex (k : key) : bool :=
  match k with KIndex _ => true | KName _ => false end.

(** The function behind an accessor property: code from outside, or the
    getter/setter pair that [defineReactive] closes over cell [c]. *)
Inductive accessor :=
  | User (f : nat)
  | Reactive (c : nat).

(** Property descriptors. *)
Inductive prop :=
  | PData (v : value) (writable enumerable configurable : bool)
  | PAccessor (get set : option accessor) (enumerable configurable : bool).

Definition configurable (p : prop) : bool :=
  match p with PData _ _ _ c => c | PAccessor _ _ _ c => c end.

Definition enumerable (p : prop) : bool :=
  match p with PData _ _ e _ => e | PAccessor _ _ e _ => e end.

Definition prop_get (p : prop) : option accessor :=
  match p with PData _ _ _ _ => None | PAccessor g _ _ _ => g end.

Definition prop_set (p : prop) : option accessor :=
  match p with PData _ _ _ _ => None | PAccessor _ s _ _ => s end.

(** What kind of object a reference points to:
    - [KPlain]: [Object.prototype.toString] gives [[object Object]] and the
      object is no [VNode];
    - [KArray]: [Array.isArray] holds;
    - [KVNode]: an instance of [VNode];
    - [KOther]: any other object ([Date], [RegExp], ...). *)
Inductive kind := KPlain | KArray | KVNode | KOther.

Global Instance kind_eq_dec : EqDecision kind.
Proof. solve_decision. Defined.

(** A heap object.
    - [o_ob]: the hidden own property [__ob__], when it holds an instance
      of [Observer];
    - [o_isVue]: whether [_isVue] reads as a true value;
    - [o_props]: the own properties (for an array, those that are not
      elements);
    - [o_elems]: the elements of an array, holes read as [undefined];
    - [o_augmented]: whether the mutating array methods of this instance
      are the intercepting ones. *)
Record obj := mkObj {
  o_kind : kind;
  o_extensible : bool;
  o_ob : option nat;
  o_isVue : bool;
  o_props : gmap key prop;
  o_elems : list value;
  o_augmented : bool
}.

(** An instance of [Observer]: [value], [dep], [vmCount]. *)
Record observer := mkObserver {
  ob_value : nat;
  ob_dep : nat;
  ob_vmCount : nat
}.

(** The variables closed over by the accessors that [defineReactive]
    installs. [c_childOb] is [None] when [childOb] is [false] or
    [undefined]. *)
Record cell := mkCell {
  c_obj : nat;
  c_key : key;
  c_val : value;
  c_childOb : option nat;
  c_dep : nat;
  c_getter : option accessor;
  c_setter : option accessor;
  c_customSetter : option nat;
  c_shallow : bool
}.

(** The whole mutable state.
    - [subs]: the subscriber list of every [Dep] instance, by dep id;
    - [uid]: the id counter of the dependency module;
    - [target], [targetStack]: [Dep.target] and its stack. [None] is the
      absence of a watcher ([null] when the module is loaded, [undefined]
      after a pop from the empty stack; the code only tests the value for
      truth);
    - [shouldConvert]: [observerState.shouldConvert];
    - [outside]: whatever else the surrounding program keeps. *)
Record State {World : Type} := mkState {
  heap : gmap nat obj;
  observers : gmap nat observer;
  cells : gmap nat cell;
  subs : gmap nat (list Watcher);
  uid : nat;
  target : option Watcher;
  targetStack : list Watcher;
  shouldConvert : bool;
  outside : World
}.
Arguments State : clear implicits.
Arguments mkState {World}.

(** What the modelled code does to the outside: diagnostics and calls. *)
Inductive event :=
  | EWarn (msg : string)
  | ENotify (dep : nat)
  | EUpdate (w : Watcher)
  | EAddDep (w : Watcher) (dep : nat)
  | ECustomSetter (f : nat).

Global Instance store_event_eq_dec : EqDecision event.
Proof. solve_decision. Defined.

(** Code from outside the two modules.
    - [update]: [watcher.update()];
    - [addDep]: [watcher.addDep(dep)];
    - [user_get], [user_set]: accessor functions that were on a property
      before [defineReactive] took it over, called with [this];
    - [customSetter]: the optional fourth argument of [defineReactive];
    - [production]: [process.env.NODE_ENV === 'production'];
    - [isServerRendering], [hasProto]: environment probes of the utility
      module. *)
Record Env := mkEnv {
  World : Type;
  update : Watcher -> State World -> State World;
  addDep : Watcher -> nat -> State World -> State World;
  user_get : nat -> nat -> State World -> value * State World;
  user_set : nat -> nat -> value -> State World -> State World;
  customSetter : nat -> State World -> State World;
  production : bool;
  isServerRendering : bool;
  hasProto : bool
}.

Arguments update {_}.
Arguments addDep {_}.
Arguments user_get {_}.
Arguments user_set {_}.
Arguments customSetter {_}.

Section WithEnv.

Context {E : Env}.

Local Abbreviation St := (State (World E)).

Definition set_heap (h : gmap nat obj) (st : St) : St :=
  mkState h (observers st) (cells st) (subs st) (uid st) (target st)
          (targetStack st) (shouldConvert st) (outside st).
Definition set_observers (o : gmap nat observer) (st : St) : St :=
  mkState (heap st) o (cells st) (subs st) (uid st) (target st)
          (targetStack st) (shouldConvert st) (outside st).
Definition set_cells (c : gmap nat cell) (st : St) : St :=
  mkState (heap st) (observers st) c (subs st) (uid st) (target st)
          (targetStack st) (shouldConvert st) (outside st).
Definition set_subs (s : gmap nat (list Watcher)) (st : St) : St :=
  mkState (heap st) (observers st) (cells st) s (uid st) (target st)
          (targetStack st) (shouldConvert st) (outside st).
Definition set_uid (u : nat) (st : St) : St :=
  mkState (heap st) (observers st) (cells st) (subs st) u (target st)
          (targetStack st) (shouldConvert st) (outside st).
Definition set_target (t : option Watcher) (st : St) : St :=
  mkState (heap st) (observers st) (cells st) (subs st) (uid st) t
          (targetStack st) (shouldConvert st) (outside st).
Definition set_targetStack (s : list Watcher) (st : St) : St :=
  mkState (heap st) (observers st) (cells st) (subs st) (uid st) (target st)
          s (shouldConvert st) (outside st).

(** The result of running modelled code: a value with the new state and
    the events emitted, a thrown [TypeError], an input outside the
    modelled fragment, or exhausted fuel. *)
Inductive outcome (A : Type) :=
  | Ret (a : A) (st : St) (evs : list event)
  | Throw (msg : string) (st : St) (evs : list event)
  | Beyond
  | NoFuel.
Arguments Ret {A}.
Arguments Throw {A}.
Arguments Beyond {A}.
Arguments NoFuel {A}.

Definition M (A : Type) : Type := St -> outcome A.

Definition ret {A} (a : A) : M A := fun st => Ret a st [].

Definition bind {A B} (m : M A) (k : A -> M B) : M B :=
  fun st =>
    match m st with
    | Ret a st1 e1 =>
        match k a st1 with
        | Ret b st2 e2 => Ret b st2 (e1 ++ e2)
        | Throw msg st2 e2 => Throw msg st2 (e1 ++ e2)
        | Beyond => Beyond
        | NoFuel => NoFuel
        end
    | Throw msg st1 e1 => Throw msg st1 e1
    | Beyond => Beyond
    | NoFuel => NoFuel
    end.

Definition get_state : M St := fun st => Ret st st [].
Definition modify (f : St -> St) : M unit := fun st => Ret tt (f st) [].
Definition emit (e : event) : M unit := fun st => Ret tt st [e].
Definition throw {A} (msg : string) : M A := fun st => Throw msg st [].
Definition beyond {A} : M A := fun _ => Beyond.
Definition no_fuel {A} : M A := fun _ => NoFuel.

(** The events [evs] followed by those of an outcome. *)
Definition after {A} (evs : list event) (o : outcome A) : outcome A :=
  match o with
  | Ret a st e => Ret a st (evs ++ e)
  | Throw msg st e => Throw msg st (evs ++ e)
  | Beyond => Beyond
  | NoFuel => NoFuel
  end.

(** Runs [f] on each element in turn. *)
Fixpoint for_each {A} (f : A -> M unit) (l : list A) : M unit :=
  match l with
  | [] => ret tt
  | x :: l' => bind (f x) (fun _ => for_each f l')
  end.

End WithEnv.

Arguments outcome : clear implicits.
Arguments M : clear implicits.
Arguments Ret {E A}.
Arguments Throw {E A}.
Arguments Beyond {E A}.
Arguments NoFuel {E A}.

End Store.

(* ===================================================================== *)
(** * The dependency class *)
(* ===================================================================== *)
Module Dep.
Import Store.

Section WithEnv.

Context {E : Env}.

Local Abbreviation St := (State (World E)).

(** [new Dep()]: [this.id = uid++; this.subs = []]. *)
Definition new_Dep : M E nat :=
  fun st =>
    Ret (uid st) (set_subs (<[uid st := []]> (subs st)) (set_uid (S (uid st)) st)) [].

(** [addSub] *)
Definition addSub (d : nat) (sub : Watcher) : St -> St :=
  fun st => set_subs (alter (fun l => l ++ [sub]) d (subs st)) st.

(** Modelled from the spec: [remove] is imported from the utility module,
    which is not part of the sources at hand; a linear scan that takes out
    the first occurrence. *)
Fixpoint remove (l : list Watcher) (item : Watcher) : list Watcher :=
  match l with
  | [] => []
  | x :: l' => if decide (x = item) then l' else x :: remove l' item
  end.

(** [removeSub] *)
Definition removeSub (d : nat) (sub : Watcher) : St -> St :=
  fun st => set_subs (alter (fun l => remove l sub) d (subs st)) st.

(** [depend] *)
Definition depend (d : nat) : M E unit :=
  fun st =>
    match target st with
    | Some w => Ret tt (addDep w d st) [EAddDep w d]
    | None => Ret tt st []
    end.

(** [subs[i].update()] *)
Definition call_update (w : Watcher) : M E unit :=
  fun st => Ret tt (update w st) [EUpdate w].

(** [notify]: the loop runs over [this.subs.slice()], a copy taken before
    the first call. ([ENotify] only marks the entry into the method; the
    method is called on an instance, whose list is in [subs].) *)
Definition notify (d : nat) : M E unit :=
  fun st =>
    let subs := default [] (subs st !! d) in
    bind (emit (ENotify d)) (fun _ => for_each call_update subs) st.

(** [pushTarget] *)
Definition pushTarget (_target : Watcher) (st : St) : St :=
  let st :=
    match target st with
    | Some t => set_targetStack (targetStack st ++ [t]) st
    | None => st
    end in
  set_target (Some _target) st.

(** [popTarget]: [Dep.target = targetStack.pop()]. *)
Definition popTarget (st : St) : St :=
  set_target (last (targetStack st))
             (set_targetStack (removelast (targetStack st)) st).

(** States reached from a freshly loaded module through the two exported
    functions; everything but the pointer and its stack is free to
    change in between. *)
Inductive activation : option Watcher -> list Watcher -> Prop :=
  | activation_loaded : activation None []
  | activation_push w st :
      activation (target st) (targetStack st) ->
      activation (target (pushTarget w st)) (targetStack (pushTarget w st))
  | activation_pop st :
      activation (target st) (targetStack st) ->
      activation (target (popTarget st)) (targetStack (popTarget st)).

End WithEnv.

Arguments activation : clear implicits.

End Dep.

(* ===================================================================== *)
(** * The observer *)
(* ===================================================================== *)
Module Observer.
Import Store Dep.

(** Modelled from the spec: the intercepted array methods are defined in
    the array module, which is not part of the sources at hand ("append,
    remove-from-end, remove-from-start, prepend, splice/replace-range,
    reorder operations"). [arrayKeys] are their names. *)
Definition arrayKeys : list string :=
  ["push"; "pop"; "shift"; "unshift"; "splice"; "sort"; "reverse"].

(** The two diagnostics of [set] and [del]. *)
Definition set_message : string :=
  "Avoid adding reactive properties to a Vue instance or its root $data " +:+
  "at runtime - declare it upfront in the data option.".

Definition del_message : string :=
  "Avoid deleting properties on a Vue instance or its root $data " +:+
  "- just set it to null.".

Section WithEnv.

Context {E : Env}.

Local Abbreviation St := (State (World E)).

(** ** Object primitives of the language *)

Definition lookup_obj (l : nat) : M E obj :=
  fun st => match heap st !! l with Some o => Ret o st [] | None => Beyond end.

Definition lookup_observer (r : nat) : M E observer :=
  fun st => match observers st !! r with Some ob => Ret ob st [] | None => Beyond end.

Definition lookup_cell (c : nat) : M E cell :=
  fun st => match cells st !! c with Some cl => Ret cl st [] | None => Beyond end.

Definition store_obj (l : nat) (o : obj) : M E unit :=
  modify (fun st => set_heap (<[l := o]> (heap st)) st).

Definition with_props (p : gmap key prop) (o : obj) : obj :=
  mkObj (o_kind o) (o_extensible o) (o_ob o) (o_isVue o) p (o_elems o)
        (o_augmented o).
Definition with_elems (e : list value) (o : obj) : obj :=
  mkObj (o_kind o) (o_extensible o) (o_ob o) (o_isVue o) (o_props o) e
        (o_augmented o).
Definition with_ob (r : option nat) (o : obj) : obj :=
  mkObj (o_kind o) (o_extensible o) r (o_isVue o) (o_props o) (o_elems o)
        (o_augmented o).
Definition with_augmented (b : bool) (o : obj) : obj :=
  mkObj (o_kind o) (o_extensible o) (o_ob o) (o_isVue o) (o_props o)
        (o_elems o) b.

(** [Array.isArray] *)
Definition isArray (o : obj) : bool := bool_decide (o_kind o = KArray).

(** Modelled from the spec: [isPlainObject] is imported from the utility
    module ("record-like"): the objects whose [toString] tag is
    [[object Object]]. *)
Definition isPlainObject (o : obj) : bool :=
  match o_kind o with KPlain | KVNode => true | KArray | KOther => false end.

(** [Object.getOwnPropertyDescriptor(obj, key)] *)
Definition own_property (o : obj) (k : key) : option prop :=
  match o_kind o, k with
  | KArray, KIndex i => (fun v => PData v true true true) <$> (o_elems o !! i)
  | _, _ => o_props o !! k
  end.

(** Modelled from the spec: [hasOwn] is imported from the utility module;
    it is [Object.prototype.hasOwnProperty]. *)
Definition hasOwn (o : obj) (k : key) : bool :=
  bool_decide (is_Some (own_property o k)).

(** Storing a descriptor under a key. Array elements stay plain data. *)
Definition store_property (l : nat) (o : obj) (k : key) (p : prop) : M E unit :=
  match o_kind o, k, p with
  | KArray, KIndex i, PData v _ _ _ =>
      let elems := o_elems o ++ replicate (S i - length (o_elems o)) VUndefined in
      store_obj l (with_elems (<[i := v]> elems) o)
  | KArray, KIndex _, PAccessor _ _ _ _ => beyond
  | _, _, _ => store_obj l (with_props (<[k := p]> (o_props o)) o)
  end.

(** [Object.defineProperty(obj, key, descriptor)] *)
Definition defineProperty (l : nat) (k : key) (p : prop) : M E unit :=
  bind (lookup_obj l) (fun o =>
    match own_property o k with
    | Some old =>
        if configurable old then store_property l o k p
        else throw "TypeError: Cannot redefine property"
    | None =>
        if o_extensible o then store_property l o k p
        else throw "TypeError: Cannot define property, object is not extensible"
    end).

(** Modelled from the spec: [def] is imported from the utility module; it
    defines a writable, configurable, non-enumerable data property. *)
Definition def (l : nat) (k : key) (v : value) : M E unit :=
  defineProperty l k (PData v true false true).

(** [def(value, '__ob__', this)] *)
Definition def_ob (l : nat) (r : nat) : M E unit :=
  bind (lookup_obj l) (fun o =>
    if o_extensible o || bool_decide (is_Some (o_ob o))
    then store_obj l (with_ob (Some r) o)
    else throw "TypeError: Cannot define property __ob__, object is not extensible").

(** What the recursive calls go through: [observe], a getter or setter
    called with [this], and [dependArray]. *)
Record Self := mkSelf {
  self_observe : value -> bool -> M E (option nat);
  self_get : accessor -> nat -> M E value;
  self_set : accessor -> nat -> value -> M E unit;
  self_dependArray : nat -> M E unit
}.

Section Bodies.

Variable self : Self.

(** [obj[key]] *)
Definition get_property (l : nat) (k : key) : M E value :=
  bind (lookup_obj l) (fun o =>
    match own_property o k with
    | Some (PData v _ _ _) => ret v
    | Some (PAccessor (Some g) _ _ _) => self_get self g l
    | Some (PAccessor None _ _ _) => ret VUndefined
    | None => ret VUndefined
    end).

(** [target[key] = val], in strict mode. *)
Definition put_property (l : nat) (k : key) (v : value) : M E unit :=
  bind (lookup_obj l) (fun o =>
    match own_property o k with
    | Some (PData _ w e c) =>
        if w then store_property l o k (PData v w e c)
        else throw "TypeError: Cannot assign to read only property"
    | Some (PAccessor _ (Some s) _ _) => self_set self s l v
    | Some (PAccessor _ None _ _) =>
        throw "TypeError: Cannot set property which has only a getter"
    | None =>
        if o_extensible o then store_property l o k (PData v true true true)
        else throw "TypeError: Cannot add property, object is not extensible"
    end).

(** [delete target[key]], in strict mode; only named properties are
    deleted this way. *)
Definition delete_property (l : nat) (k : key) : M E unit :=
  bind (lookup_obj l) (fun o =>
    match o_kind o, k with
    | KArray, KIndex _ => beyond
    | _, _ =>
        match o_props o !! k with
        | Some p =>
            if configurable p
            then store_obj l (with_props (delete k (o_props o)) o)
            else throw "TypeError: Cannot delete property"
        | None => ret tt
        end
    end).

(** [observeArray] on an array of the heap: the length is read once, the
    elements as the loop reaches them. *)
Definition observeArray (items : nat) : M E unit :=
  bind (lookup_obj items) (fun o =>
    for_each (fun i =>
      bind (lookup_obj items) (fun o' =>
        bind (self_observe self (default VUndefined (o_elems o' !! i)) false)
             (fun _ => ret tt)))
      (seq 0 (length (o_elems o)))).

(** [observeArray] on an array that only the caller holds. *)
Definition observeArray_fresh (items : list value) : M E unit :=
  for_each (fun v => bind (self_observe self v false) (fun _ => ret tt)) items.

(** [protoAugment] *)
Definition protoAugment (l : nat) : M E unit :=
  bind (lookup_obj l) (fun o => store_obj l (with_augmented true o)).

(** [copyAugment] *)
Definition copyAugment (l : nat) : M E unit :=
  bind (for_each (fun '(i, name) => def l (KName name) (VFunction i))
                 (imap (fun i name => (i, name)) arrayKeys))
       (fun _ => bind (lookup_obj l) (fun o => store_obj l (with_augmented true o))).

Definition alloc_cell (cl : cell) : M E nat :=
  fun st =>
    let c := fresh (dom (cells st)) in
    Ret c (set_cells (<[c := cl]> (cells st)) st) [].

Definition alloc_observer (ob : observer) : M E nat :=
  fun st =>
    let r := fresh (dom (observers st)) in
    Ret r (set_observers (<[r := ob]> (observers st)) st) [].

Definition update_cell (c : nat) (f : cell -> cell) (st : St) : St :=
  set_cells (alter f c (cells st)) st.

Definition with_val (v : value) (cl : cell) : cell :=
  mkCell (c_obj cl) (c_key cl) v (c_childOb cl) (c_dep cl) (c_getter cl)
         (c_setter cl) (c_customSetter cl) (c_shallow cl).

Definition with_childOb (r : option nat) (cl : cell) : cell :=
  mkCell (c_obj cl) (c_key cl) (c_val cl) r (c_dep cl) (c_getter cl)
         (c_setter cl) (c_customSetter cl) (c_shallow cl).

(** [defineReactive(obj, key, val, customSetter, shallow)], up to the
    installation of the accessor pair over a new cell. *)
Definition defineReactive_with (obj : nat) (k : key) (val : value)
    (custom : option nat) (shallow : bool) : M E unit :=
  bind new_Dep (fun dep =>
  bind (lookup_obj obj) (fun o =>
    let property := own_property o k in
    if bool_decide (configurable <$> property = Some false) then ret tt
    else
      let getter := property ≫= prop_get in
      let setter := property ≫= prop_set in
      bind (if shallow then ret None else self_observe self val false)
        (fun childOb =>
      bind (alloc_cell (mkCell obj k val childOb dep getter setter custom shallow))
        (fun c =>
      defineProperty obj k
        (PAccessor (Some (Reactive c)) (Some (Reactive c)) true true))))).

(** [getter ? getter.call(obj) : val] *)
Definition read_current (cl : cell) : M E value :=
  match c_getter cl with
  | Some g => self_get self g (c_obj cl)
  | None => ret (c_val cl)
  end.

(** [dependArray] *)
Definition dependArray_with (l : nat) : M E unit :=
  bind (lookup_obj l) (fun o =>
    for_each (fun i =>
      bind (lookup_obj l) (fun o' =>
        match default VUndefined (o_elems o' !! i) with
        | VObject le =>
            bind (lookup_obj le) (fun oe =>
            bind (match o_ob oe with
                  | Some r => bind (lookup_observer r) (fun ob => depend (ob_dep ob))
                  | None => ret tt
                  end) (fun _ =>
            bind (lookup_obj le) (fun oe' =>
              if isArray oe' then self_dependArray self le else ret tt)))
        | _ => ret tt
        end))
      (seq 0 (length (o_elems o)))).

(** [reactiveGetter], the [get] function installed by [defineReactive]
    over cell [c]. *)
Definition reactiveGetter (c : nat) : M E value :=
  bind (lookup_cell c) (fun cl =>
  bind (read_current cl) (fun value =>
  bind get_state (fun st =>
  bind (match target st with
        | Some _ =>
            bind (depend (c_dep cl)) (fun _ =>
            bind (lookup_cell c) (fun cl' =>
              match c_childOb cl' with
              | Some r =>
                  bind (lookup_observer r) (fun ob =>
                  bind (depend (ob_dep ob)) (fun _ =>
                    match value with
                    | VObject l =>
                        bind (lookup_obj l) (fun o =>
                          if isArray o then dependArray_with l else ret tt)
                    | _ => ret tt
                    end))
              | None => ret tt
              end))
        | None => ret tt
        end) (fun _ => ret value)))).

(** [reactiveSetter], the [set] function installed by [defineReactive]
    over cell [c]. *)
Definition reactiveSetter (c : nat) (newVal : value) : M E unit :=
  bind (lookup_cell c) (fun cl =>
  bind (read_current cl) (fun value =>
    if strict_equal newVal value
       || (strict_not_equal newVal newVal && strict_not_equal value value)
    then ret tt
    else
      bind (match c_customSetter cl with
            | Some f =>
                if negb (production E)
                then bind (emit (ECustomSetter f)) (fun _ => modify (customSetter f))
                else ret tt
            | None => ret tt
            end) (fun _ =>
      bind (match c_setter cl with
            | Some s => self_set self s (c_obj cl) newVal
            | None => modify (update_cell c (with_val newVal))
            end) (fun _ =>
      bind (if c_shallow cl then ret None else self_observe self newVal false)
        (fun childOb =>
      bind (modify (update_cell c (with_childOb childOb))) (fun _ =>
      notify (c_dep cl))))))).

(** [Object.keys(obj)]; the enumeration order is that of the map. *)
Definition Object_keys (o : obj) : list key :=
  (KIndex <$> seq 0 (length (o_elems o))) ++
  omap (fun kp : key * prop => if enumerable kp.2 then Some kp.1 else None)
       (map_to_list (o_props o)).

(** [walk] *)
Definition walk (obj : nat) : M E unit :=
  bind (lookup_obj obj) (fun o =>
    for_each (fun k =>
      bind (get_property obj k) (fun v => defineReactive_with obj k v None false))
      (Object_keys o)).

(** [new Observer(value)] *)
Definition new_Observer (value : nat) : M E nat :=
  bind new_Dep (fun dep =>
  bind (alloc_observer (mkObserver value dep 0)) (fun r =>
  bind (def_ob value r) (fun _ =>
  bind (lookup_obj value) (fun o =>
  bind (if isArray o
        then bind (if hasProto E then protoAugment value else copyAugment value)
                  (fun _ => observeArray value)
        else walk value) (fun _ =>
  ret r))))).

(** [ob.vmCount++] *)
Definition increment_vmCount (r : nat) (st : St) : St :=
  set_observers
    (alter (fun ob => mkObserver (ob_value ob) (ob_dep ob) (S (ob_vmCount ob)))
           r (observers st)) st.

(** [observe(value, asRootData)]. Modelled from the spec: [isObject] is
    imported from the utility module; it holds of object references. The
    result is [None] when the function returns [undefined]. *)
Definition observe_with (value : value) (asRootData : bool) : M E (option nat) :=
  match value with
  | VObject l =>
      bind (lookup_obj l) (fun o =>
        if bool_decide (o_kind o = KVNode) then ret None
        else
          bind (match o_ob o with
                | Some r => ret (Some r)
                | None =>
                    bind get_state (fun st =>
                      if shouldConvert st && negb (isServerRendering E)
                         && (isArray o || isPlainObject o)
                         && o_extensible o && negb (o_isVue o)
                      then bind (new_Observer l) (fun r => ret (Some r))
                      else ret None)
                end) (fun ob =>
          match ob with
          | Some r =>
              if asRootData
              then bind (modify (increment_vmCount r)) (fun _ => ret ob)
              else ret ob
          | None => ret ob
          end))
  | _ => ret None
  end.

(** The language's own [Array.prototype.splice], on the element list. *)
Definition native_splice (start deleteCount : nat) (items elems : list value)
    : list value :=
  take start elems ++ items ++ drop (start + deleteCount) elems.

(** New elements can only be added to an extensible array. *)
Definition write_elems (l : nat) (new : list value) : M E unit :=
  bind (lookup_obj l) (fun o =>
    if bool_decide (length new <= length (o_elems o)) || o_extensible o
    then store_obj l (with_elems new o)
    else throw "TypeError: Cannot add property, object is not extensible").

(** Modelled from the spec: the intercepting array methods belong to the
    array module, which is not part of the sources at hand. After the
    original mutation such a method observes the inserted elements and
    notifies the dependency of the array's observer ([this.__ob__]). *)
Definition intercepted (o : obj) (inserted : list value) : M E unit :=
  if o_augmented o then
    match o_ob o with
    | Some r =>
        bind (lookup_observer r) (fun ob =>
        bind (observeArray_fresh inserted) (fun _ =>
        notify (ob_dep ob)))
    | None => throw "TypeError: Cannot read properties of undefined"
    end
  else ret tt.

(** [target.splice(start, deleteCount, ...items)]: the original mutation,
    followed on an augmented array by the interception. The removed
    elements, which the callers drop, are not returned. *)
Definition splice (l : nat) (start deleteCount : nat) (items : list value)
    : M E unit :=
  bind (lookup_obj l) (fun o =>
  bind (write_elems l (native_splice start deleteCount items (o_elems o))) (fun _ =>
  intercepted o items)).

(** [target.length = n] for [n] not below the current length. *)
Definition extend_length (l : nat) (n : nat) : M E unit :=
  bind (lookup_obj l) (fun o =>
    store_obj l
      (with_elems (o_elems o ++ replicate (n - length (o_elems o)) VUndefined) o)).

(** The number behind a key that [isValidArrayIndex] accepts. *)
Definition index_of (k : key) : nat :=
  match k with KIndex i => i | KName _ => 0 end.

(** [target._isVue || (ob && ob.vmCount)] for [ob = target.__ob__]. *)
Definition is_root (o : obj) : M E bool :=
  if o_isVue o then ret true
  else match o_ob o with
       | Some r => bind (lookup_observer r) (fun ob =>
                     ret (bool_decide (0 < ob_vmCount ob)))
       | None => ret false
       end.

(** [process.env.NODE_ENV !== 'production' && warn(msg)] *)
Definition warn_in_development (msg : string) : M E unit :=
  if negb (production E) then emit (EWarn msg) else ret tt.

(** [set(target, key, val)] *)
Definition set_with (target : nat) (k : key) (val : value) : M E value :=
  bind (lookup_obj target) (fun o =>
    if isArray o && isValidArrayIndex k then
      bind (extend_length target (length (o_elems o) `max` index_of k)) (fun _ =>
      bind (splice target (index_of k) 1 [val]) (fun _ =>
      ret val))
    else if hasOwn o k then
      bind (put_property target k val) (fun _ => ret val)
    else
      bind (is_root o) (fun root =>
        if root then
          bind (warn_in_development set_message) (fun _ => ret val)
        else
          match o_ob o with
          | None => bind (put_property target k val) (fun _ => ret val)
          | Some r =>
              bind (lookup_observer r) (fun ob =>
              bind (defineReactive_with (ob_value ob) k val None false) (fun _ =>
              bind (notify (ob_dep ob)) (fun _ =>
              ret val)))
          end)).

(** [del(target, key)] *)
Definition del_with (target : nat) (k : key) : M E unit :=
  bind (lookup_obj target) (fun o =>
    if isArray o && isValidArrayIndex k then
      splice target (index_of k) 1 []
    else
      bind (is_root o) (fun root =>
        if root then warn_in_development del_message
        else if negb (hasOwn o k) then ret tt
        else
          bind (delete_property target k) (fun _ =>
            match o_ob o with
            | None => ret tt
            | Some r => bind (lookup_observer r) (fun ob => notify (ob_dep ob))
            end))).

(** A getter or a setter called with [this]. *)
Definition call_get (a : accessor) (this : nat) : M E value :=
  match a with
  | User f => fun st => let '(v, st') := user_get f this st in Ret v st' []
  | Reactive c => reactiveGetter c
  end.

Definition call_set (a : accessor) (this : nat) (v : value) : M E unit :=
  match a with
  | User f => modify (user_set f this v)
  | Reactive c => reactiveSetter c v
  end.

End Bodies.

(** The recursion is tied with fuel: each level of nesting (an observer
    built inside [observe], an accessor calling another, an array inside
    an array) takes one unit. *)
Fixpoint tie (fuel : nat) : Self :=
  match fuel with
  | 0 => mkSelf (fun _ _ => no_fuel) (fun _ _ => no_fuel)
                (fun _ _ _ => no_fuel) (fun _ => no_fuel)
  | S n => mkSelf (observe_with (tie n)) (call_get (tie n))
                  (call_set (tie n)) (dependArray_with (tie n))
  end.

Definition observe (fuel : nat) : value -> bool -> M E (option nat) :=
  observe_with (tie fuel).

Definition defineReactive (fuel : nat)
    : nat -> key -> value -> option nat -> bool -> M E unit :=
  defineReactive_with (tie fuel).

Definition set (fuel : nat) : nat -> key -> value -> M E value :=
  set_with (tie fuel).

Definition del (fuel : nat) : nat -> key -> M E unit :=
  del_with (tie fuel).

(** Assignment to and read of a reactive property from outside:
    [obj[key] = v] and [obj[key]]. *)
Definition assign (fuel : nat) : nat -> key -> value -> M E unit :=
  put_property (tie fuel).

Definition read (fuel : nat) : nat -> key -> M E value :=
  get_property (tie fuel).

(** ** Vocabulary for the statements below *)

(** All events of an outcome satisfy [P]. *)
Definition events_all (P : event -> Prop) {A} (o : outcome E A) : Prop :=
  match o with
  | Ret _ _ evs | Throw _ _ evs => Forall P evs
  | Beyond | NoFuel => True
  end.

(** A computation that emits only events satisfying [P], whatever the
    state it starts from. *)
Definition emits_only (P : event -> Prop) {A} (m : M E A) : Prop :=
  forall st, events_all P (m st).

Definition not_a_warning (e : event) : Prop :=
  match e with EWarn _ => False | _ => True end.

(** The call [Dep.target.addDep(dep)] made by [depend]. *)
Definition a_registration (e : event) : Prop :=
  match e with EAddDep _ _ => True | _ => False end.

(** No diagnostic among the events of an outcome. *)
Definition no_warning {A} (o : outcome E A) : Prop :=
  events_all not_a_warning o.

(** The array at [target] with its elements replaced. *)
Definition with_array (target : nat) (o : obj) (elems : list value) (st : St) : St :=
  set_heap (<[target := with_elems elems o]> (heap st)) st.

(** The values that [observe] passes over at once ([isObject] fails). *)
Definition primitive (v : value) : Prop :=
  match v with VObject _ => False | _ => True end.

(** The test of [reactiveSetter]:
    [newVal === value || (newVal !== newVal && value !== value)]. *)
Definition unchanged (newVal value : value) : bool :=
  strict_equal newVal value
  || (strict_not_equal newVal newVal && strict_not_equal value value).

(** Outside code that leaves the reactive data alone: the heap, the
    observers, the closures of the accessors, and the watcher under
    evaluation (as it is found again once the code has returned). *)
Definition preserves_data (f : St -> St) : Prop :=
  forall st, heap (f st) = heap st /\ observers (f st) = observers st /\
             cells (f st) = cells st /\ target (f st) = target st.

(** The dependencies behind a reactive property: its own, and the one of
    the observer of its value when there is one. *)
Definition dependencies (cl : cell) (st : St) : list nat :=
  c_dep cl ::
  match c_childOb cl ≫= (fun r => observers st !! r) with
  | Some ob => [ob_dep ob]
  | None => []
  end.

(** The dependency that [dependArray] finds on an array element: the one
    of the element's observer, for an element that is an observed
    object. *)
Definition element_dependency (st : St) (v : value) : option nat :=
  match v with
  | VObject le =>
      oe ← heap st !! le; r ← o_ob oe; ob ← observers st !! r; Some (ob_dep ob)
  | _ => None
  end.

(** An array element that [dependArray] deals with on the spot: a
    primitive, or an object of the heap that is no array and whose
    observer, if it has one, exists. *)
Definition simple_element (st : St) (v : value) : Prop :=
  match v with
  | VObject le =>
      exists oe, heap st !! le = Some oe /\ isArray oe = false /\
                 forall re, o_ob oe = Some re -> is_Some (observers st !! re)
  | _ => True
  end.

(** The state after watcher [w] has been handed the dependencies [ds]. *)
Definition registered (w : Watcher) (ds : list nat) (st : St) : St :=
  foldl (fun s d => addDep w d s) st ds.

(** The state after [update] has been called on each watcher of [l]. *)
Definition updated (l : list Watcher) (st : St) : St :=
  foldl (fun s w => update w s) st l.

(** The subscribers of a dependency. *)
Definition subscribers (d : nat) (st : St) : list Watcher :=
  default [] (subs st !! d).

(** The accessor pair that [defineReactive] installs over cell [c]. *)
Definition reactive_property (c : nat) : prop :=
  PAccessor (Some (Reactive c)) (Some (Reactive c)) true true.

(** The state in which [defineReactive(obj, key, val, customSetter,
    shallow)] leaves a property of the object [o] found at [obj], when
    the property can be redefined: a new dependency, a new closure that
    remembers the accessors found on the property, and the accessor pair
    in the property's place. *)
Definition reactive_cell (l : nat) (o : obj) (k : key) (val : value)
    (childOb custom : option nat) (shallow : bool) (st : St) : cell :=
  mkCell l k val childOb (uid st)
         (own_property o k ≫= prop_get) (own_property o k ≫= prop_set)
         custom shallow.

Definition made_reactive (l : nat) (o : obj) (k : key) (val : value)
    (childOb custom : option nat) (shallow : bool) (st : St) : St :=
  let c := fresh (dom (cells st)) in
  set_heap (<[l := with_props (<[k := reactive_property c]> (o_props o)) o]>
              (heap st))
    (set_cells (<[c := reactive_cell l o k val childOb custom shallow st]>
                  (cells st))
       (set_subs (<[uid st := []]> (subs st)) (set_uid (S (uid st)) st))).

(** The object at [l] with its own properties replaced. *)
Definition with_record (l : nat) (o : obj) (p : gmap key prop) (st : St) : St :=
  set_heap (<[l := with_props p o]> (heap st)) st.

(** The values on which [observe] gives up: not an object; a [VNode]; or,
    without an observer of its own, an object that is neither record-like
    nor an array, is not extensible, is a framework instance, or meets
    switched-off conversion (or server rendering). *)
Definition declined (st : St) (v : value) : Prop :=
  match v with
  | VObject l =>
      exists o, heap st !! l = Some o /\
        (o_kind o = KVNode \/
         (o_ob o = None /\
          (o_kind o = KOther \/ o_extensible o = false \/ o_isVue o = true \/
           shouldConvert st = false \/ isServerRendering E = true)))
  | _ => True
  end.

End WithEnv.

End Observer.

(* ===================================================================== *)
(** * Sample heaps and environments *)
(* ===================================================================== *)
Module Samples.
Import Store Dep Observer.

(** Outside code that does nothing. *)
Definition still_env (prod : bool) : Env :=
  mkEnv unit (fun _ st => st) (fun _ _ st => st)
        (fun _ _ st => (VUndefined, st)) (fun _ _ _ st => st)
        (fun _ st => st) prod false true.

(** Watchers whose [update] empties every subscriber list. *)
Definition unsubscribing_env : Env :=
  mkEnv unit
        (fun _ st =>
           mkState (heap st) (observers st) (cells st)
                   ((fun _ => []) <$> subs st) (uid st) (target st)
                   (targetStack st) (shouldConvert st) (outside st))
        (fun _ _ st => st) (fun _ _ st => (VUndefined, st))
        (fun _ _ _ st => st) (fun _ st => st) false false true.

Definition NaN : value := VNumber S754_nan.
Definition one : value := VNumber (S754_finite false 1 0).

(** Object 0 is the record [{a: NaN}], object 1 the array [[1, null]],
    object 2 an empty record that is not extensible. *)
Definition sample_heap : gmap nat obj :=
  <[0 := mkObj KPlain true None false
           (<[KName "a" := PData NaN true true true]> ∅) [] false]>
  (<[1 := mkObj KArray true None false ∅ [one; VNull] false]>
  (<[2 := mkObj KPlain false None false ∅ [] false]> ∅)).

Definition sample_state (prod : bool) : State (World (still_env prod)) :=
  mkState sample_heap ∅ ∅ ∅ 0 None [] true (tt : World (still_env prod)).

Definition state_after {E A} (o : outcome E A) (otherwise : State (World E))
    : State (World E) :=
  match o with Ret _ st _ => st | _ => otherwise end.

(** The record observed as root data, and the array observed as root
    data. *)
Definition root_record (prod : bool) : State (World (still_env prod)) :=
  Eval vm_compute in
  state_after (observe 2 (VObject 0) true (sample_state prod)) (sample_state prod).

Definition root_array (prod : bool) : State (World (still_env prod)) :=
  Eval vm_compute in
  state_after (observe 2 (VObject 1) true (sample_state prod)) (sample_state prod).

(** The observed record once it has been made non-extensible and
    conversion has been switched off. *)
Definition frozen_record : State (World (still_env false)) :=
  Eval vm_compute in
  let st := root_record false in
  mkState (alter (fun o => mkObj (o_kind o) false (o_ob o) (o_isVue o)
                                 (o_props o) (o_elems o) (o_augmented o))
                 0 (heap st))
          (observers st) (cells st) (subs st) (uid st) (target st)
          (targetStack st) false (outside st).

(** Watchers that keep to themselves: [update] writes the watcher's name
    down in the outside world, [addDep] subscribes the watcher to the
    dependency, and every earlier getter returns the string "computed". *)
Definition recording_env : Env :=
  mkEnv (list Watcher)
        (fun w st =>
           mkState (heap st) (observers st) (cells st) (subs st) (uid st)
                   (target st) (targetStack st) (shouldConvert st)
                   (outside st ++ [w]))
        (fun w d st =>
           mkState (heap st) (observers st) (cells st)
                   (alter (fun l => l ++ [w]) d (subs st)) (uid st)
                   (target st) (targetStack st) (shouldConvert st) (outside st))
        (fun _ _ st => (VString "computed", st)) (fun _ _ _ st => st)
        (fun _ st => st) false false true.

Definition plain_state : State (World recording_env) :=
  mkState sample_heap ∅ ∅ ∅ 0 None [] true ([] : World recording_env).

(** The record [{a: NaN}] once observed (not as root data): its observer
    has dependency 0, the property [a] has dependency 1. Watchers 1 and 2
    subscribe to the property, watcher 3 to the record. *)
Definition watched_record : State (World recording_env) :=
  Eval vm_compute in
  let st := state_after (observe 2 (VObject 0) false plain_state) plain_state in
  set_subs (<[1 := [Scheduler.sample_watcher 1; Scheduler.sample_watcher 2]]>
              (<[0 := [Scheduler.sample_watcher 3]]> (subs st))) st.

(** The same while watcher 9 is being evaluated. *)
Definition watched_record_in_evaluation : State (World recording_env) :=
  Eval vm_compute in set_target (Some (Scheduler.sample_watcher 9)) watched_record.

(** The array [[1, null]] once observed (not as root data), with watcher
    3 subscribed to it. *)
Definition watched_array : State (World recording_env) :=
  Eval vm_compute in
  let st := state_after (observe 2 (VObject 1) false plain_state) plain_state in
  set_subs (<[0 := [Scheduler.sample_watcher 3]]> (subs st)) st.

(** A record whose property [id] is neither writable nor configurable and
    whose property [full] has a getter and a setter. *)
Definition fixed_record : State (World recording_env) :=
  mkState
    (<[0 := mkObj KPlain true None false
              (<[KName "id" := PData one false true false]>
               (<[KName "full" :=
                    PAccessor (Some (User 0)) (Some (User 1)) true true]> ∅))
              [] false]> ∅)
    ∅ ∅ ∅ 0 None [] true ([] : World recording_env).

(** The same once [defineReactive] has taken [full] over. *)
Definition computed_record : State (World recording_env) :=
  Eval vm_compute in
  state_after (defineReactive 1 0 (KName "full") one None false fixed_record)
              fixed_record.

(** The record [{a: NaN}] with [a] made reactive under custom setter 5,
    in a development and in a production build. *)
Definition guarded_record (prod : bool) : State (World (still_env prod)) :=
  Eval vm_compute in
  state_after (defineReactive 1 0 (KName "a") NaN (Some 5) false (sample_state prod))
              (sample_state prod).

(** A framework instance. *)
Definition instance_state : State (World recording_env) :=
  mkState (<[0 := mkObj KOther true None true ∅ [] false]> ∅)
          ∅ ∅ ∅ 0 None [] true ([] : World recording_env).

(** The record [{list: [{}, 1]}], observed, while watcher 9 is being
    evaluated. Dependency 1 is the one of the property, 2 the one of the
    array, 3 the one of the record inside the array. *)
Definition nested_in_evaluation : State (World recording_env) :=
  Eval vm_compute in
  let st :=
    mkState
      (<[0 := mkObj KPlain true None false
                (<[KName "list" := PData (VObject 1) true true true]> ∅) [] false]>
       (<[1 := mkObj KArray true None false ∅ [VObject 2; one] false]>
        (<[2 := mkObj KPlain true None false ∅ [] false]> ∅)))
      ∅ ∅ ∅ 0 None [] true ([] : World recording_env) in
  set_target (Some (Scheduler.sample_watcher 9))
             (state_after (observe 3 (VObject 0) false st) st).

(** A dependency with three subscribers. *)
Definition three_subscribers : State (World unsubscribing_env) :=
  mkState ∅ ∅ ∅
          (<[0 := [Scheduler.sample_watcher 1; Scheduler.sample_watcher 2;
                   Scheduler.sample_watcher 3]]> ∅)
          1 None [] true (tt : World unsubscribing_env).

End Samples.

(* ===================================================================== *)
(** * Properties of the scheduler *)
(* ===================================================================== *)
Module SchedulerProps.
Import Scheduler.

Section Props.

Context {E : Env}.
Implicit Types (st : Sched E) (w x : Watcher) (q : list Watcher).
Implicit Types (flush : Sched E -> option (Sched E)).

(** ** The log *)

Lemma runs_app (l1 l2 : list event) : runs (l1 ++ l2) = runs l1 ++ runs l2.
Proof. apply omap_app. Qed.

Lemma warnings_app (l1 l2 : list event) :
  warnings (l1 ++ l2) = warnings l1 ++ warnings l2.
Proof. apply omap_app. Qed.

(** ** The backward scan *)

Lemma scan_le q idx wid p : scan q idx wid p <= p.
Proof.
  induction p as [|i IH]; simpl; [lia|].
  case_bool_decide; [|lia].
  destruct (q !! i); [|lia].
  case_bool_decide; lia.
Qed.

Lemma scan_gt q idx wid p : idx < p -> idx < scan q idx wid p.
Proof.
  induction p as [|i IH]; simpl; [lia|]. intros Hp.
  case_bool_decide; [|lia].
  destruct (q !! i); [|lia].
  case_bool_decide; [apply IH|]; lia.
Qed.

Lemma scan_below q idx wid p :
  idx < p -> p <= length q ->
  (forall x, x ∈ drop (S idx) q -> (wid < w_id x)%Z) ->
  scan q idx wid p = S idx.
Proof.
  intros Hlo Hhi Hall. induction p as [|i IH]; [lia|]. simpl.
  case_bool_decide as Hi; [|lia].
  destruct (q !! i) as [x|] eqn:Hx.
  - rewrite bool_decide_eq_true_2; [apply IH; lia|].
    apply Hall. apply list_elem_of_lookup. exists (i - S idx).
    rewrite lookup_drop. replace (S idx + (i - S idx)) with i by lia. done.
  - apply lookup_ge_None in Hx. lia.
Qed.

Lemma scan_above q idx wid :
  (forall x, x ∈ drop (S idx) q -> (w_id x < wid)%Z) ->
  scan q idx wid (length q) = length q.
Proof.
  intros Hall. destruct (length q) as [|i] eqn:Hlen; [done|]. simpl.
  case_bool_decide as Hi; [|done].
  destruct (q !! i) as [x|] eqn:Hx; [|done].
  rewrite bool_decide_eq_false_2; [done|].
  assert (w_id x < wid)%Z; [|lia].
  apply Hall. apply list_elem_of_lookup. exists (i - S idx).
  rewrite lookup_drop. replace (S idx + (i - S idx)) with i by lia. done.
Qed.

(** ** Splicing *)

Lemma splice_in_lookup p w q : p <= length q -> splice_in p w q !! p = Some w.
Proof.
  intros Hp. unfold splice_in.
  assert (length (take p q) = p) as Hl by (rewrite length_take; lia).
  rewrite lookup_app_r; [|lia]. rewrite Hl, Nat.sub_diag. done.
Qed.

Lemma splice_in_take p w q k :
  k <= p -> p <= length q -> take k (splice_in p w q) = take k q.
Proof.
  intros Hk Hp. unfold splice_in.
  rewrite take_app_le; [|rewrite length_take; lia].
  rewrite take_take. f_equal. lia.
Qed.

Lemma splice_in_drop p w q k :
  k <= p -> p <= length q -> drop k q `sublist_of` drop k (splice_in p w q).
Proof.
  intros Hk Hp. unfold splice_in.
  rewrite <- (take_drop p q) at 1.
  assert (length (take p q) = p) as Hl by (rewrite length_take; lia).
  rewrite !drop_app_le by lia.
  apply sublist_app; [done|]. by apply sublist_cons.
Qed.

Lemma splice_in_length p w q : length (splice_in p w q) = S (length q).
Proof.
  unfold splice_in. rewrite length_app. simpl.
  rewrite length_take, length_drop. lia.
Qed.

(** ** Calls made while a flush is running *)

Lemma keeps_refl st : keeps [] st st.
Proof. unfold keeps. rewrite app_nil_r. repeat split; auto. Qed.

Lemma keeps_trans l1 l2 st1 st2 st3 :
  keeps l1 st1 st2 -> keeps l2 st2 st3 -> keeps (l1 ++ l2) st1 st3.
Proof.
  intros (H1 & H2 & H3 & H4 & H5 & H6) (G1 & G2 & G3 & G4 & G5 & G6).
  rewrite H3 in G5, G6.
  unfold keeps. rewrite G1, G2, G3, G4, H4, G5, app_assoc.
  repeat split; auto. by etrans.
Qed.

Lemma keeps_in_flush l st st' : in_flush st -> keeps l st st' -> in_flush st'.
Proof.
  intros (F1 & F2 & F3) (H1 & H2 & H3 & _ & H5 & _).
  unfold in_flush. rewrite H1, H2, H3. repeat split; auto.
  apply (f_equal length) in H5. rewrite !length_take in H5. lia.
Qed.

Lemma keeps_cursor l st st' w :
  keeps l st st' -> queue st !! index st = Some w ->
  queue st' !! index st' = Some w.
Proof.
  intros (_ & _ & H3 & _ & H5 & _) Hw. rewrite H3.
  rewrite <- (lookup_take_lt _ (S (index st))) by lia.
  rewrite H5, lookup_take_lt by lia. done.
Qed.

Lemma queueWatcher_in_flush flush w st :
  in_flush st ->
  exists st', queueWatcher_with flush w st = Some st' /\ keeps [] st st'.
Proof.
  intros (F1 & F2 & F3). unfold queueWatcher_with.
  destruct (nullish (has st !! w_id w)); [|eauto using keeps_refl].
  destruct st as [q a h c wt fl i wo lg]. simpl in *. subst. simpl.
  eexists. split; [reflexivity|].
  pose proof (scan_gt q i (w_id w) (length q) F3).
  pose proof (scan_le q i (w_id w) (length q)).
  unfold keeps. simpl. rewrite app_nil_r.
  repeat split; auto.
  - apply splice_in_take; lia.
  - apply splice_in_drop; lia.
Qed.

Lemma queueActivatedComponent_keeps vm st :
  keeps [] st (queueActivatedComponent vm st).
Proof. unfold keeps. simpl. rewrite app_nil_r. repeat split; auto. Qed.

Lemma perform_all_in_flush flush cs st :
  in_flush st ->
  exists st', perform_all flush cs st = Some st' /\ keeps [] st st'.
Proof.
  revert st. induction cs as [|c cs IH]; intros st Hst; simpl.
  - eauto using keeps_refl.
  - assert (exists st1, perform_with flush c st = Some st1 /\ keeps [] st st1)
      as (st1 & -> & Hk1).
    { destruct c as [w|vm]; simpl.
      - by apply queueWatcher_in_flush.
      - eauto using queueActivatedComponent_keeps. }
    destruct (IH st1) as (st2 & -> & Hk2); [by eapply keeps_in_flush|].
    exists st2. split; [done|]. by apply (keeps_trans [] [] st st1 st2).
Qed.

Lemma external_in_flush flush body e w st :
  in_flush st ->
  exists st', external flush body e w st = Some st' /\ keeps [e] st st'.
Proof.
  intros Hst. unfold external. destruct (body w (world st)) as [wo cs].
  assert (keeps [e] st (set_world wo (emit e st))) as Hk0.
  { unfold keeps. simpl. repeat split; auto. }
  destruct (perform_all_in_flush flush cs (set_world wo (emit e st)))
    as (st' & -> & Hk); [by eapply keeps_in_flush|].
  exists st'. split; [done|].
  by apply (keeps_trans [e] [] st (set_world wo (emit e st)) st').
Qed.

Lemma run_entry_in_flush flush w st :
  in_flush st ->
  exists st' l, run_entry flush w st = Some st' /\ keeps (l ++ [ERun w]) st st'.
Proof.
  intros Hst. unfold run_entry.
  assert (exists st1 l,
    (if w_before w then external flush before_hook (EBefore w) w st else Some st)
      = Some st1 /\ keeps l st st1) as (st1 & l & -> & Hk1).
  { destruct (w_before w).
    - destruct (external_in_flush flush before_hook (EBefore w) w st Hst)
        as (st1 & ? & ?). eauto.
    - eauto using keeps_refl. }
  set (st2 := set_has _ st1).
  assert (keeps [] st1 st2) as Hk2.
  { unfold keeps. simpl. rewrite app_nil_r. repeat split; auto. }
  destruct (external_in_flush flush run (ERun w) w st2) as (st3 & -> & Hk3).
  { eapply keeps_in_flush; [|exact Hk2]. by eapply keeps_in_flush. }
  exists st3, l. split; [done|].
  apply (keeps_trans l [ERun w] st st1 st3); [done|].
  by apply (keeps_trans [] [ERun w] st1 st2 st3).
Qed.

Lemma circular_check_keeps w st :
  exists l, keeps l st (circular_check w st).1.
Proof.
  unfold circular_check.
  destruct (negb (production (cfg E)) && negb (nullish (has st !! w_id w)));
    [|eauto using keeps_refl].
  case_bool_decide; simpl.
  - eexists [_]. unfold keeps. simpl. repeat split; auto.
  - exists []. unfold keeps. simpl. rewrite app_nil_r. repeat split; auto.
Qed.

(** ** Every entry behind the cursor is run by a pass that is not aborted *)

Lemma elem_of_runs (l : list event) x : x ∈ runs l <-> ERun x ∈ l.
Proof.
  unfold runs. rewrite list_elem_of_omap. split.
  - intros (e & He & Hx). destruct e; try done. by injection Hx as ->.
  - intros Hx. by exists (ERun x).
Qed.

Lemma flushLoop_runs_tail flush fuel st st' :
  flushing st = true -> waiting st = true ->
  flushLoop flush fuel st = Some st' ->
  queue st' !! index st' = None ->
  exists l, log st' = log st ++ l /\
            drop (index st) (queue st) `sublist_of` runs l.
Proof.
  revert st. induction fuel as [|n IH]; intros st Hf Hw Hloop Hend; [done|].
  simpl in Hloop. destruct (queue st !! index st) as [w|] eqn:Hcur.
  - assert (in_flush st) as Hst.
    { repeat split; auto. by eapply lookup_lt_Some. }
    unfold loop_body in Hloop.
    destruct (run_entry_in_flush flush w st Hst) as (st1 & l1 & Hrun & Hk1).
    rewrite Hrun in Hloop.
    destruct (circular_check_keeps w st1) as (l2 & Hk2).
    pose proof (keeps_trans _ _ _ _ _ Hk1 Hk2) as Hk.
    destruct (circular_check w st1) as [st2 b]. simpl in Hk2, Hk.
    destruct b.
    + injection Hloop as <-.
      rewrite (keeps_cursor _ _ _ _ Hk Hcur) in Hend. done.
    + destruct Hk as (K1 & K2 & K3 & K4 & K5 & K6).
      apply IH in Hloop as (l3 & Hlog & Hall); simpl; [| congruence.. | done].
      simpl in Hlog, Hall. exists (((l1 ++ [ERun w]) ++ l2) ++ l3).
      split; [by rewrite Hlog, K4, !app_assoc|].
      rewrite (drop_S _ _ _ Hcur), !runs_app. simpl.
      rewrite <- !app_assoc. apply sublist_inserts_l. simpl.
      apply sublist_skip. apply sublist_inserts_l.
      etrans; [exact K6|]. by rewrite <- K3.
  - injection Hloop as <-. exists []. split; [by rewrite app_nil_r|].
    rewrite drop_ge; [apply sublist_nil_l|]. by apply lookup_ge_None.
Qed.

(** A pass that stops with the cursor still on an entry has just logged a
    warning. *)
Lemma flushLoop_end flush fuel st st' :
  flushing st = true -> waiting st = true ->
  flushLoop flush fuel st = Some st' ->
  queue st' !! index st' = None \/ exists l m vm, log st' = l ++ [EWarn m vm].
Proof.
  revert st. induction fuel as [|n IH]; intros st Hf Hw Hloop; [done|].
  simpl in Hloop. destruct (queue st !! index st) as [w|] eqn:Hcur.
  - assert (in_flush st) as Hst.
    { repeat split; auto. by eapply lookup_lt_Some. }
    unfold loop_body in Hloop.
    destruct (run_entry_in_flush flush w st Hst) as (st1 & l1 & Hrun & Hk1).
    rewrite Hrun in Hloop.
    destruct (circular_check_keeps w st1) as (l2 & Hk2).
    pose proof (keeps_trans _ _ _ _ _ Hk1 Hk2) as (K1 & K2 & _).
    unfold circular_check in *.
    destruct (negb (production (cfg E)) && negb (nullish (has st1 !! w_id w))).
    + case_bool_decide; simpl in *.
      * injection Hloop as <-. right. simpl. eauto.
      * apply IH in Hloop; simpl; [done|congruence..].
    + simpl in *. apply IH in Hloop; simpl; [done|congruence..].
  - injection Hloop as <-. by left.
Qed.

(** C1 (as amended). While a flush is running, a watcher whose id is not
    pending is spliced into the queue strictly behind the cursor, so it is
    never put off to a later pass. If its id is smaller than every id still
    waiting behind the cursor it lands right after the cursor and is the
    next entry to run; if its id is greater than every such id it is
    appended to the end of the queue. In both cases (and in every other)
    the current pass runs it, provided the pass reaches its end and is not
    cut short by the circular-update check. *)
Theorem queueWatcher_while_flushing flush w st :
  in_flush st ->
  nullish (has st !! w_id w) = true ->
  exists p st1,
    queueWatcher_with flush w st = Some st1 /\
    st1 = set_queue (splice_in p w (queue st))
            (set_has (<[w_id w := MTrue]> (has st)) st) /\
    index st < p <= length (queue st) /\
    queue st1 !! p = Some w /\
    ((forall x, x ∈ drop (S (index st)) (queue st) -> (w_id w < w_id x)%Z) ->
     p = S (index st)) /\
    ((forall x, x ∈ drop (S (index st)) (queue st) -> (w_id x < w_id w)%Z) ->
     p = length (queue st) /\ queue st1 = queue st ++ [w]) /\
    (forall l st2 fuel st',
       keeps l st1 st2 ->
       flushLoop flush fuel (set_index (S (index st2)) st2) = Some st' ->
       queue st' !! index st' = None ->
       exists l', log st' = log st2 ++ l' /\ ERun w ∈ l').
Proof.
  intros Hst Hnull. pose proof Hst as (F1 & F2 & F3).
  set (p := scan (queue st) (index st) (w_id w) (length (queue st))).
  pose proof (scan_gt (queue st) (index st) (w_id w) (length (queue st)) F3).
  pose proof (scan_le (queue st) (index st) (w_id w) (length (queue st))).
  exists p. eexists. split; [|split; [reflexivity|]].
  { unfold queueWatcher_with. rewrite Hnull. simpl. rewrite F1. simpl.
    rewrite F2. done. }
  split; [fold p; lia|]. split; [simpl; apply splice_in_lookup; fold p; lia|].
  split; [intros Hall; apply scan_below; auto|].
  split.
  { intros Hall. assert (p = length (queue st)) as Hp by by apply scan_above.
    split; [done|]. simpl. rewrite Hp. unfold splice_in.
    by rewrite take_ge, drop_ge by lia. }
  intros l st2 fuel st' Hk Hloop Hend.
  destruct Hk as (K1 & K2 & K3 & K4 & K5 & K6). simpl in *.
  apply flushLoop_runs_tail in Hloop as (l' & Hlog & Hall);
    simpl; [|congruence..|done].
  simpl in *. exists l'. split; [done|].
  apply elem_of_runs. eapply elem_of_sublist; [|exact Hall].
  assert (w ∈ drop (S (index st)) (splice_in p w (queue st))) as Hin.
  { apply list_elem_of_lookup. exists (p - S (index st)).
    rewrite lookup_drop.
    replace (S (index st) + (p - S (index st))) with p by (fold p; lia).
    apply splice_in_lookup. fold p; lia. }
  rewrite K3. eapply elem_of_sublist; [exact Hin|exact K6].
Qed.

(** ** Queueing before any flush *)

Lemma pending_subset h ws x : x ∈ pending h ws -> x ∈ ws.
Proof.
  revert h. induction ws as [|w ws IH]; intros h; simpl; [done|].
  destruct (nullish (h !! w_id w)).
  - intros [->|Hx]%elem_of_cons; [left|right; eauto].
  - intros Hx. right. eauto.
Qed.

Lemma pending_fresh h ws x : x ∈ pending h ws -> nullish (h !! w_id x) = true.
Proof.
  revert h. induction ws as [|w ws IH]; intros h; simpl; [by intros ?%elem_of_nil|].
  destruct (nullish (h !! w_id w)) eqn:Hw; [|by apply IH].
  intros [->|Hx]%elem_of_cons; [done|].
  apply IH in Hx. destruct (decide (w_id w = w_id x)) as [Heq|Hne].
  - rewrite Heq, lookup_insert_eq in Hx. done.
  - by rewrite lookup_insert_ne in Hx.
Qed.

Lemma pending_NoDup h ws : NoDup (w_id <$> pending h ws).
Proof.
  revert h. induction ws as [|w ws IH]; intros h; simpl; [constructor|].
  destruct (nullish (h !! w_id w)); [|done].
  rewrite fmap_cons. constructor; [|done].
  intros (x & Hid & Hx)%list_elem_of_fmap.
  apply pending_fresh in Hx. rewrite <- Hid, lookup_insert_eq in Hx. done.
Qed.

Lemma pending_covers h ws w :
  w ∈ ws -> nullish (h !! w_id w) = true -> w_id w ∈ w_id <$> pending h ws.
Proof.
  revert h. induction ws as [|v ws IH]; intros h; simpl; [by intros ?%elem_of_nil|].
  intros Hin Hw. destruct (decide (w_id v = w_id w)) as [Heq|Hne].
  - rewrite Heq, Hw, fmap_cons, Heq. left.
  - apply elem_of_cons in Hin as [->|Hin]; [done|].
    destruct (nullish (h !! w_id v)).
    + rewrite fmap_cons. right. apply IH; [done|]. by rewrite lookup_insert_ne.
    + by apply IH.
Qed.

(** With deferred flushing, queueing only appends the watchers that pass
    the [has] filter; nothing is run. *)
Lemma queueWatchers_deferred fuel ws st :
  production (cfg E) || async (cfg E) = true ->
  flushing st = false ->
  exists st', queueWatchers fuel ws st = Some st' /\
    queue st' = queue st ++ pending (has st) ws /\
    flushing st' = false /\ runs (log st') = runs (log st) /\
    activatedChildren st' = activatedChildren st.
Proof.
  intros Hcfg. revert st. induction ws as [|w ws IH]; intros st Hfl; simpl.
  - exists st. by rewrite app_nil_r.
  - assert (negb (production (cfg E)) && negb (async (cfg E)) = false) as Hsync.
    { destruct (production (cfg E)), (async (cfg E)); done. }
    unfold queueWatcher, queueWatcher_with. rewrite Hsync.
    destruct (nullish (has st !! w_id w)); simpl; [|by apply IH].
    rewrite Hfl. simpl.
    destruct (waiting st).
    + edestruct IH as (st' & -> & Hq & ? & ? & ?); [|eexists; split; [done|]];
        [done|]. simpl in *. rewrite Hq, <- app_assoc. done.
    + edestruct IH as (st' & -> & Hq & ? & Hr & ?); [|eexists; split; [done|]];
        [done|]. simpl in *. rewrite Hq, <- app_assoc, Hr, runs_app, app_nil_r.
      done.
Qed.

(** ** A pass over watchers that make no scheduler call *)

Lemma run_entry_quiet flush w st :
  quiet E w ->
  exists st', run_entry flush w st = Some st' /\
    queue st' = queue st /\ index st' = index st /\
    activatedChildren st' = activatedChildren st /\
    has st' !! w_id w = Some MNull /\
    runs (log st') = runs (log st) ++ [w].
Proof.
  intros Hq. unfold run_entry, external.
  destruct (w_before w).
  - pose proof (Hq (world st)) as [_ Hb].
    destruct (before_hook w (world st)) as [wo1 cs1]. simpl in Hb. subst cs1.
    simpl. pose proof (Hq wo1) as [Hr _].
    destruct (run w wo1) as [wo2 cs2]. simpl in Hr. subst cs2. simpl.
    eexists. split; [done|]. simpl. rewrite lookup_insert_eq, !runs_app.
    simpl. by rewrite app_nil_r.
  - simpl. pose proof (Hq (world st)) as [Hr _].
    destruct (run w (world st)) as [wo2 cs2]. simpl in Hr. subst cs2. simpl.
    eexists. split; [done|]. simpl. rewrite lookup_insert_eq, !runs_app. done.
Qed.

Lemma flushLoop_quiet flush n st :
  (forall x, x ∈ drop (index st) (queue st) -> quiet E x) ->
  length (queue st) - index st < n ->
  exists st', flushLoop flush n st = Some st' /\
    queue st' = queue st /\
    activatedChildren st' = activatedChildren st /\
    runs (log st') = runs (log st) ++ drop (index st) (queue st).
Proof.
  revert st. induction n as [|n IH]; intros st Hq Hn; [lia|]. simpl.
  destruct (queue st !! index st) as [w|] eqn:Hcur.
  - rewrite (drop_S _ _ _ Hcur) in Hq |- *.
    pose proof (lookup_lt_Some _ _ _ Hcur).
    unfold loop_body.
    destruct (run_entry_quiet flush w st) as (st1 & -> & Q1 & Q2 & Q3 & Q4 & Q5).
    { apply Hq. left. }
    unfold circular_check. rewrite Q4. simpl. rewrite andb_false_r.
    destruct (IH (set_index (S (index st1)) st1)) as (st' & -> & R1 & R2 & R3);
      simpl.
    { rewrite Q1, Q2. intros x Hx. apply Hq. by right. }
    { rewrite Q1, Q2. lia. }
    exists st'. simpl in *. rewrite R1, R2, R3, Q1, Q2, Q3, Q5, <- app_assoc. done.
  - exists st. rewrite drop_ge, app_nil_r; [done|]. by apply lookup_ge_None.
Qed.

Lemma callActivatedHooks_runs (q : list nat) st :
  runs (log (callActivatedHooks q st)) = runs (log st).
Proof.
  revert st. induction q as [|vm q IH]; intros st; simpl; [done|].
  rewrite IH. simpl. rewrite runs_app. simpl. by rewrite app_nil_r.
Qed.

Lemma callUpdatedHooks_runs q st :
  runs (log (callUpdatedHooks q st)) = runs (log st).
Proof.
  unfold callUpdatedHooks. generalize (reverse q). clear q.
  intros q. revert st. induction q as [|w q IH]; intros st; simpl; [done|].
  rewrite IH. destruct (is_mounted_render_watcher (world st) w); [|done].
  simpl. rewrite runs_app. simpl. by rewrite app_nil_r.
Qed.

Lemma finish_flush_runs st : runs (log (finish_flush st)) = runs (log st).
Proof.
  unfold finish_flush. destruct (devtools (cfg E)); simpl;
    rewrite ?runs_app; simpl; rewrite ?app_nil_r;
    rewrite callUpdatedHooks_runs, callActivatedHooks_runs; done.
Qed.

Lemma id_le_total : Total id_le.
Proof. intros a b. unfold id_le. lia. Qed.

Lemma id_le_trans : Transitive id_le.
Proof. intros a b c. unfold id_le. lia. Qed.

(** A queue without repeated ids comes out of the sort in strictly
    ascending id order. *)
Lemma sort_queue_strict q :
  NoDup (w_id <$> q) -> StronglySorted Z.lt (w_id <$> sort_queue q).
Proof.
  intros Hnd.
  pose proof (StronglySorted_merge_sort id_le (Transitive0:=id_le_trans)
                (Total0:=id_le_total) q) as Hs.
  fold (sort_queue q) in Hs.
  assert (NoDup (w_id <$> sort_queue q)) as Hnd'.
  { assert (w_id <$> sort_queue q ≡ₚ w_id <$> q) as Hp
      by apply fmap_Permutation, merge_sort_Permutation.
    by rewrite Hp. }
  induction Hs as [|a l Hl IH Ha]; simpl; [constructor|].
  rewrite fmap_cons in Hnd'. apply NoDup_cons in Hnd' as [Hna Hnd'].
  constructor; [by apply IH|].
  apply Forall_fmap, Forall_forall. intros x Hx. simpl.
  rewrite Forall_forall in Ha. specialize (Ha x Hx). unfold id_le in Ha.
  assert (w_id a <> w_id x); [|lia].
  intros Heq. apply Hna. rewrite Heq. by apply list_elem_of_fmap_2.
Qed.

(** C2. Watchers queued before any flush begins (flushing deferred, and
    the watchers themselves queue nothing while they run) are run by
    [flushSchedulerQueue] in strictly ascending order of their ids, whatever
    the order of the [queueWatcher] calls: the ids run form a strictly
    increasing list that holds exactly the ids that were queued. *)
Theorem flush_runs_in_ascending_id_order (ws : list Watcher) (wo : World E) :
  production (cfg E) || async (cfg E) = true ->
  (forall w, w ∈ ws -> quiet E w) ->
  exists st st',
    queueWatchers (S (S (length ws))) ws (initial wo) = Some st /\
    flushing st = false /\ runs (log st) = [] /\
    flushSchedulerQueue (S (S (length ws))) st = Some st' /\
    StronglySorted Z.lt (w_id <$> runs (log st')) /\
    (forall w, w ∈ runs (log st') -> w ∈ ws) /\
    (forall w, w ∈ ws -> w_id w ∈ w_id <$> runs (log st')).
Proof.
  intros Hcfg Hquiet.
  destruct (queueWatchers_deferred (S (S (length ws))) ws (initial wo) Hcfg eq_refl)
    as (st & Hqs & Hq & Hfl & Hr & Ha). simpl in Hq, Hr.
  exists st. 
  set (st0 := set_index 0 (set_queue (sort_queue (queue st)) (set_flushing true st))).
  assert (forall x, x ∈ sort_queue (queue st) <-> x ∈ pending ∅ ws) as Hmem.
  { intros x. unfold sort_queue. rewrite merge_sort_Permutation, Hq. done. }
  destruct (flushLoop_quiet (flushSchedulerQueue (S (length ws))) (S (length ws)) st0)
    as (st1 & Hloop & L1 & L2 & L3).
  { simpl. intros x Hx. apply Hquiet. eapply pending_subset. by apply Hmem. }
  { simpl. unfold sort_queue.
    rewrite merge_sort_Permutation, Hq.
    assert (length (pending ∅ ws) <= length ws); [|lia].
    clear. generalize (∅ : gmap Z mark). induction ws as [|w ws IH]; intros h; simpl; [lia|].
    destruct (nullish (h !! w_id w)); simpl; [specialize (IH (<[w_id w:=MTrue]> h))|specialize (IH h)]; lia. }
  exists (finish_flush st1).
  split; [done|]. split; [done|]. split; [done|].
  split.
  { change (flushSchedulerQueue (S (S (length ws))) st)
      with (match flushLoop (flushSchedulerQueue (S (length ws))) (S (length ws)) st0
            with None => None | Some st' => Some (finish_flush st') end).
    by rewrite Hloop. }
  rewrite finish_flush_runs, L3. simpl. rewrite Hr. simpl.
  split; [apply sort_queue_strict; rewrite Hq; apply pending_NoDup|].
  split.
  - intros w Hw. eapply pending_subset. by apply Hmem.
  - intros w Hw.
    apply (pending_covers ∅) in Hw; [|done].
    apply list_elem_of_fmap in Hw as (x & Hid & Hx). rewrite Hid.
    apply list_elem_of_fmap_2. by apply Hmem.
Qed.

(** Without the restriction to quiet watchers: when watchers queue others
    (or themselves) while they run, the watchers that were queued before
    the flush still run in ascending id order, the newcomers in between,
    as long as the pass is not cut short by a warning. *)
Lemma queueWatchers_deferred_flags fuel ws st st' :
  production (cfg E) || async (cfg E) = true ->
  flushing st = false ->
  queueWatchers fuel ws st = Some st' ->
  warnings (log st') = warnings (log st) /\
  (waiting st = true \/ queue st = [] -> waiting st' = true \/ queue st' = []).
Proof.
  intros Hcfg. revert st. induction ws as [|w ws IH]; intros st Hfl; simpl.
  - by intros [= <-].
  - assert (negb (production (cfg E)) && negb (async (cfg E)) = false) as Hsync.
    { destruct (production (cfg E)), (async (cfg E)); done. }
    unfold queueWatcher, queueWatcher_with. rewrite Hsync.
    destruct (nullish (has st !! w_id w)); simpl; [|by apply IH].
    rewrite Hfl. simpl. destruct (waiting st) eqn:Hw.
    + intros Hq. apply IH in Hq as [-> Hq]; [|done]. simpl in *.
      split; [done|]. intros _. apply Hq. rewrite Hw. by left.
    + intros Hq. apply IH in Hq as [-> Hq]; [|done]. simpl in *.
      rewrite warnings_app. simpl. rewrite app_nil_r.
      split; [done|]. intros _. apply Hq. by left.
Qed.

Lemma callActivatedHooks_warnings (q : list nat) st :
  warnings (log (callActivatedHooks q st)) = warnings (log st).
Proof.
  revert st. induction q as [|vm q IH]; intros st; simpl; [done|].
  rewrite IH. simpl. rewrite warnings_app. simpl. by rewrite app_nil_r.
Qed.

Lemma callUpdatedHooks_warnings q st :
  warnings (log (callUpdatedHooks q st)) = warnings (log st).
Proof.
  unfold callUpdatedHooks. generalize (reverse q). clear q.
  intros q. revert st. induction q as [|w q IH]; intros st; simpl; [done|].
  rewrite IH. destruct (is_mounted_render_watcher (world st) w); [|done].
  simpl. rewrite warnings_app. simpl. by rewrite app_nil_r.
Qed.

Lemma finish_flush_warnings st :
  warnings (log (finish_flush st)) = warnings (log st).
Proof.
  unfold finish_flush. destruct (devtools (cfg E)); simpl;
    rewrite ?warnings_app; simpl; rewrite ?app_nil_r;
    rewrite callUpdatedHooks_warnings, callActivatedHooks_warnings; done.
Qed.

(** X9. Watchers may queue more watchers while they run. Whenever a
    flush over the watchers queued beforehand ends without a warning,
    every one of them has been run in it, and they have been run in
    ascending id order relative to each other (in between, watchers
    queued during the flush may have run). *)
Theorem flush_runs_queued_watchers_in_order ws (wo : World E) fuel st st' :
  production (cfg E) || async (cfg E) = true ->
  queueWatchers fuel ws (initial wo) = Some st ->
  flushSchedulerQueue fuel st = Some st' ->
  warnings (log st') = [] ->
  sort_queue (pending ∅ ws) `sublist_of` runs (log st') /\
  StronglySorted Z.lt (w_id <$> sort_queue (pending ∅ ws)).
Proof.
  intros Hcfg Hq Hflush Hwarn.
  split; [|apply sort_queue_strict, pending_NoDup].
  destruct (queueWatchers_deferred fuel ws (initial wo) Hcfg eq_refl)
    as (st0 & Hq0 & Hqueue & Hfl & Hr & _).
  rewrite Hq in Hq0. injection Hq0 as <-. simpl in Hqueue, Hr.
  destruct (queueWatchers_deferred_flags fuel ws (initial wo) st Hcfg eq_refl Hq)
    as [_ Hwait]. specialize (Hwait (or_intror eq_refl)).
  destruct fuel as [|n]; [done|]. simpl in Hflush.
  destruct (flushLoop _ n _) as [st1|] eqn:Hloop; [|done].
  injection Hflush as <-.
  rewrite finish_flush_runs. rewrite finish_flush_warnings in Hwarn.
  destruct Hwait as [Hwait|Hempty].
  - set (st0 := set_index 0 _) in Hloop.
    assert (flushing st0 = true) as Hf0 by done.
    assert (waiting st0 = true) as Hw0 by done.
    destruct (flushLoop_end _ _ _ _ Hf0 Hw0 Hloop) as [Hend|Hend].
    + destruct (flushLoop_runs_tail _ _ _ _ Hf0 Hw0 Hloop Hend)
        as (l & Hlog & Hsub).
      simpl in Hlog, Hsub. rewrite Hlog, runs_app, Hr. simpl.
      by rewrite <- Hqueue.
    + destruct Hend as (l & m & vm & Hlog). rewrite Hlog, warnings_app in Hwarn.
      by destruct (warnings l).
  - rewrite <- Hqueue, Hempty. apply sublist_nil_l.
Qed.

(** ** More fuel never changes a result *)

Lemma perform_all_mono f g cs st st' :
  extends f g -> perform_all f cs st = Some st' -> perform_all g cs st = Some st'.
Proof.
  intros Hfg. revert st. induction cs as [|c cs IH]; intros st; simpl; [done|].
  destruct (perform_with f c st) as [st1|] eqn:H1; [|done].
  assert (perform_with g c st = Some st1) as ->; [|by apply IH].
  destruct c as [w|vm]; simpl in *; [|done].
  unfold queueWatcher_with in *.
  repeat match goal with
         | H : context [if ?b then _ else _] |- _ => destruct b
         end; auto.
Qed.

Lemma run_entry_mono f g w st st' :
  extends f g -> run_entry f w st = Some st' -> run_entry g w st = Some st'.
Proof.
  intros Hfg. unfold run_entry, external.
  destruct (w_before w).
  - destruct (before_hook w (world st)) as [wo1 cs1].
    destruct (perform_all f cs1 _) as [st1|] eqn:H1; [|done].
    rewrite (perform_all_mono f g _ _ _ Hfg H1).
    destruct (run w _) as [wo2 cs2]. by apply perform_all_mono.
  - destruct (run w _) as [wo2 cs2]. by apply perform_all_mono.
Qed.

Lemma flushLoop_mono f g n m st st' :
  extends f g -> n <= m ->
  flushLoop f n st = Some st' -> flushLoop g m st = Some st'.
Proof.
  intros Hfg. revert m st. induction n as [|n IH]; intros m st Hnm; [done|].
  destruct m as [|m]; [lia|]. simpl.
  destruct (queue st !! index st) as [w|]; [|done].
  unfold loop_body.
  destruct (run_entry f w st) as [st1|] eqn:H1; [|done].
  rewrite (run_entry_mono f g _ _ _ Hfg H1).
  destruct (circular_check w st1) as [st2 []]; [done|].
  apply IH. lia.
Qed.

Lemma flushSchedulerQueue_mono n m st st' :
  n <= m ->
  flushSchedulerQueue n st = Some st' -> flushSchedulerQueue m st = Some st'.
Proof.
  revert m st st'. induction n as [|n IH]; intros m st st' Hnm; [done|].
  destruct m as [|m]; [lia|]. simpl.
  destruct (flushLoop (flushSchedulerQueue n) n _) as [st1|] eqn:H1; [|done].
  intros Hst.
  rewrite (flushLoop_mono (flushSchedulerQueue n) (flushSchedulerQueue m)
             n m _ st1); [done| |lia|exact H1].
  intros s s'. apply IH. lia.
Qed.

(** ** The circular-update check *)

(** One turn of the loop, in terms of its two halves. *)
Lemma flushLoop_turn flush fuel w st st1 :
  queue st !! index st = Some w ->
  run_entry flush w st = Some st1 ->
  flushLoop flush (S fuel) st =
    if (circular_check w st1).2
    then Some (circular_check w st1).1
    else flushLoop flush fuel
           (set_index (S (index (circular_check w st1).1)) (circular_check w st1).1).
Proof.
  intros Hcur Hrun. simpl. rewrite Hcur. unfold loop_body. rewrite Hrun.
  by destruct (circular_check w st1) as [st2 []].
Qed.


(** In the development build, once the threshold is passed. *)
Lemma circular_update_aborts flush fuel w st st1 :
  production (cfg E) = false ->
  queue st !! index st = Some w ->
  run_entry flush w st = Some st1 ->
  nullish (has st1 !! w_id w) = false ->
  MAX_UPDATE_COUNT <= default 0 (circular st1 !! w_id w) ->
  flushLoop flush (S fuel) st =
    Some (emit (EWarn (loop_message w) (w_vm w))
            (set_circular
               (<[w_id w := S (default 0 (circular st1 !! w_id w))]> (circular st1))
               st1)).
Proof.
  intros Hdev Hcur Hrun Hpend Hcount.
  rewrite (flushLoop_turn flush fuel w st st1 Hcur Hrun).
  unfold circular_check. rewrite Hpend, Hdev. simpl.
  rewrite bool_decide_eq_true_2; [done|]. unfold MAX_UPDATE_COUNT in *. lia.
Qed.

(** Below the threshold the development build only counts. *)
Lemma circular_update_counted flush fuel w st st1 :
  production (cfg E) = false ->
  queue st !! index st = Some w ->
  run_entry flush w st = Some st1 ->
  nullish (has st1 !! w_id w) = false ->
  default 0 (circular st1 !! w_id w) < MAX_UPDATE_COUNT ->
  flushLoop flush (S fuel) st =
    flushLoop flush fuel
      (set_index (S (index st1))
         (set_circular
            (<[w_id w := S (default 0 (circular st1 !! w_id w))]> (circular st1))
            st1)).
Proof.
  intros Hdev Hcur Hrun Hpend Hcount.
  rewrite (flushLoop_turn flush fuel w st st1 Hcur Hrun).
  unfold circular_check. rewrite Hpend, Hdev. simpl.
  rewrite bool_decide_eq_false_2; [done|]. unfold MAX_UPDATE_COUNT in *. lia.
Qed.

(** A watcher that has not been queued again is never counted. *)
Lemma circular_update_not_pending flush fuel w st st1 :
  queue st !! index st = Some w ->
  run_entry flush w st = Some st1 ->
  nullish (has st1 !! w_id w) = true ->
  flushLoop flush (S fuel) st = flushLoop flush fuel (set_index (S (index st1)) st1).
Proof.
  intros Hcur Hrun Hpend.
  rewrite (flushLoop_turn flush fuel w st st1 Hcur Hrun).
  unfold circular_check. rewrite Hpend. by rewrite andb_false_r.
Qed.

(** ** A watcher that queues itself again on every run *)

Lemma splice_in_drop_after p w q :
  p <= length q -> drop (S p) (splice_in p w q) = drop p q.
Proof.
  intros Hp. unfold splice_in.
  assert (length (take p q) = p) as Hl by (rewrite length_take; lia).
  rewrite drop_app_ge by lia. rewrite Hl. by replace (S p - p) with 1 by lia.
Qed.

Lemma run_entry_self flush w st :
  self_invalidating E w -> heads_tail w st ->
  exists st1, run_entry flush w st = Some st1 /\
    has st1 !! w_id w = Some MTrue /\
    circular st1 = circular st /\
    log st1 = log st ++ [ERun w] /\
    (forall c, heads_tail w (set_index (S (index st1)) (set_circular c st1))) /\
    index st1 = index st.
Proof.
  intros [Hb Hself] (F1 & F2 & Hcur & Htail).
  pose proof (lookup_lt_Some _ _ _ Hcur) as Hlt.
  unfold run_entry, external. rewrite Hb. simpl.
  specialize (Hself (world st)).
  destruct (run w (world st)) as [wo cs]. simpl in Hself. subst cs.
  simpl. unfold queueWatcher_with. simpl.
  rewrite lookup_insert_eq. simpl. rewrite F1. simpl. rewrite F2. simpl.
  rewrite scan_below; [|lia|lia|done].
  eexists. split; [done|]. simpl. rewrite lookup_insert_eq.
  repeat split; auto.
  - simpl. apply splice_in_lookup. lia.
  - simpl. rewrite splice_in_drop_after by lia. done.
Qed.

(** In the development build the pass stops after the watcher has run
    [MAX_UPDATE_COUNT + 1] times, with one warning. *)
Lemma self_invalidating_aborts flush w m st :
  production (cfg E) = false ->
  self_invalidating E w -> heads_tail w st ->
  default 0 (circular st !! w_id w) + m = MAX_UPDATE_COUNT ->
  exists st',
    (forall fuel, m < fuel -> flushLoop flush fuel st = Some st') /\
    runs (log st') = runs (log st) ++ replicate (S m) w /\
    warnings (log st') = warnings (log st) ++ [loop_message w] /\
    index st' = index st + m.
Proof.
  intros Hdev Hself. revert st. induction m as [|m IH]; intros st Hst Hk.
  - destruct (run_entry_self flush w st Hself Hst)
      as (st1 & Hrun & Hhas & Hc & Hlog & _ & Hidx).
    eexists. split.
    { intros [|fuel] Hfuel; [lia|].
      rewrite (circular_update_aborts flush fuel w st st1); try done.
      - apply Hst.
      - by rewrite Hhas.
      - rewrite Hc. lia. }
    simpl. rewrite Hlog, !runs_app, !warnings_app. simpl.
    rewrite !app_nil_r. split; [done|]. split; [done|]. lia.
  - destruct (run_entry_self flush w st Hself Hst)
      as (st1 & Hrun & Hhas & Hc & Hlog & Hnext & Hidx).
    set (c := <[w_id w := S (default 0 (circular st1 !! w_id w))]> (circular st1)).
    destruct (IH (set_index (S (index st1)) (set_circular c st1)))
      as (st' & Hloop & Hr & Hw & Hi); [apply Hnext|..].
    { simpl. unfold c. rewrite lookup_insert_eq, Hc. simpl. lia. }
    exists st'. split.
    { intros [|fuel] Hfuel; [lia|].
      rewrite (circular_update_counted flush fuel w st st1); try done.
      - apply Hloop. lia.
      - apply Hst.
      - by rewrite Hhas.
      - rewrite Hc. unfold MAX_UPDATE_COUNT in *. lia. }
    simpl in *. rewrite Hr, Hw, Hi, Hlog, !runs_app, !warnings_app. simpl.
    rewrite <- !app_assoc, ?app_nil_r. simpl. split; [done|]. split; [done|]. lia.
Qed.

(** In the production build the same pass never ends. *)
Lemma self_invalidating_diverges flush w fuel st :
  production (cfg E) = true ->
  self_invalidating E w -> heads_tail w st ->
  flushLoop flush fuel st = None.
Proof.
  intros Hprod Hself. revert st. induction fuel as [|fuel IH]; intros st Hst; [done|].
  destruct (run_entry_self flush w st Hself Hst)
    as (st1 & Hrun & Hhas & Hc & Hlog & Hnext & Hidx).
  simpl. destruct Hst as (_ & _ & -> & _). unfold loop_body. rewrite Hrun.
  unfold circular_check. rewrite Hprod. simpl.
  apply IH. specialize (Hnext (circular st1)).
  by destruct st1.
Qed.

End Props.

(** ** The statements at work *)

(** During the run of watcher 2, watcher 1 (already run, id below the
    cursor's) is queued again: it lands right behind the cursor. *)
Lemma queueWatcher_while_flushing_witness :
  exists p st1,
    queueWatcher_with (fun _ => None) (sample_watcher 1) while_watcher_2_runs
      = Some st1 /\
    index while_watcher_2_runs < p <= length (queue while_watcher_2_runs) /\
    queue st1 !! p = Some (sample_watcher 1).
Proof.
  destruct (queueWatcher_while_flushing (fun _ => None) (sample_watcher 1)
              while_watcher_2_runs)
    as (p & st1 & H1 & _ & H2 & H3 & _).
  - unfold in_flush. simpl. repeat split; lia.
  - reflexivity.
  - exists p, st1. auto.
Defined.

(** C1 as stated fails: watchers 3, 1, 2 are queued and flushed; watcher 2
    queues watcher 1 again while it runs (and watcher 5). Watcher 1 is not
    put off to the next pass: it runs a second time in this very pass,
    right after watcher 2 and before watcher 3, and the queue is empty
    when the pass is over. *)
Lemma requeued_smaller_id_runs_in_same_pass :
  exists st st',
    queueWatchers 0 [sample_watcher 3; sample_watcher 1; sample_watcher 2]
      (initial (E:=reentrant_env) tt) = Some st /\
    flushSchedulerQueue 7 st = Some st' /\
    w_id <$> runs (log st') = [1; 2; 1; 3; 5]%Z /\
    queue st' = [] /\
    queue <$> queueWatcher_with (fun _ => None) (sample_watcher 1)
                while_watcher_2_runs
      = Some [sample_watcher 1; sample_watcher 2;
              sample_watcher 1; sample_watcher 3].
Proof.
  eexists. eexists. split; [vm_compute; reflexivity|].
  split; [vm_compute; reflexivity|]. repeat split.
Qed.

(** Queued as 3, 1, 2 and run as 1, 2, 3. *)
Lemma flush_runs_in_ascending_id_order_witness :
  exists st st',
    queueWatchers 5 [sample_watcher 3; sample_watcher 1; sample_watcher 2]
      (initial (E:=quiet_env development) tt) = Some st /\
    flushing st = false /\ runs (log st) = [] /\
    flushSchedulerQueue 5 st = Some st' /\
    StronglySorted Z.lt (w_id <$> runs (log st')) /\
    (forall w, w ∈ runs (log st') ->
               w ∈ [sample_watcher 3; sample_watcher 1; sample_watcher 2]) /\
    (forall w, w ∈ [sample_watcher 3; sample_watcher 1; sample_watcher 2] ->
               w_id w ∈ w_id <$> runs (log st')).
Proof.
  apply (flush_runs_in_ascending_id_order (E:=quiet_env development)
           [sample_watcher 3; sample_watcher 1; sample_watcher 2] tt).
  - reflexivity.
  - intros w _ wo. split; reflexivity.
Defined.

Example flush_3_1_2_runs_1_2_3 :
  (st ← queueWatchers 5 [sample_watcher 3; sample_watcher 1; sample_watcher 2]
          (initial (E:=quiet_env development) tt);
   st' ← flushSchedulerQueue 5 st;
   Some (runs (log st')))
  = Some [sample_watcher 1; sample_watcher 2; sample_watcher 3].
Proof. vm_compute. reflexivity. Qed.


(** From a fresh pass over watchers 1 and 2: in the development build
    watcher 1 runs 101 times, one warning is logged, and watcher 2, which
    was waiting behind it, is never run; in the production build the pass
    has no end. *)
Example self_queueing_watcher_development :
  (st ← queueWatchers 0 [sample_watcher 2; sample_watcher 1]
          (initial (E:=looping_env development) tt);
   st' ← flushSchedulerQueue 102 st;
   Some (runs (log st'), warnings (log st'), queue st'))
  = Some (replicate 101 (sample_watcher 1),
          ["You may have an infinite update loop in a component render function."],
          []).
Proof. vm_compute. reflexivity. Qed.

(** The check only counts a watcher that is pending again right after its
    own run. Two watchers that queue each other are never counted: here
    watcher 1 runs 151 times in one pass of the development build, and the
    pass ends without a warning. *)
Example mutual_requeueing_is_not_counted :
  (st ← queueWatcher 0 (sample_watcher 1) (initial (E:=ping_pong_env development) 300);
   st' ← flushSchedulerQueue 400 st;
   Some (length (filter (fun w => w_id w = 1%Z) (runs (log st'))),
         length (runs (log st')), warnings (log st')))
  = Some (151, 301, []).
Proof. vm_compute. reflexivity. Qed.

Lemma self_queueing_watcher_production fuel st :
  queueWatcher 0 (sample_watcher 1)
    (initial (E:=looping_env production_build) tt) = Some st ->
  flushSchedulerQueue fuel st = None.
Proof.
  intros [= <-]. destruct fuel as [|fuel]; [done|].
  cbn [flushSchedulerQueue].
  rewrite (self_invalidating_diverges (E:=looping_env production_build)
             _ (sample_watcher 1)); [done|done|done|].
  repeat split. intros x Hx. by apply elem_of_nil in Hx.
Qed.

End SchedulerProps.

(* ===================================================================== *)
(** * Properties of the dependency class *)
(* ===================================================================== *)
Module DepProps.
Import Store Dep.

Section Props.

Context {E : Env}.
Implicit Types (st : State (World E)) (w : Watcher) (l : list Watcher).

Lemma for_each_call_update l st :
  for_each call_update l st =
    Ret tt (foldl (fun s w => update w s) st l) (EUpdate <$> l).
Proof.
  revert st. induction l as [|w l IH]; intros st; simpl; [done|].
  unfold bind at 1. unfold call_update at 1. by rewrite IH.
Qed.

(** C7. [notify] calls [update] on exactly the subscribers that are in the
    list when it is entered, in list order, whatever those calls do to
    the state (the subscriber lists included): the calls made are
    [EUpdate] for each entry of the list found at entry, and the final
    state is the one obtained by running these calls in that order. *)
Theorem notify_runs_snapshot d l st :
  subs st !! d = Some l ->
  notify d st =
    Ret tt (foldl (fun s w => update w s) st l) (ENotify d :: (EUpdate <$> l)).
Proof.
  intros Hl. unfold notify. rewrite Hl. simpl.
  unfold bind, emit. by rewrite for_each_call_update.
Qed.

(** ** The active watcher and its stack *)

Lemma activation_disciplined (t : option Watcher) l :
  activation E t l -> t = None -> l = [].
Proof.
  induction 1 as [|w st _ _|st _ IH]; [done|done|].
  simpl. intros Hlast.
  destruct (targetStack st) as [|x s] eqn:Hs; [done|].
  rewrite last_None in Hlast. done.
Qed.

Lemma popTarget_pushTarget w st :
  (target st = None -> targetStack st = []) ->
  popTarget (pushTarget w st) = st.
Proof.
  intros Hinv. destruct st as [h o c s u t ts sc out]. simpl in *.
  unfold popTarget, pushTarget. simpl. destruct t as [t|]; simpl.
  - rewrite last_snoc, removelast_last. done.
  - rewrite (Hinv eq_refl). done.
Qed.

(** C9. After [pushTarget(w)] the active watcher is [w], and the next
    [popTarget()] puts back the one that was active before, together with
    the rest of the state: the pair is a round trip. *)
Theorem pushTarget_popTarget_round_trip w st :
  activation E (target st) (targetStack st) ->
  target (pushTarget w st) = Some w /\ popTarget (pushTarget w st) = st.
Proof.
  intros Hact. split; [done|].
  apply popTarget_pushTarget. by apply activation_disciplined.
Qed.

(** X10. Activations nested to any depth unwind: after [pushTarget] for
    each watcher of a list, as many calls of [popTarget] lead back to the
    state the activations started from, the watcher that was active then
    and the stack included. *)
Theorem nested_activations_unwind l st :
  activation E (target st) (targetStack st) ->
  Nat.iter (length l) popTarget (foldl (fun s w => pushTarget w s) st l) = st.
Proof.
  revert st. induction l as [|w l IH] using rev_ind; intros st Hact; [done|].
  rewrite foldl_app, length_app. cbn [foldl length].
  replace (length l + 1) with (S (length l)) by lia. rewrite Nat.iter_succ_r.
  assert (activation E (target (foldl (fun s w => pushTarget w s) st l))
            (targetStack (foldl (fun s w => pushTarget w s) st l))) as Hact'.
  { clear IH. induction l as [|v l IHl] using rev_ind; [done|].
    rewrite foldl_app. cbn [foldl]. by apply activation_push. }
  rewrite popTarget_pushTarget by by apply activation_disciplined.
  by apply IH.
Qed.

(** X11. A watcher subscribed with [addSub] goes to the end of the
    subscriber list: the next [notify] updates the earlier subscribers
    first and the new one last. *)
Theorem addSub_then_notify d l w st :
  subs st !! d = Some l ->
  notify d (addSub d w st) =
    Ret tt (foldl (fun s w => update w s) (addSub d w st) (l ++ [w]))
        (ENotify d :: (EUpdate <$> l ++ [w])).
Proof.
  intros Hl. unfold notify, addSub. simpl. rewrite lookup_alter_eq, Hl. simpl.
  unfold bind, emit. by rewrite for_each_call_update.
Qed.

End Props.

(** ** The statements at work *)

Import Samples.

(** Every [update] empties the subscriber list, and still the three
    subscribers found at entry are all called, in order. *)
Lemma notify_runs_snapshot_witness :
  notify 0 three_subscribers =
    Ret tt (set_subs (<[0 := []]> ∅) three_subscribers)
        [ENotify 0; EUpdate (Scheduler.sample_watcher 1);
         EUpdate (Scheduler.sample_watcher 2);
         EUpdate (Scheduler.sample_watcher 3)].
Proof.
  rewrite (notify_runs_snapshot (E:=unsubscribing_env) 0
             [Scheduler.sample_watcher 1; Scheduler.sample_watcher 2;
              Scheduler.sample_watcher 3] three_subscribers).
  - reflexivity.
  - reflexivity.
Defined.

(** Watcher 2 is activated while watcher 1 is active, and popped again. *)
Lemma pushTarget_popTarget_round_trip_witness :
  let st := pushTarget (Scheduler.sample_watcher 1) (sample_state false) in
  target (pushTarget (Scheduler.sample_watcher 2) st)
    = Some (Scheduler.sample_watcher 2) /\
  popTarget (pushTarget (Scheduler.sample_watcher 2) st) = st.
Proof.
  apply (pushTarget_popTarget_round_trip (E:=still_env false)
           (Scheduler.sample_watcher 2)
           (pushTarget (Scheduler.sample_watcher 1) (sample_state false))).
  apply (activation_push (E:=still_env false) (Scheduler.sample_watcher 1)
           (sample_state false)).
  apply activation_loaded.
Defined.


(** Watchers 2 and 3 are activated inside the evaluation of watcher 1. *)
Lemma nested_activations_unwind_witness :
  let st := pushTarget (Scheduler.sample_watcher 1) (sample_state false) in
  popTarget
    (popTarget
       (pushTarget (Scheduler.sample_watcher 3)
          (pushTarget (Scheduler.sample_watcher 2) st))) = st.
Proof.
  apply (nested_activations_unwind (E:=still_env false)
           [Scheduler.sample_watcher 2; Scheduler.sample_watcher 3]
           (pushTarget (Scheduler.sample_watcher 1) (sample_state false))).
  apply (activation_push (E:=still_env false) (Scheduler.sample_watcher 1)
           (sample_state false)).
  apply activation_loaded.
Defined.

(** Watcher 4 joins the three subscribers of dependency 0. *)
Lemma addSub_then_notify_witness :
  exists st',
    notify 0 (addSub 0 (Scheduler.sample_watcher 4) three_subscribers)
      = Ret tt st'
          [ENotify 0; EUpdate (Scheduler.sample_watcher 1);
           EUpdate (Scheduler.sample_watcher 2);
           EUpdate (Scheduler.sample_watcher 3);
           EUpdate (Scheduler.sample_watcher 4)].
Proof.
  eexists.
  apply (addSub_then_notify (E:=unsubscribing_env) 0
           [Scheduler.sample_watcher 1; Scheduler.sample_watcher 2;
            Scheduler.sample_watcher 3] (Scheduler.sample_watcher 4)
           three_subscribers).
  reflexivity.
Defined.

End DepProps.

(* ===================================================================== *)
(** * Properties of the observer *)
(* ===================================================================== *)
Module ObserverProps.
Import Store Dep Observer.

Section Props.

Context {E : Env}.
Implicit Types (st : State (World E)) (o : obj) (v : value) (self : Self (E:=E)).

(** ** Strict equality *)

Lemma SFeqb_refl x : x <> S754_nan -> SFeqb x x = true.
Proof.
  intros Hx. destruct x as [s|s| |s m e]; try done; unfold SFeqb; simpl.
  - by destruct s.
  - rewrite Z.compare_refl, Pos.compare_cont_refl. by destruct s.
Qed.

(** Only [NaN] differs from itself. *)
Lemma not_equal_to_itself v :
  strict_not_equal v v = true <-> v = VNumber S754_nan.
Proof.
  unfold strict_not_equal. split.
  - destruct v; simpl; try (by rewrite bool_decide_eq_true_2); try done.
    destruct (decide (x = S754_nan)) as [->|Hx]; [done|].
    by rewrite SFeqb_refl.
  - by intros ->.
Qed.

(** ** [observe] on a value that has an observer *)

(** C4. On an object that carries an observer (and is no [VNode]),
    [observe] returns that observer without building anything: the heap
    and the set of observers stay as they are (only [vmCount] is raised
    when the call is for root data), and any further call returns the same
    observer again. *)
Theorem observe_existing_observer fuel l o r asRootData st :
  heap st !! l = Some o ->
  o_kind o <> KVNode ->
  o_ob o = Some r ->
  exists st',
    observe fuel (VObject l) asRootData st = Ret (Some r) st' [] /\
    st' = (if asRootData then increment_vmCount r st else st) /\
    heap st' = heap st /\
    dom (observers st') = dom (observers st) /\
    forall fuel' asRootData', exists st'',
      observe fuel' (VObject l) asRootData' st' = Ret (Some r) st'' [].
Proof.
  intros Hl Hk Hob.
  assert (forall fuel' b st0, heap st0 = heap st ->
    observe fuel' (VObject l) b st0 =
      Ret (Some r) (if b then increment_vmCount r st0 else st0) []) as Hcall.
  { intros fuel' b st0 Hh. unfold observe, observe_with.
    unfold bind at 1. unfold lookup_obj. rewrite Hh, Hl.
    rewrite bool_decide_eq_false_2 by done. rewrite Hob.
    unfold bind at 1. unfold ret at 1. by destruct b. }
  eexists. split; [by apply Hcall|]. split; [done|].
  assert (heap (if asRootData then increment_vmCount r st else st) = heap st) as Hh
    by by destruct asRootData.
  split; [done|]. split.
  - destruct asRootData; [|done]. simpl. apply dom_alter_L.
  - intros fuel' b. eexists. by apply Hcall.
Qed.

(** ** [observe] on a value it gives up on *)

(** C8 (as amended). [observe] returns nothing, builds nothing and fails
    in no way on a value that is not an object or is a [VNode], and on an
    object without an observer of its own that is neither record-like nor
    an array, is not extensible, is a framework instance, or is met while
    conversion is switched off. (An object that already has an observer
    gets that observer back in all of the latter cases.) *)
Theorem observe_declines fuel v asRootData st :
  declined st v ->
  observe fuel v asRootData st = Ret None st [].
Proof.
  intros Hd. unfold observe, observe_with.
  destruct v as [| | | | | |l]; try done.
  destruct Hd as (o & Hl & Hcase).
  unfold bind at 1. unfold lookup_obj. rewrite Hl.
  destruct Hcase as [Hk|(Hob & Hcase)].
  - by rewrite bool_decide_eq_true_2.
  - case_bool_decide; [done|]. rewrite Hob.
    unfold bind at 1. unfold bind at 1. unfold get_state.
    assert (shouldConvert st && negb (isServerRendering E)
            && (isArray o || isPlainObject o) && o_extensible o
            && negb (o_isVue o) = false) as ->; [|done].
    destruct Hcase as [Hk|[He|[Hv|[Hs|Hs]]]].
    + unfold isArray, isPlainObject. rewrite Hk. simpl.
      by rewrite andb_false_r.
    + rewrite He. by rewrite andb_false_r.
    + rewrite Hv. by rewrite andb_false_r.
    + by rewrite Hs.
    + rewrite Hs. by rewrite andb_false_r.
Qed.

(** ** Root state *)

Lemma is_root_counted o r ob st :
  o_ob o = Some r -> observers st !! r = Some ob -> 0 < ob_vmCount ob ->
  is_root o st = Ret true st [].
Proof.
  intros Hob Hr Hc. unfold is_root. destruct (o_isVue o); [done|].
  rewrite Hob. unfold bind, lookup_observer. rewrite Hr. simpl.
  by rewrite bool_decide_eq_true_2.
Qed.


(** The two warnings are different texts. *)
Lemma set_and_del_messages_differ : set_message <> del_message.
Proof. done. Qed.

(** ** What the computations emit *)

Section Emits.

Variable P : event -> Prop.

Lemma eo_ret {A} (a : A) : emits_only (E:=E) P (ret a).
Proof. intros st. constructor. Qed.

Lemma eo_bind {A B} (m : M E A) (k : A -> M E B) :
  emits_only P m -> (forall a, emits_only P (k a)) -> emits_only P (bind m k).
Proof.
  intros Hm Hk st. unfold bind. specialize (Hm st).
  destruct (m st) as [a st1 e1|msg st1 e1| |]; simpl in *; try done.
  specialize (Hk a st1).
  destruct (k a st1) as [b st2 e2|msg st2 e2| |]; simpl in *; try done;
    by apply Forall_app.
Qed.

Lemma eo_modify f : emits_only (E:=E) P (modify f).
Proof. intros st. constructor. Qed.

Lemma eo_get_state : emits_only (E:=E) P get_state.
Proof. intros st. constructor. Qed.

Lemma eo_throw {A} msg : emits_only (E:=E) (A:=A) P (throw msg).
Proof. intros st. constructor. Qed.

Lemma eo_beyond {A} : emits_only (E:=E) (A:=A) P beyond.
Proof. by intros st. Qed.

Lemma eo_no_fuel {A} : emits_only (E:=E) (A:=A) P no_fuel.
Proof. by intros st. Qed.

Lemma eo_for_each {A} (f : A -> M E unit) l :
  (forall x, emits_only P (f x)) -> emits_only P (for_each f l).
Proof.
  intros Hf. induction l as [|x l IH]; simpl; [apply eo_ret|].
  apply eo_bind; auto.
Qed.

Lemma eo_lookup_obj l : emits_only (E:=E) P (lookup_obj l).
Proof.
  intros st. unfold lookup_obj. destruct (heap st !! l); [constructor|done].
Qed.

Lemma eo_lookup_observer r : emits_only (E:=E) P (lookup_observer r).
Proof.
  intros st. unfold lookup_observer.
  destruct (observers st !! r); [constructor|done].
Qed.

Lemma eo_lookup_cell c : emits_only (E:=E) P (lookup_cell c).
Proof.
  intros st. unfold lookup_cell. destruct (cells st !! c); [constructor|done].
Qed.

Lemma eo_new_Dep : emits_only (E:=E) P new_Dep.
Proof. intros st. constructor. Qed.

Lemma eo_alloc_cell cl : emits_only (E:=E) P (alloc_cell cl).
Proof. intros st. constructor. Qed.

Lemma eo_alloc_observer ob : emits_only (E:=E) P (alloc_observer ob).
Proof. intros st. constructor. Qed.

Lemma eo_call_user_get f this :
  emits_only (E:=E) P
    (fun st => let '(v, st') := user_get f this st in Ret v st' []).
Proof. intros st. destruct (user_get f this st). constructor. Qed.

(** The events that may occur: registrations always, the others only in
    the lemmas that say so. *)
Hypothesis P_addDep : forall w d, P (EAddDep w d).
Hypothesis P_notify : forall d, P (ENotify d).
Hypothesis P_update : forall w, P (EUpdate w).
Hypothesis P_custom : forall f, P (ECustomSetter f).

Lemma eo_depend d : emits_only (E:=E) P (depend d).
Proof.
  intros st. unfold depend. destruct (target st); simpl; [|constructor].
  by repeat constructor.
Qed.

Lemma eo_notify d : emits_only (E:=E) P (notify d).
Proof.
  intros st. unfold notify.
  apply (eo_bind (emit (ENotify d)) (fun _ => for_each call_update _)).
  - intros st'. simpl. by repeat constructor.
  - intros _. apply eo_for_each. intros w st'. simpl. by repeat constructor.
Qed.

Lemma eo_emit_custom f : emits_only (E:=E) P (emit (ECustomSetter f)).
Proof. intros st. simpl. by repeat constructor. Qed.

Create HintDb eo discriminated.

#[local] Hint Resolve eo_ret eo_modify eo_get_state eo_throw eo_beyond
  eo_no_fuel eo_lookup_obj eo_lookup_observer eo_lookup_cell eo_new_Dep
  eo_alloc_cell eo_alloc_observer eo_depend eo_notify eo_emit_custom
  eo_call_user_get : eo.

(** One step of a structural proof: a known computation, or else a case
    split or a sequencing step. *)
Ltac eo_step :=
  first
    [ solve [auto 1 with eo nocore]
    | match goal with
      | |- emits_only _ (match ?x with _ => _ end) => destruct x
      | |- emits_only _ (let '(_, _) := ?x in _) => destruct x
      | |- emits_only _ (bind _ _) => apply eo_bind; [|intros ?]
      | |- emits_only _ (for_each _ _) => apply eo_for_each; intros ?
      end
    | progress cbv zeta ].

Ltac eo := repeat eo_step.

Lemma eo_store_property l o k p : emits_only (E:=E) P (store_property l o k p).
Proof. unfold store_property, store_obj. eo. Qed.

#[local] Hint Resolve eo_store_property : eo.

Lemma eo_defineProperty l k p : emits_only (E:=E) P (defineProperty l k p).
Proof. unfold defineProperty. eo. Qed.

Lemma eo_def_ob l r : emits_only (E:=E) P (def_ob l r).
Proof. unfold def_ob, store_obj. eo. Qed.

Lemma eo_write_elems l new : emits_only (E:=E) P (write_elems l new).
Proof. unfold write_elems, store_obj. eo. Qed.

Lemma eo_extend_length l n : emits_only (E:=E) P (extend_length l n).
Proof. unfold extend_length, store_obj. eo. Qed.

Lemma eo_protoAugment l : emits_only (E:=E) P (protoAugment l).
Proof. unfold protoAugment, store_obj. eo. Qed.

#[local] Hint Resolve eo_defineProperty eo_def_ob eo_write_elems
  eo_extend_length eo_protoAugment : eo.

Lemma eo_copyAugment l : emits_only (E:=E) P (copyAugment l).
Proof. unfold copyAugment, def, store_obj. eo. Qed.

#[local] Hint Resolve eo_copyAugment : eo.

(** The bodies, given what the recursive calls emit. *)
Variable self : Self (E:=E).
Hypothesis self_observe_eo : forall v b, emits_only P (self_observe self v b).
Hypothesis self_get_eo : forall a l, emits_only P (self_get self a l).
Hypothesis self_set_eo : forall a l v, emits_only P (self_set self a l v).
Hypothesis self_dependArray_eo : forall l, emits_only P (self_dependArray self l).

#[local] Hint Resolve self_observe_eo self_get_eo self_set_eo
  self_dependArray_eo : eo.

Lemma eo_get_property l k : emits_only P (get_property self l k).
Proof. unfold get_property. eo. Qed.

Lemma eo_put_property l k v : emits_only P (put_property self l k v).
Proof. unfold put_property. eo. Qed.

Lemma eo_observeArray l : emits_only P (observeArray self l).
Proof. unfold observeArray. eo. Qed.

Lemma eo_observeArray_fresh items : emits_only P (observeArray_fresh self items).
Proof. unfold observeArray_fresh. eo. Qed.

Lemma eo_defineReactive obj k val custom shallow :
  emits_only P (defineReactive_with self obj k val custom shallow).
Proof. unfold defineReactive_with. eo. Qed.

Lemma eo_read_current cl : emits_only P (read_current self cl).
Proof. unfold read_current. eo. Qed.

Lemma eo_dependArray l : emits_only P (dependArray_with self l).
Proof. unfold dependArray_with. eo. Qed.

#[local] Hint Resolve eo_get_property eo_put_property eo_observeArray
  eo_observeArray_fresh eo_defineReactive eo_read_current eo_dependArray : eo.

Lemma eo_reactiveGetter c : emits_only P (reactiveGetter self c).
Proof. unfold reactiveGetter. eo. Qed.

Lemma eo_reactiveSetter c v : emits_only P (reactiveSetter self c v).
Proof. unfold reactiveSetter. eo. Qed.

Lemma eo_walk l : emits_only P (walk self l).
Proof. unfold walk. eo. Qed.

#[local] Hint Resolve eo_reactiveGetter eo_reactiveSetter eo_walk : eo.

Lemma eo_new_Observer l : emits_only P (new_Observer self l).
Proof. unfold new_Observer. eo. Qed.

#[local] Hint Resolve eo_new_Observer : eo.

Lemma eo_observe v b : emits_only P (observe_with self v b).
Proof. unfold observe_with. eo. Qed.

Lemma eo_call_get a l : emits_only P (call_get self a l).
Proof. unfold call_get. eo. Qed.

Lemma eo_call_set a l v : emits_only P (call_set self a l v).
Proof. unfold call_set. eo. Qed.

Lemma eo_intercepted o items : emits_only P (intercepted self o items).
Proof. unfold intercepted. eo. Qed.

#[local] Hint Resolve eo_intercepted : eo.

Lemma eo_splice l start n items : emits_only P (splice self l start n items).
Proof. unfold splice. eo. Qed.

End Emits.

(** Nothing that [observe], the accessors and [dependArray] do emits a
    warning. *)
Lemma tie_never_warns fuel :
  (forall v b, emits_only not_a_warning (self_observe (tie (E:=E) fuel) v b)) /\
  (forall a l, emits_only not_a_warning (self_get (tie (E:=E) fuel) a l)) /\
  (forall a l v, emits_only not_a_warning (self_set (tie (E:=E) fuel) a l v)) /\
  (forall l, emits_only not_a_warning (self_dependArray (tie (E:=E) fuel) l)).
Proof.
  induction fuel as [|n (IH1 & IH2 & IH3 & IH4)]; simpl.
  - repeat split; intros; apply eo_no_fuel.
  - repeat split; intros.
    + by apply eo_observe.
    + by apply eo_call_get.
    + by apply eo_call_set.
    + by apply eo_dependArray.
Qed.

(** Reading a property, however many getters are stacked on it, only
    registers dependencies. *)
Lemma tie_reads_register fuel :
  (forall a l, emits_only a_registration (self_get (tie (E:=E) fuel) a l)) /\
  (forall l, emits_only a_registration (self_dependArray (tie (E:=E) fuel) l)).
Proof.
  induction fuel as [|n (IH1 & IH2)]; simpl.
  - split; intros; apply eo_no_fuel.
  - split; intros.
    + by apply eo_call_get.
    + by apply eo_dependArray.
Qed.

(** ** Assignment of an unchanged value *)

Lemma reactiveSetter_unchanged self c cl newVal value st st1 evs :
  cells st !! c = Some cl ->
  read_current self cl st = Ret value st1 evs ->
  strict_equal newVal value = true \/
    (strict_not_equal newVal newVal = true /\ strict_not_equal value value = true) ->
  reactiveSetter self c newVal st = Ret tt st1 evs.
Proof.
  intros Hc Hread Hsame. unfold reactiveSetter.
  unfold bind at 1. unfold lookup_cell. rewrite Hc.
  unfold bind at 1. rewrite Hread.
  assert (strict_equal newVal value
          || strict_not_equal newVal newVal && strict_not_equal value value = true)
    as ->.
  { destruct Hsame as [->|[-> ->]]; [done|]. by rewrite orb_true_r. }
  simpl. by rewrite app_nil_r.
Qed.

(** C3. A field that [defineReactive] has made reactive (its setter is the
    one over cell [c]) is assigned a value that is strictly equal to the
    current one, or unequal to itself while the current one is unequal to
    itself too. Then the assignment does nothing beyond reading the
    current value: the dependency is not notified and the cell is not
    written; the state and the events are those of the read, which can
    only register dependencies. Without an earlier getter on the property
    nothing at all happens, so the stored value and the child observer
    stay as they were. *)
Theorem assign_unchanged_value fuel l k o g e cf c cl newVal value st st1 evs :
  heap st !! l = Some o ->
  own_property o k = Some (PAccessor g (Some (Reactive c)) e cf) ->
  cells st !! c = Some cl ->
  read_current (tie fuel) cl st = Ret value st1 evs ->
  strict_equal newVal value = true \/
    (strict_not_equal newVal newVal = true /\ strict_not_equal value value = true) ->
  assign (S fuel) l k newVal st = Ret tt st1 evs /\
  Forall a_registration evs /\
  (c_getter cl = None -> value = c_val cl /\ st1 = st /\ evs = []).
Proof.
  intros Hl Hk Hc Hread Hsame. split; [|split].
  - unfold assign, put_property. unfold bind at 1. unfold lookup_obj.
    rewrite Hl, Hk. simpl.
    by rewrite (reactiveSetter_unchanged _ _ _ _ _ _ _ _ Hc Hread Hsame).
  - destruct (tie_reads_register fuel) as [Hget _].
    pose proof (eo_read_current a_registration (tie fuel) Hget cl st) as Hev.
    by rewrite Hread in Hev.
  - intros Hg. unfold read_current in Hread. rewrite Hg in Hread.
    by injection Hread as -> -> ->.
Qed.

(** What [defineReactive] leaves behind when it returns: either the
    property was not configurable and is left alone, or the property is
    now the accessor pair over a new cell that holds [val]. *)
Lemma defineReactive_installs self obj k val custom shallow st st' evs :
  defineReactive_with self obj k val custom shallow st = Ret tt st' evs ->
  (exists o p, heap st !! obj = Some o /\ own_property o k = Some p /\
               configurable p = false) \/
  (exists c o' cl,
     heap st' !! obj = Some o' /\
     own_property o' k
       = Some (PAccessor (Some (Reactive c)) (Some (Reactive c)) true true) /\
     cells st' !! c = Some cl /\
     c_val cl = val /\ c_obj cl = obj /\ c_key cl = k /\
     c_customSetter cl = custom /\ c_shallow cl = shallow).
Proof.
  unfold defineReactive_with. unfold bind at 1. simpl.
  unfold bind at 1. unfold lookup_obj at 1. simpl.
  destruct (heap st !! obj) as [o|] eqn:Hobj; [|done].
  case_bool_decide as Hconf.
  { intros _. left. destruct (own_property o k) as [p|] eqn:Hp; [|done].
    exists o, p. simpl in Hconf. by injection Hconf as ->. }
  clear Hconf. intros Hrun. right.
  set (st0 := set_subs _ _) in Hrun.
  unfold bind at 1 in Hrun.
  destruct ((if shallow then ret None else self_observe self val false) st0)
    as [childOb st1 e1| | |] eqn:Hobs; [|done..].
  unfold bind at 1 in Hrun. unfold alloc_cell at 1 in Hrun.
  set (c := fresh (dom (cells st1))) in Hrun.
  set (cl := mkCell obj k val childOb _ _ _ custom shallow) in Hrun.
  set (st2 := set_cells _ st1) in Hrun.
  unfold defineProperty, bind, lookup_obj in Hrun.
  destruct (heap st2 !! obj) as [o2|] eqn:Hobj2; [|done].
  set (p := PAccessor _ _ _ _) in Hrun.
  assert (forall st3 e3, store_property obj o2 k p st2 = Ret tt st3 e3 ->
          exists o', heap st3 !! obj = Some o' /\ own_property o' k = Some p /\
                     cells st3 = cells st2) as Hstore.
  { intros st3 e3. unfold store_property, own_property, p.
    destruct (o_kind o2) eqn:Hkind, k as [i|s];
      simpl; unfold store_obj, modify, beyond; intros [= <- <-]; simpl;
      eexists; rewrite lookup_insert_eq; (split; [done|]); simpl;
      rewrite Hkind, lookup_insert_eq; done. }
  assert (exists e3, store_property obj o2 k p st2 = Ret tt st' e3) as [e3 Hs].
  { destruct (own_property o2 k) as [old|].
    - destruct (configurable old); [|done].
      destruct (store_property obj o2 k p st2) as [[] ? e3| | |]; [|done..].
      injection Hrun as <- _. eauto.
    - destruct (o_extensible o2); [|done].
      destruct (store_property obj o2 k p st2) as [[] ? e3| | |]; [|done..].
      injection Hrun as <- _. eauto. }
  apply Hstore in Hs as (o' & Ho' & Hp & Hcells).
  exists c, o', cl. rewrite Hcells. simpl. rewrite lookup_insert_eq. done.
Qed.

(** ** Arrays addressed by index *)


End Props.

(** ** The statements at work *)

Import Samples.

(** The field [a] of the observed record holds [NaN]; assigning [NaN]
    again changes nothing and emits nothing. *)
Lemma assign_unchanged_value_witness :
  assign 1 0 (KName "a") NaN (root_record false)
    = Ret tt (root_record false) [].
Proof.
  edestruct (assign_unchanged_value (E:=still_env false) 0 0 (KName "a"))
    as (H & _ & _); [..|exact H].
  - reflexivity.
  - reflexivity.
  - reflexivity.
  - reflexivity.
  - right. split; reflexivity.
Defined.

(** Assigning another value does notify. *)
Example assign_other_value_notifies :
  exists st, assign 2 0 (KName "a") one (root_record false)
             = Ret tt st [ENotify 1].
Proof. eexists. vm_compute. reflexivity. Qed.

(** A second [observe] of the observed record. *)
Lemma observe_existing_observer_witness :
  observe 0 (VObject 0) false (root_record false)
    = Ret (Some 0) (root_record false) [].
Proof.
  edestruct (observe_existing_observer (E:=still_env false) 0 0)
    as (st' & H & -> & _); [..|exact H].
  - reflexivity.
  - discriminate.
  - reflexivity.
Defined.

(** Two calls in a row on a record that has no observer yet: the first
    builds one, the second returns it. *)
Example observe_twice_same_observer :
  exists st,
    bind (observe 2 (VObject 0) false) (fun first =>
    bind (observe 2 (VObject 0) false) (fun second =>
    ret (first, second))) (sample_state false)
    = Ret (Some 0, Some 0) st [] /\
    dom (observers st) = {[0]}.
Proof. eexists. split; vm_compute; reflexivity. Qed.

(** Object 2 has no observer and is not extensible. *)
Lemma observe_declines_witness :
  observe 5 (VObject 2) true (sample_state false)
    = Ret None (sample_state false) [].
Proof.
  apply (observe_declines (E:=still_env false) 5 (VObject 2) true
           (sample_state false)).
  eexists. split; [reflexivity|]. right. split; [reflexivity|].
  right. left. reflexivity.
Defined.

(** C8 as stated fails: the record of [frozen_record] is not extensible
    and conversion is switched off, and yet [observe] returns something:
    the observer the record already has. *)
Lemma observe_returns_existing_observer_when_frozen :
  shouldConvert frozen_record = false /\
  o_extensible <$> heap frozen_record !! 0 = Some false /\
  observe 5 (VObject 0) false frozen_record = Ret (Some 0) frozen_record [].
Proof. repeat split; vm_compute; reflexivity. Qed.




End ObserverProps.

(* ===================================================================== *)
(** * The scheduler from queueing to the hooks *)
(* ===================================================================== *)
Module SchedulerLaws.
Import Scheduler SchedulerProps.

Section Laws.

Context {E : Env}.
Implicit Types (st : Sched E) (w x : Watcher) (q : list Watcher).
Implicit Types (flush : Sched E -> option (Sched E)).

(** ** Queueing *)

Lemma pending_sublist h ws : pending h ws `sublist_of` ws.
Proof.
  revert h. induction ws as [|w ws IH]; intros h; simpl; [constructor|].
  destruct (nullish (h !! w_id w)).
  - by apply sublist_skip.
  - by apply sublist_cons.
Qed.

Lemma deferred_not_sync :
  deferred E -> negb (production (cfg E)) && negb (async (cfg E)) = false.
Proof. unfold deferred. destruct (production (cfg E)), (async (cfg E)); done. Qed.

Lemma queueWatchers_deferred_log fuel ws st :
  deferred E ->
  flushing st = false ->
  exists st', queueWatchers fuel ws st = Some st' /\
    log st' = log st ++
      (if waiting st then []
       else match pending (has st) ws with [] => [] | _ => [ENextTick] end) /\
    waiting st' =
      (waiting st || match pending (has st) ws with [] => false | _ => true end) /\
    world st' = world st.
Proof.
  intros Hcfg. apply deferred_not_sync in Hcfg.
  revert st. induction ws as [|w ws IH]; intros st Hfl; simpl.
  - exists st. rewrite orb_false_r. by destruct (waiting st); rewrite app_nil_r.
  - unfold queueWatcher, queueWatcher_with. rewrite Hcfg.
    destruct (nullish (has st !! w_id w)); simpl; [|by apply IH].
    rewrite Hfl. simpl. destruct (waiting st) eqn:Hw.
    + edestruct IH as (st' & -> & Hl & Hwt & Hwo); [|eexists; split; [done|]];
        [done|]. simpl in *. rewrite Hw in *. done.
    + edestruct IH as (st' & -> & Hl & Hwt & Hwo); [|eexists; split; [done|]];
        [done|]. simpl in *. rewrite app_nil_r in Hl. done.
Qed.

(** X1. With flushing left to [nextTick], any number of [queueWatcher]
    calls on the freshly loaded scheduler queues each watcher id once, at
    its first arrival and in the order of arrival, runs nothing, leaves
    the world alone and asks for exactly one flush. *)
Theorem queueing_asks_for_one_flush fuel ws (wo : World E) :
  deferred E ->
  exists st',
    queueWatchers fuel ws (initial wo) = Some st' /\
    queue st' = pending ∅ ws /\
    queue st' `sublist_of` ws /\
    NoDup (w_id <$> queue st') /\
    (forall w, w ∈ ws -> w_id w ∈ w_id <$> queue st') /\
    log st' = match ws with [] => [] | _ => [ENextTick] end /\
    waiting st' = match ws with [] => false | _ => true end /\
    flushing st' = false /\
    world st' = wo.
Proof.
  intros Hcfg.
  destruct (queueWatchers_deferred fuel ws (initial wo))
    as (st' & Hst' & Hq & Hfl & _ & _); [done..|].
  destruct (queueWatchers_deferred_log fuel ws (initial wo))
    as (st2 & Hst2 & Hl & Hw & Hwo); [done..|].
  rewrite Hst' in Hst2. injection Hst2 as <-.
  simpl in *. exists st'. rewrite Hq.
  repeat split; try done.
  - apply pending_sublist.
  - apply pending_NoDup.
  - intros w Hin. by apply pending_covers.
  - rewrite Hl. destruct ws as [|w ws]; [done|]. simpl.
    by rewrite lookup_empty.
  - rewrite Hw. destruct ws as [|w ws]; [done|]. simpl.
    by rewrite lookup_empty.
Qed.

(** ** One pass over watchers that make no scheduler call *)

Lemma run_entry_quiet_log flush w st :
  quiet E w ->
  run_entry flush w st =
    Some (set_world (world_after [w] (world st))
            (mkSched (queue st) (activatedChildren st)
                     (<[w_id w := MNull]> (has st)) (circular st) (waiting st)
                     (flushing st) (index st) (world st) (log st ++ turn w))).
Proof.
  intros Hq. unfold run_entry, external, turn, world_after. simpl.
  destruct (w_before w).
  - pose proof (Hq (world st)) as [_ Hb].
    destruct (before_hook w (world st)) as [wo1 cs1]. simpl in Hb. subst cs1.
    simpl. pose proof (Hq wo1) as [Hr _].
    destruct (run w wo1) as [wo2 cs2]. simpl in Hr. subst cs2. simpl.
    unfold set_world, emit, set_has. simpl. by rewrite <- app_assoc.
  - simpl. pose proof (Hq (world st)) as [Hr _].
    destruct (run w (world st)) as [wo2 cs2]. simpl in Hr. subst cs2. simpl.
    done.
Qed.

Lemma flushLoop_quiet_log flush n st :
  (forall x, x ∈ drop (index st) (queue st) -> quiet E x) ->
  length (queue st) - index st < n ->
  exists st', flushLoop flush n st = Some st' /\
    queue st' = queue st /\
    activatedChildren st' = activatedChildren st /\
    circular st' = circular st /\
    world st' = world_after (drop (index st) (queue st)) (world st) /\
    log st' = log st ++ (drop (index st) (queue st) ≫= turn).
Proof.
  revert st. induction n as [|n IH]; intros st Hq Hn; [lia|]. simpl.
  destruct (queue st !! index st) as [w|] eqn:Hcur.
  - rewrite (drop_S _ _ _ Hcur) in Hq |- *.
    pose proof (lookup_lt_Some _ _ _ Hcur).
    unfold loop_body. rewrite run_entry_quiet_log by (apply Hq; left).
    unfold circular_check. simpl. rewrite lookup_insert_eq. simpl.
    rewrite andb_false_r.
    match goal with |- context [flushLoop flush n ?s] =>
      destruct (IH s) as (st' & -> & R1 & R2 & R3 & R4 & R5) end; simpl.
    { intros x Hx. apply Hq. by right. }
    { lia. }
    exists st'. simpl in *. rewrite R1, R2, R3, R4, R5, <- app_assoc. done.
  - exists st. rewrite drop_ge by by apply lookup_ge_None.
    simpl. by rewrite app_nil_r.
Qed.

(** ** The hooks *)

Lemma callActivatedHooks_spec (vms : list nat) st :
  callActivatedHooks vms st =
    mkSched (queue st) (activatedChildren st) (has st) (circular st) (waiting st)
            (flushing st) (index st)
            (foldl (fun wo vm => set_inactive vm true wo) (world st) vms)
            (log st ++ (EActivated <$> vms)).
Proof.
  revert st. induction vms as [|vm vms IH]; intros st; simpl.
  - destruct st. simpl. by rewrite app_nil_r.
  - rewrite IH. simpl. by rewrite <- app_assoc.
Qed.

Lemma callUpdatedHooks_spec q st :
  callUpdatedHooks q st =
    mkSched (queue st) (activatedChildren st) (has st) (circular st) (waiting st)
            (flushing st) (index st) (world st)
            (log st ++ updated_calls (world st) q).
Proof.
  unfold callUpdatedHooks, updated_calls. generalize (reverse q). clear q.
  intros q. revert st. induction q as [|w q IH]; intros st; simpl.
  - destruct st. simpl. by rewrite app_nil_r.
  - rewrite IH, filter_cons.
    destruct (decide (mounted_render_watcher (world st) w)) as [Hm|Hm];
      unfold mounted_render_watcher in Hm.
    + rewrite Hm. simpl. by rewrite <- app_assoc.
    + apply not_true_is_false in Hm. rewrite Hm. done.
Qed.


Lemma flushSchedulerQueue_S n st :
  flushSchedulerQueue (S n) st =
    match flushLoop (flushSchedulerQueue n) n
            (set_index 0 (set_queue (sort_queue (queue st)) (set_flushing true st)))
    with
    | None => None
    | Some st' => Some (finish_flush st')
    end.
Proof. done. Qed.


(** ** The production build *)

Lemma queueWatcher_production flush w st st' :
  production (cfg E) = true ->
  queueWatcher_with flush w st = Some st' ->
  warnings (log st') = warnings (log st) /\ circular st' = circular st.
Proof.
  intros Hprod. unfold queueWatcher_with. rewrite Hprod. simpl.
  destruct (nullish (has st !! w_id w)); [|by intros [= <-]].
  destruct (flushing st); simpl; destruct (waiting st); simpl;
    intros [= <-]; simpl; rewrite ?warnings_app, ?app_nil_r; done.
Qed.

Lemma perform_all_production flush cs st st' :
  production (cfg E) = true ->
  perform_all flush cs st = Some st' ->
  warnings (log st') = warnings (log st) /\ circular st' = circular st.
Proof.
  intros Hprod. revert st. induction cs as [|c cs IH]; intros st; simpl.
  - by intros [= <-].
  - destruct c as [w|vm]; simpl.
    + destruct (queueWatcher_with flush w st) as [st1|] eqn:H1; [|done].
      intros [-> ->]%IH. by eapply queueWatcher_production.
    + intros [-> ->]%IH. done.
Qed.

Lemma external_production flush body e w st st' :
  production (cfg E) = true ->
  (forall m vm, e <> EWarn m vm) ->
  external flush body e w st = Some st' ->
  warnings (log st') = warnings (log st) /\ circular st' = circular st.
Proof.
  intros Hprod He. unfold external. destruct (body w (world st)) as [wo cs].
  intros [-> ->]%perform_all_production; [|done]. simpl.
  rewrite warnings_app. destruct e; simpl; rewrite ?app_nil_r; try done.
  by destruct (He msg vm).
Qed.

Lemma run_entry_production flush w st st' :
  production (cfg E) = true ->
  run_entry flush w st = Some st' ->
  warnings (log st') = warnings (log st) /\ circular st' = circular st.
Proof.
  intros Hprod. unfold run_entry.
  destruct (w_before w).
  - destruct (external flush before_hook (EBefore w) w st) as [st1|] eqn:H1;
      [|done].
    apply external_production in H1 as [<- <-]; [|done..].
    intros [-> ->]%external_production; done.
  - intros [-> ->]%external_production; done.
Qed.

Lemma flushLoop_production flush n st st' :
  production (cfg E) = true ->
  flushLoop flush n st = Some st' ->
  warnings (log st') = warnings (log st) /\ circular st' = circular st.
Proof.
  intros Hprod. revert st. induction n as [|n IH]; intros st; [done|]. simpl.
  destruct (queue st !! index st) as [w|]; [|by intros [= <-]].
  unfold loop_body.
  destruct (run_entry flush w st) as [st1|] eqn:H1; [|done].
  apply run_entry_production in H1 as [<- <-]; [|done].
  unfold circular_check. rewrite Hprod. simpl.
  intros [-> ->]%IH. done.
Qed.

(** X4. A production build has no guard against circular updates: no
    flush ever emits a warning or counts a re-queued watcher. *)
Theorem production_build_never_warns fuel st st' :
  production (cfg E) = true ->
  flushSchedulerQueue fuel st = Some st' ->
  warnings (log st') = warnings (log st) /\ circular st' = circular st.
Proof.
  intros Hprod. destruct fuel as [|n]; [done|]. simpl.
  match goal with |- context [flushLoop ?f n ?s] =>
    destruct (flushLoop f n s) as [st1|] eqn:H1 end; [|done].
  apply flushLoop_production in H1 as [Hw Hc]; [|done]. simpl in *.
  intros [= <-]. rewrite finish_flush_warnings. split; [done|].
  unfold finish_flush. rewrite callUpdatedHooks_spec, callActivatedHooks_spec.
  unfold resetSchedulerState. rewrite Hprod.
  destruct (devtools (cfg E)); done.
Qed.

(** ** A watcher that queues itself on every run *)

Lemma heads_tail_alone w st :
  queue st = [w] -> waiting st = true ->
  heads_tail w
    (set_index 0 (set_queue (sort_queue (queue st)) (set_flushing true st))).
Proof.
  intros Hq Hw. rewrite Hq. repeat split; simpl; try done.
  intros x Hx. by apply elem_of_nil in Hx.
Qed.


(** X6. In a production build the same pass has no end: whatever the
    number of loop turns allowed, [flushSchedulerQueue] has not
    returned. *)
Theorem self_invalidating_watcher_hangs_production w fuel st :
  production (cfg E) = true ->
  self_invalidating E w ->
  queue st = [w] -> waiting st = true ->
  flushSchedulerQueue fuel st = None.
Proof.
  intros Hprod Hself Hq Hw. destruct fuel as [|n]; [done|].
  rewrite flushSchedulerQueue_S.
  rewrite (self_invalidating_diverges _ w); [done|done|done|].
  by apply heads_tail_alone.
Qed.

(** ** The order behind the cursor *)

Lemma scan_spec q idx wid p :
  idx < p -> p <= length q ->
  (forall j x, scan q idx wid p <= j < p -> q !! j = Some x -> (wid < w_id x)%Z) /\
  (scan q idx wid p = S idx \/
   exists x, q !! pred (scan q idx wid p) = Some x /\ (w_id x <= wid)%Z).
Proof.
  induction p as [|i IH]; [lia|]. intros Hlo Hhi. simpl.
  case_bool_decide as Hi.
  - destruct (q !! i) as [x|] eqn:Hx.
    2:{ apply lookup_ge_None in Hx. lia. }
    case_bool_decide as Hlt.
    + destruct IH as [IH1 IH2]; [lia..|]. split; [|done].
      intros j y Hj Hy. destruct (decide (j = i)) as [->|Hne].
      * rewrite Hx in Hy. by injection Hy as <-.
      * apply (IH1 j); [lia|done].
    + split; [intros j y Hj; lia|]. right. exists x. simpl. split; [done|lia].
  - split; [intros j y Hj; lia|]. left. lia.
Qed.

(** X7. When a watcher is queued during a flush, the backward scan puts
    it where its id belongs among the entries still waiting: if those
    were in ascending id order, they still are, the new watcher
    included. *)
Theorem queueWatcher_keeps_tail_sorted flush w st :
  in_flush st ->
  nullish (has st !! w_id w) = true ->
  StronglySorted id_le (drop (S (index st)) (queue st)) ->
  exists st',
    queueWatcher_with flush w st = Some st' /\
    index st' = index st /\
    w ∈ drop (S (index st')) (queue st') /\
    StronglySorted id_le (drop (S (index st')) (queue st')).
Proof.
  intros (Hfl & Hwt & Hidx) Hnew Hsorted.
  unfold queueWatcher_with. rewrite Hnew. simpl. rewrite Hfl. simpl.
  rewrite Hwt. eexists. split; [done|]. simpl. split; [done|].
  set (q := queue st) in *. set (idx := index st) in *.
  set (p := scan q idx (w_id w) (length q)).
  assert (idx < p) as Hlo by by apply scan_gt.
  assert (p <= length q) as Hhi by apply scan_le.
  destruct (scan_spec q idx (w_id w) (length q) Hidx (le_n _)) as [Hafter Hbefore].
  fold p in Hafter, Hbefore.
  assert (length (take p q) = p) as Hlen by (rewrite length_take; lia).
  assert (drop (S idx) (splice_in p w q)
          = drop (S idx) (take p q) ++ w :: drop p q) as ->.
  { unfold splice_in. by rewrite drop_app_le by lia. }
  assert (drop (S idx) q = drop (S idx) (take p q) ++ drop p q) as Htail.
  { rewrite <- (take_drop p q) at 1. by rewrite drop_app_le by lia. }
  rewrite Htail in Hsorted.
  apply StronglySorted_app in Hsorted as (Hcross & HA & HB).
  split; [apply elem_of_app; right; left|].
  assert (forall b, b ∈ drop p q -> (w_id w < w_id b)%Z) as Hlater.
  { intros b (j & Hj)%list_elem_of_lookup. rewrite lookup_drop in Hj.
    apply (Hafter (p + j)); [|done]. apply lookup_lt_Some in Hj. lia. }
  assert (forall a, a ∈ drop (S idx) (take p q) -> (w_id a <= w_id w)%Z) as Hearlier.
  { destruct Hbefore as [Hp|(x & Hx & Hle)].
    { rewrite Hp, drop_ge by (rewrite length_take; lia).
      intros a Ha. by apply elem_of_nil in Ha. }
    destruct p as [|p']; [lia|]. simpl in Hx.
    rewrite (take_S_r _ _ _ Hx) in HA |- *.
    destruct (decide (idx < p')) as [Hlt|Hge].
    - rewrite drop_app_le in HA |- * by (rewrite length_take; lia).
      apply StronglySorted_app in HA as (Hlast & _ & _).
      intros a [Ha|Ha%list_elem_of_singleton]%elem_of_app; [|by subst].
      etrans; [|exact Hle]. apply (Hlast a x Ha). by apply list_elem_of_singleton.
    - rewrite drop_ge by (rewrite length_app, length_take; simpl; lia).
      intros a Ha. by apply elem_of_nil in Ha. }
  apply StronglySorted_app_2; [| done |].
  - intros a b Ha [->|Hb]%elem_of_cons; [by apply Hearlier|by apply Hcross].
  - apply StronglySorted_cons. split; [|done].
    apply Forall_forall. intros b Hb. unfold id_le.
    specialize (Hlater b Hb). lia.
Qed.

(** ** Activated components *)

Lemma queueActivatedComponents_spec (vms : list nat) st :
  foldl (fun s vm => queueActivatedComponent vm s) st vms =
    mkSched (queue st) (activatedChildren st ++ vms) (has st) (circular st)
            (waiting st) (flushing st) (index st)
            (foldl (fun wo vm => set_inactive vm false wo) (world st) vms)
            (log st).
Proof.
  revert st. induction vms as [|vm vms IH]; intros st; simpl.
  - destruct st. simpl. by rewrite app_nil_r.
  - rewrite IH. unfold queueActivatedComponent. simpl.
    by rewrite <- app_assoc.
Qed.


End Laws.

(** ** The statements at work *)

(** Watcher 2 is queued twice. *)
Lemma queueing_asks_for_one_flush_witness :
  exists st',
    queueWatchers 0 [sample_watcher 3; sample_watcher 2; sample_watcher 1;
                     sample_watcher 2]
      (initial (E:=counting_env development) 0) = Some st' /\
    queue st' = [sample_watcher 3; sample_watcher 2; sample_watcher 1] /\
    log st' = [ENextTick].
Proof.
  destruct (queueing_asks_for_one_flush (E:=counting_env development) 0
              [sample_watcher 3; sample_watcher 2; sample_watcher 1;
               sample_watcher 2] 0 eq_refl)
    as (st' & Hst' & Hqueue & _ & _ & _ & Hlog & _).
  exists st'. split; [exact Hst'|]. split; [exact Hqueue|exact Hlog].
Defined.



(** Watchers 1 and 2 queue each other three hundred times in one pass of
    a production build. *)
Lemma production_build_never_warns_witness :
  exists st',
    flushSchedulerQueue 400
      (mkSched (E:=ping_pong_env production_build) [sample_watcher 1] []
         (<[1%Z := MTrue]> ∅) ∅ true false 0 300 []) = Some st' /\
    warnings (log st') = [] /\ circular st' = ∅.
Proof.
  destruct (flushSchedulerQueue 400
              (mkSched (E:=ping_pong_env production_build) [sample_watcher 1] []
                 (<[1%Z := MTrue]> ∅) ∅ true false 0 300 [])) as [st'|] eqn:H;
    [|vm_compute in H; discriminate].
  exists st'. split; [reflexivity|].
  exact (production_build_never_warns (E:=ping_pong_env production_build) 400
           _ st' eq_refl H).
Defined.


Lemma self_invalidating_watcher_hangs_production_witness :
  flushSchedulerQueue 1000
    (mkSched (E:=looping_env production_build) [sample_watcher 1] []
       (<[1%Z := MTrue]> ∅) ∅ true false 0 tt [ENextTick]) = None.
Proof.
  apply (self_invalidating_watcher_hangs_production
           (E:=looping_env production_build) (sample_watcher 1) 1000).
  - reflexivity.
  - split; reflexivity.
  - reflexivity.
  - reflexivity.
Defined.

(** Watcher 2 queues watchers 1 and 5 while it runs: 3, 1, 2 were queued,
    and 1, 2, 3 are run in this order among the five runs of the pass. *)
Lemma flush_runs_queued_watchers_in_order_witness :
  exists st st',
    queueWatchers 7 [sample_watcher 3; sample_watcher 1; sample_watcher 2]
      (initial (E:=reentrant_env) tt) = Some st /\
    flushSchedulerQueue 7 st = Some st' /\
    [sample_watcher 1; sample_watcher 2; sample_watcher 3]
      `sublist_of` runs (log st').
Proof.
  destruct (queueWatchers 7 [sample_watcher 3; sample_watcher 1; sample_watcher 2]
              (initial (E:=reentrant_env) tt)) as [st|] eqn:Hq;
    [|vm_compute in Hq; discriminate].
  destruct (flushSchedulerQueue 7 st) as [st'|] eqn:Hf;
    [|vm_compute in Hq; injection Hq as <-; vm_compute in Hf; discriminate].
  exists st, st'. split; [reflexivity|]. split; [exact Hf|].
  apply (flush_runs_queued_watchers_in_order (E:=reentrant_env)
           [sample_watcher 3; sample_watcher 1; sample_watcher 2] tt 7 st st'
           eq_refl Hq Hf).
  vm_compute in Hq. injection Hq as <-.
  vm_compute in Hf. injection Hf as <-. reflexivity.
Defined.

(** Watcher 5 is queued while the cursor is on watcher 2 of 1, 2, 4, 6. *)
Lemma queueWatcher_keeps_tail_sorted_witness :
  exists st',
    queueWatcher_with (fun _ => None) (sample_watcher 5)
      (mkSched (E:=reentrant_env)
         [sample_watcher 1; sample_watcher 2; sample_watcher 4; sample_watcher 6]
         [] (<[1%Z := MNull]> (<[2%Z := MNull]>
               (<[4%Z := MTrue]> (<[6%Z := MTrue]> ∅)))) ∅
         true true 1 tt []) = Some st' /\
    queue st' = [sample_watcher 1; sample_watcher 2; sample_watcher 4;
                 sample_watcher 5; sample_watcher 6].
Proof.
  edestruct (queueWatcher_keeps_tail_sorted (E:=reentrant_env))
    with (flush := fun _ : Sched reentrant_env => @None (Sched reentrant_env))
         (w := sample_watcher 5)
         (st := mkSched (E:=reentrant_env)
                  [sample_watcher 1; sample_watcher 2; sample_watcher 4;
                   sample_watcher 6]
                  [] (<[1%Z := MNull]> (<[2%Z := MNull]>
                        (<[4%Z := MTrue]> (<[6%Z := MTrue]> ∅)))) ∅
                  true true 1 tt [])
    as (st' & Hst' & _).
  - repeat split. simpl. lia.
  - vm_compute. reflexivity.
  - simpl. repeat constructor; unfold id_le; simpl; lia.
  - exists st'. split; [exact Hst'|].
    vm_compute in Hst'. injection Hst' as <-. reflexivity.
Defined.


End SchedulerLaws.

(* ===================================================================== *)
(** * Reactive properties at work: reading, writing, adding, deleting *)
(* ===================================================================== *)
Module ObserverLaws.
Import Store Dep Observer ObserverProps.

Section Laws.

Context {E : Env}.
Implicit Types (st : State (World E)) (o : obj) (k : key) (v val : value).
Implicit Types (cl : cell) (ob : observer) (w : Watcher).

(** ** Running the monad *)

Lemma bind_Ret {A B} (m : M E A) (f : A -> M E B) st a st1 e1 :
  m st = Ret a st1 e1 -> bind m f st = after e1 (f a st1).
Proof. intros Hm. unfold bind. rewrite Hm. by destruct (f a st1). Qed.

Lemma after_nil {A} (o : outcome E A) : after [] o = o.
Proof. by destruct o. Qed.

Lemma bind_Ret_nil {A B} (m : M E A) (f : A -> M E B) st a st1 :
  m st = Ret a st1 [] -> bind m f st = f a st1.
Proof. intros Hm. by rewrite (bind_Ret m f st a st1 []), after_nil. Qed.

Lemma lookup_obj_Ret l o st : heap st !! l = Some o -> lookup_obj l st = Ret o st [].
Proof. intros H. unfold lookup_obj. by rewrite H. Qed.

Lemma lookup_cell_Ret c cl st :
  cells st !! c = Some cl -> lookup_cell c st = Ret cl st [].
Proof. intros H. unfold lookup_cell. by rewrite H. Qed.

Lemma lookup_observer_Ret r ob st :
  observers st !! r = Some ob -> lookup_observer r st = Ret ob st [].
Proof. intros H. unfold lookup_observer. by rewrite H. Qed.

Lemma notify_Ret d st :
  notify d st =
    Ret tt (updated (subscribers d st) st)
        (ENotify d :: (EUpdate <$> subscribers d st)).
Proof.
  unfold notify, subscribers, updated.
  unfold bind, emit. by rewrite DepProps.for_each_call_update.
Qed.

Lemma observe_primitive self v b st :
  primitive v -> observe_with self v b st = Ret None st [].
Proof. by destruct v. Qed.

(** ** Outside code that leaves the reactive data alone *)

Lemma updated_preserves l st :
  (forall w, preserves_data (@update E w)) ->
  heap (updated l st) = heap st /\ observers (updated l st) = observers st /\
  cells (updated l st) = cells st /\ target (updated l st) = target st.
Proof.
  intros Hupd. revert st. unfold updated.
  induction l as [|w l IH]; intros st; simpl; [done|].
  destruct (IH (update w st)) as (-> & -> & -> & ->). apply Hupd.
Qed.

(** ** Reading a reactive property *)

Lemma reactiveGetter_outside self c cl st :
  cells st !! c = Some cl ->
  c_getter cl = None ->
  target st = None ->
  reactiveGetter self c st = Ret (c_val cl) st [].
Proof.
  intros Hc Hg Ht. unfold reactiveGetter.
  rewrite (bind_Ret_nil _ _ _ _ _ (lookup_cell_Ret _ _ _ Hc)).
  unfold read_current. rewrite Hg.
  unfold bind, ret, get_state. rewrite Ht. done.
Qed.

(** X12. Outside the evaluation of any watcher, reading a property that
    [defineReactive] has taken over (without an earlier getter) returns
    the value kept in the closure and does nothing else: no dependency
    is registered and the state is untouched. *)
Theorem read_outside_watcher fuel l k o c s e cf cl st :
  heap st !! l = Some o ->
  own_property o k = Some (PAccessor (Some (Reactive c)) s e cf) ->
  cells st !! c = Some cl ->
  c_getter cl = None ->
  target st = None ->
  read (S fuel) l k st = Ret (c_val cl) st [].
Proof.
  intros Hl Hk Hc Hg Ht. unfold read, get_property.
  rewrite (bind_Ret_nil _ _ _ _ _ (lookup_obj_Ret _ _ _ Hl)), Hk. simpl.
  by apply reactiveGetter_outside.
Qed.

(** X13. While a watcher is being evaluated, the same read hands the
    property's dependency to that watcher ([Dep.target.addDep(dep)]) and,
    when the value has an observer of its own, that observer's dependency
    as well, in this order; the value returned is the one in the closure.
    (The watcher's [addDep] is taken to leave the reactive data alone;
    the value is not an array.) *)
Theorem read_registers_dependency fuel l k o c s e cf cl w st :
  heap st !! l = Some o ->
  own_property o k = Some (PAccessor (Some (Reactive c)) s e cf) ->
  cells st !! c = Some cl ->
  c_getter cl = None ->
  target st = Some w ->
  (forall d, preserves_data (@addDep E w d)) ->
  (forall r, c_childOb cl = Some r -> is_Some (observers st !! r)) ->
  (forall lv, c_val cl = VObject lv ->
              exists ov, heap st !! lv = Some ov /\ isArray ov = false) ->
  read (S fuel) l k st =
    Ret (c_val cl) (registered w (dependencies cl st) st)
        (EAddDep w <$> dependencies cl st).
Proof.
  intros Hl Hk Hc Hg Ht Hadd Hchild Hval. unfold read, get_property.
  rewrite (bind_Ret_nil _ _ _ _ _ (lookup_obj_Ret _ _ _ Hl)), Hk. simpl.
  unfold reactiveGetter.
  rewrite (bind_Ret_nil _ _ _ _ _ (lookup_cell_Ret _ _ _ Hc)).
  unfold read_current. rewrite Hg.
  rewrite (bind_Ret_nil (ret (c_val cl)) _ st (c_val cl) st eq_refl).
  rewrite (bind_Ret_nil get_state _ st st st eq_refl). rewrite Ht.
  destruct (Hadd (c_dep cl) st) as (Hh1 & Ho1 & Hc1 & Ht1).
  assert (depend (c_dep cl) st
          = Ret tt (addDep w (c_dep cl) st) [EAddDep w (c_dep cl)]) as Hdep.
  { unfold depend. by rewrite Ht. }
  unfold dependencies, registered.
  set (st1 := addDep w (c_dep cl) st) in *.
  assert (cells st1 !! c = Some cl) as Hc' by by rewrite Hc1.
  unfold bind at 1. unfold bind at 1. rewrite Hdep.
  unfold bind at 1. rewrite (lookup_cell_Ret _ _ _ Hc').
  destruct (c_childOb cl) as [r|] eqn:Hr; simpl; [|done].
  destruct (Hchild r eq_refl) as [ob Hob]. rewrite Hob. simpl.
  assert (observers st1 !! r = Some ob) as Hob' by by rewrite Ho1.
  unfold bind at 1. rewrite (lookup_observer_Ret _ _ _ Hob').
  destruct (Hadd (ob_dep ob) st1) as (Hh2 & Ho2 & Hc2 & Ht2).
  assert (depend (ob_dep ob) st1
          = Ret tt (addDep w (ob_dep ob) st1) [EAddDep w (ob_dep ob)]) as Hdep2.
  { unfold depend. by rewrite Ht1, Ht. }
  unfold bind at 1. rewrite Hdep2.
  destruct (c_val cl) as [| | | | | |lv] eqn:Hv; try done.
  destruct (Hval lv eq_refl) as (ov & Hov & Harr).
  unfold bind at 1. unfold lookup_obj. rewrite Hh2, Hh1, Hov, Harr. done.
Qed.

(** ** Defining a reactive property *)

Lemma own_property_named o k :
  isArray o && isValidArrayIndex k = false -> own_property o k = o_props o !! k.
Proof.
  unfold own_property, isArray, isValidArrayIndex.
  destruct (o_kind o), k; simpl; try done.
Qed.

Lemma store_property_named l o k p st :
  isArray o && isValidArrayIndex k = false ->
  store_property l o k p st = Ret tt (with_record l o (<[k := p]> (o_props o)) st) [].
Proof.
  unfold store_property, isArray, isValidArrayIndex.
  destruct (o_kind o), k, p; simpl; try done.
Qed.

Lemma hasOwn_false o k : hasOwn o k = false -> own_property o k = None.
Proof.
  unfold hasOwn. intros H%bool_decide_eq_false.
  destruct (own_property o k); [|done]. by destruct H.
Qed.

Lemma hasOwn_true o k : hasOwn o k = true -> is_Some (own_property o k).
Proof. unfold hasOwn. by intros H%bool_decide_eq_true. Qed.

Lemma defineReactive_with_new self l o k val custom shallow st :
  heap st !! l = Some o ->
  isArray o && isValidArrayIndex k = false ->
  match own_property o k with
  | Some p => configurable p = true
  | None => o_extensible o = true
  end ->
  shallow = true \/ (forall s, self_observe self val false s = Ret None s []) ->
  defineReactive_with self l k val custom shallow st =
    Ret tt (made_reactive l o k val None custom shallow st) [].
Proof.
  intros Hobj Hnamed Hconf Hobs. unfold defineReactive_with.
  rewrite (bind_Ret_nil new_Dep _ st (uid st) _ eq_refl).
  set (st0 := set_subs _ _).
  assert (heap st0 !! l = Some o) as Hobj0 by done.
  rewrite (bind_Ret_nil _ _ _ _ _ (lookup_obj_Ret _ _ _ Hobj0)).
  rewrite bool_decide_eq_false_2.
  2:{ destruct (own_property o k) as [p|]; [|done]. simpl. by rewrite Hconf. }
  assert ((if shallow then ret None else self_observe self val false) st0
          = Ret None st0 []) as Hchild.
  { destruct Hobs as [->|Hprim]; [done|]. destruct shallow; [done|]. apply Hprim. }
  rewrite (bind_Ret_nil _ _ _ _ _ Hchild).
  unfold alloc_cell at 1.
  match goal with |- bind ?m _ _ = _ =>
    rewrite (bind_Ret_nil m _ st0 _ _ eq_refl) end.
  unfold defineProperty.
  match goal with |- bind _ _ ?s = _ =>
    assert (heap s !! l = Some o) as Hobj1 by done;
    rewrite (bind_Ret_nil _ _ _ _ _ (lookup_obj_Ret _ _ _ Hobj1)) end.
  assert (forall s p, (match own_property o k with
          | Some old => if configurable old then store_property l o k p
                        else throw "TypeError: Cannot redefine property"
          | None => if o_extensible o then store_property l o k p
                    else throw "TypeError: Cannot define property, object is not extensible"
          end) s = store_property l o k p s) as ->.
  { intros s p. destruct (own_property o k) as [old|]; by rewrite Hconf. }
  by rewrite store_property_named.
Qed.

(** X14. [defineReactive] on a property that is not configurable gives
    up before touching the object: the heap, the closures and the
    observers stay as they were and nothing is emitted; only the
    dependency created on entry has been counted. *)
Theorem defineReactive_skips_fixed_property fuel l o k p val custom shallow st :
  heap st !! l = Some o ->
  own_property o k = Some p ->
  configurable p = false ->
  defineReactive fuel l k val custom shallow st =
    Ret tt (set_subs (<[uid st := []]> (subs st)) (set_uid (S (uid st)) st)) [].
Proof.
  intros Hl Hk Hconf. unfold defineReactive, defineReactive_with.
  rewrite (bind_Ret_nil new_Dep _ st (uid st) _ eq_refl).
  set (st0 := set_subs _ _).
  assert (heap st0 !! l = Some o) as Hobj0 by done.
  rewrite (bind_Ret_nil _ _ _ _ _ (lookup_obj_Ret _ _ _ Hobj0)).
  rewrite Hk. simpl. rewrite Hconf. done.
Qed.

(** ** Writing a reactive property *)

Lemma unchanged_cases newVal value :
  unchanged newVal value = true ->
  strict_equal newVal value = true \/
  (strict_not_equal newVal newVal = true /\ strict_not_equal value value = true).
Proof.
  unfold unchanged. intros [H|[H1 H2]%andb_true_iff]%orb_true_iff; auto.
Qed.

Lemma reactiveSetter_changed fuel c cl newVal st :
  cells st !! c = Some cl ->
  c_getter cl = None -> c_setter cl = None -> c_customSetter cl = None ->
  c_shallow cl = true \/ primitive newVal ->
  unchanged newVal (c_val cl) = false ->
  let st1 :=
    update_cell c (with_childOb None) (update_cell c (with_val newVal) st) in
  reactiveSetter (tie (S fuel)) c newVal st =
    Ret tt (updated (subscribers (c_dep cl) st) st1)
        (ENotify (c_dep cl) :: (EUpdate <$> subscribers (c_dep cl) st)).
Proof.
  intros Hc Hg Hs Hcs Hobs Hch st1. unfold reactiveSetter.
  rewrite (bind_Ret_nil _ _ _ _ _ (lookup_cell_Ret _ _ _ Hc)).
  unfold read_current. rewrite Hg.
  rewrite (bind_Ret_nil (ret (c_val cl)) _ st (c_val cl) st eq_refl).
  unfold unchanged in Hch. rewrite Hch, Hcs, Hs.
  rewrite (bind_Ret_nil (ret tt) _ st tt st eq_refl).
  match goal with |- bind (modify ?f) _ _ = _ =>
    rewrite (bind_Ret_nil (modify f) _ st tt (f st) eq_refl) end.
  set (st0 := update_cell c (with_val newVal) st).
  assert ((if c_shallow cl then ret None
           else self_observe (tie (S fuel)) newVal false) st0
          = Ret None st0 []) as Hchild.
  { destruct (c_shallow cl); [done|]. destruct Hobs as [|Hprim]; [done|].
    by apply observe_primitive. }
  rewrite (bind_Ret_nil _ _ _ _ _ Hchild).
  match goal with |- bind (modify ?f) _ _ = _ =>
    rewrite (bind_Ret_nil (modify f) _ st0 tt (f st0) eq_refl) end.
  by rewrite notify_Ret.
Qed.

(** X15. Assigning to a reactive property and reading it back. The
    property is the accessor pair of [defineReactive] (no earlier
    accessors, no custom setter); the new value is a primitive, or the
    property is shallow. If the new value is strictly equal to the old
    one (or both are unequal to themselves) nothing happens and the old
    value is read back, which for [+0] over [-0] is not the value
    assigned. Otherwise the property's dependency is notified, its
    subscribers are updated in order, and the value read back is the
    one assigned. *)
Theorem assign_then_read fuel l k o e cf c cl newVal st :
  heap st !! l = Some o ->
  own_property o k
    = Some (PAccessor (Some (Reactive c)) (Some (Reactive c)) e cf) ->
  cells st !! c = Some cl ->
  c_getter cl = None -> c_setter cl = None -> c_customSetter cl = None ->
  c_shallow cl = true \/ primitive newVal ->
  (forall w, preserves_data (@update E w)) ->
  target st = None ->
  exists st',
    assign (S (S fuel)) l k newVal st =
      Ret tt st'
          (if unchanged newVal (c_val cl) then []
           else ENotify (c_dep cl) :: (EUpdate <$> subscribers (c_dep cl) st)) /\
    read (S fuel) l k st' =
      Ret (if unchanged newVal (c_val cl) then c_val cl else newVal) st' [].
Proof.
  intros Hl Hk Hc Hg Hs Hcs Hobs Hupd Ht.
  assert (forall st', heap st' = heap st ->
            read (S fuel) l k st' = reactiveGetter (tie fuel) c st') as Hread.
  { intros st' Hh. unfold read, get_property.
    assert (heap st' !! l = Some o) as Hl' by by rewrite Hh.
    by rewrite (bind_Ret_nil _ _ _ _ _ (lookup_obj_Ret _ _ _ Hl')), Hk. }
  assert (assign (S (S fuel)) l k newVal st
          = reactiveSetter (tie (S fuel)) c newVal st) as ->.
  { unfold assign, put_property.
    by rewrite (bind_Ret_nil _ _ _ _ _ (lookup_obj_Ret _ _ _ Hl)), Hk. }
  destruct (unchanged newVal (c_val cl)) eqn:Hch.
  - exists st. split.
    + apply (reactiveSetter_unchanged _ c cl newVal (c_val cl)); [done| |].
      * unfold read_current. by rewrite Hg.
      * by apply unchanged_cases.
    + rewrite Hread by done. by apply reactiveGetter_outside.
  - rewrite (reactiveSetter_changed fuel c cl newVal st) by done.
    eexists. split; [done|].
    match goal with |- read _ _ _ (updated ?ws ?s) = _ =>
      destruct (updated_preserves ws s Hupd) as (Hh & _ & Hcl & Htg) end.
    rewrite Hread by done.
    rewrite (reactiveGetter_outside _ c
               (with_childOb None (with_val newVal cl))); [done| |done|].
    + rewrite Hcl. unfold update_cell. simpl.
      rewrite lookup_alter_eq, lookup_alter_eq, Hc. done.
    + by rewrite Htg.
Qed.

(** ** Adding and deleting properties *)

Lemma is_root_false o st :
  o_isVue o = false ->
  (forall r, o_ob o = Some r ->
             exists ob, observers st !! r = Some ob /\ ob_vmCount ob = 0) ->
  is_root o st = Ret false st [].
Proof.
  intros Hvue Hob. unfold is_root. rewrite Hvue.
  destruct (o_ob o) as [r|]; [|done].
  destruct (Hob r eq_refl) as (ob & Hr & Hc).
  rewrite (bind_Ret_nil _ _ _ _ _ (lookup_observer_Ret _ _ _ Hr)), Hc. done.
Qed.



(** X18. [set] with a key the target already owns is the assignment
    [target[key] = val] and nothing more: the check for root data is not
    reached, and no warning is emitted, whatever the target. *)
Theorem set_on_own_key_assigns fuel target o k val st :
  heap st !! target = Some o ->
  isArray o && isValidArrayIndex k = false ->
  hasOwn o k = true ->
  set fuel target k val st =
    bind (assign fuel target k val) (fun _ => ret val) st /\
  no_warning (set fuel target k val st).
Proof.
  intros Hl Hnamed Hown.
  assert (set fuel target k val st =
          bind (assign fuel target k val) (fun _ => ret val) st) as Hset.
  { unfold set, set_with.
    by rewrite (bind_Ret_nil _ _ _ _ _ (lookup_obj_Ret _ _ _ Hl)), Hnamed, Hown. }
  split; [done|]. rewrite Hset.
  pose proof (tie_never_warns (E:=E) fuel) as (Ht1 & Ht2 & Ht3 & Ht4).
  apply eo_bind; [by apply eo_put_property|]. intros _. apply eo_ret.
Qed.


(** X20. [del] of an own, configurable property: the property is removed
    from the object; when the object has an observer, that observer's
    dependency is notified afterwards and its subscribers are updated in
    order; when it has none, nobody is told. *)
Theorem del_of_own_key fuel target o k p st :
  heap st !! target = Some o ->
  isArray o && isValidArrayIndex k = false ->
  o_isVue o = false ->
  (forall r, o_ob o = Some r ->
             exists ob, observers st !! r = Some ob /\ ob_vmCount ob = 0) ->
  o_props o !! k = Some p ->
  configurable p = true ->
  let st1 := with_record target o (delete k (o_props o)) st in
  del fuel target k st =
    match o_ob o ≫= (fun r => observers st !! r) with
    | Some ob =>
        Ret tt (updated (subscribers (ob_dep ob) st1) st1)
            (ENotify (ob_dep ob) :: (EUpdate <$> subscribers (ob_dep ob) st1))
    | None => Ret tt st1 []
    end.
Proof.
  intros Hl Hnamed Hvue Hob Hk Hconf st1. unfold del, del_with.
  rewrite (bind_Ret_nil _ _ _ _ _ (lookup_obj_Ret _ _ _ Hl)), Hnamed.
  rewrite (bind_Ret_nil _ _ _ _ _ (is_root_false o st Hvue Hob)).
  unfold hasOwn. rewrite own_property_named, Hk by done.
  rewrite bool_decide_eq_true_2 by done. simpl.
  assert (delete_property target k st = Ret tt st1 []) as Hdel.
  { unfold delete_property.
    rewrite (bind_Ret_nil _ _ _ _ _ (lookup_obj_Ret _ _ _ Hl)).
    unfold isArray, isValidArrayIndex in Hnamed.
    destruct (o_kind o), k; simpl in *; try done; by rewrite Hk, Hconf. }
  rewrite (bind_Ret_nil _ _ _ _ _ Hdel).
  destruct (o_ob o) as [r|]; simpl; [|done].
  destruct (Hob r eq_refl) as (ob & Hr & _). rewrite Hr.
  assert (observers st1 !! r = Some ob) as Hr1 by done.
  rewrite (bind_Ret_nil _ _ _ _ _ (lookup_observer_Ret _ _ _ Hr1)).
  apply notify_Ret.
Qed.

(** ** Arrays addressed by index *)

Lemma native_splice_replace i v (elems : list value) :
  let padded :=
    elems ++ replicate (length elems `max` i - length elems) VUndefined in
  let elems' := native_splice i 1 [v] padded in
  elems' !! i = Some v /\
  length elems' = length elems `max` S i /\
  (forall j, j < length elems -> j <> i -> elems' !! j = elems !! j).
Proof.
  intros padded elems'.
  assert (length padded = length elems `max` i) as Hlen.
  { unfold padded. rewrite length_app, length_replicate. lia. }
  assert (length (take i padded) = i) as Htake by (rewrite length_take; lia).
  unfold elems', native_splice. split; [|split].
  - rewrite lookup_app_r by lia. rewrite Htake, Nat.sub_diag. done.
  - rewrite !length_app, Htake, length_drop, Hlen. simpl. lia.
  - intros j Hj Hne. destruct (decide (j < i)) as [Hlt|Hge].
    + rewrite lookup_app_l by lia. rewrite lookup_take_lt by done.
      unfold padded. by rewrite lookup_app_l.
    + rewrite lookup_app_r by lia. rewrite Htake.
      destruct (j - i) as [|n] eqn:Hn; [lia|]. simpl.
      rewrite lookup_drop. replace (i + 1 + n) with j by lia.
      unfold padded. by rewrite lookup_app_l.
Qed.

Lemma intercepted_observed fuel o r ob items st :
  o_augmented o = true ->
  o_ob o = Some r ->
  observers st !! r = Some ob ->
  Forall primitive items ->
  intercepted (tie (S fuel)) o items st =
    Ret tt (updated (subscribers (ob_dep ob) st) st)
        (ENotify (ob_dep ob) :: (EUpdate <$> subscribers (ob_dep ob) st)).
Proof.
  intros Haug Hob Hr Hprim. unfold intercepted. rewrite Haug, Hob.
  rewrite (bind_Ret_nil _ _ _ _ _ (lookup_observer_Ret _ _ _ Hr)).
  assert (observeArray_fresh (tie (S fuel)) items st = Ret tt st []) as Hobs.
  { unfold observeArray_fresh. induction Hprim as [|v items Hv _ IH]; [done|].
    cbn [for_each]. rewrite (bind_Ret_nil _ _ st tt st); [done|].
    rewrite (bind_Ret_nil _ _ st None st); [done|]. by apply observe_primitive. }
  rewrite (bind_Ret_nil _ _ _ _ _ Hobs). apply notify_Ret.
Qed.



(** ** Accessors and values that [defineReactive] finds in place *)

(** X23. [defineReactive] over a property that already has a getter
    keeps that getter: afterwards a read of the property returns what
    the old getter returns, not the value passed to [defineReactive].
    (The value is a primitive or the property is made shallow; the read
    happens outside the evaluation of any watcher.) *)
Theorem defineReactive_keeps_getter fuel fuel' l o k f s e val custom shallow st :
  heap st !! l = Some o ->
  isArray o && isValidArrayIndex k = false ->
  o_props o !! k = Some (PAccessor (Some (User f)) s e true) ->
  shallow = true \/ primitive val ->
  let st1 := made_reactive l o k val None custom shallow st in
  defineReactive (S fuel) l k val custom shallow st = Ret tt st1 [] /\
  (target (user_get f l st1).2 = None ->
   read (S (S fuel')) l k st1 =
     Ret (user_get f l st1).1 (user_get f l st1).2 []).
Proof.
  intros Hl Hnamed Hk Hobs st1.
  pose proof (own_property_named o k Hnamed) as Hown. rewrite Hk in Hown.
  split.
  - apply defineReactive_with_new; [done|done|by rewrite Hown|].
    destruct Hobs as [?|Hprim]; [by left|right].
    intros s0. by apply observe_primitive.
  - intros Ht. unfold read, get_property.
    assert (heap st1 !! l
            = Some (with_props
                      (<[k := reactive_property (fresh (dom (cells st)))]>
                         (o_props o)) o)) as Hl1.
    { unfold st1, made_reactive. simpl. by rewrite lookup_insert_eq. }
    rewrite (bind_Ret_nil _ _ _ _ _ (lookup_obj_Ret _ _ _ Hl1)).
    rewrite own_property_named by done. simpl. rewrite lookup_insert_eq.
    simpl. unfold reactiveGetter.
    assert (cells st1 !! fresh (dom (cells st))
            = Some (reactive_cell l o k val None custom shallow st)) as Hc1.
    { unfold st1, made_reactive. simpl. by rewrite lookup_insert_eq. }
    rewrite (bind_Ret_nil _ _ _ _ _ (lookup_cell_Ret _ _ _ Hc1)).
    unfold read_current, reactive_cell. simpl. rewrite Hown. simpl.
    destruct (user_get f l st1) as [v st2] eqn:Hget. simpl in *.
    unfold bind, get_state, ret. rewrite Hget, Ht. done.
Qed.


(** ** Observing a record *)

(** What [walk] leaves behind for the key [k] that held [v]: the accessor
    pair over a closure that holds [v]. *)
Lemma walk_loop fuel l ks : forall st o,
  heap st !! l = Some o ->
  isArray o = false ->
  NoDup ks ->
  (forall k, k ∈ ks ->
     exists v wr, o_props o !! k = Some (PData v wr true true) /\ primitive v) ->
  exists st' p',
    for_each (fun k =>
                bind (get_property (tie (S fuel)) l k) (fun v =>
                  defineReactive_with (tie (S fuel)) l k v None false))
             ks st = Ret tt st' [] /\
    heap st' = <[l := with_props p' o]> (heap st) /\
    observers st' = observers st /\
    cells st ⊆ cells st' /\
    (forall k, k ∉ ks -> p' !! k = o_props o !! k) /\
    (forall k v wr, k ∈ ks -> o_props o !! k = Some (PData v wr true true) ->
       exists c cl, p' !! k = Some (reactive_property c) /\
         cells st' !! c = Some cl /\ c_val cl = v /\ c_getter cl = None /\
         c_setter cl = None /\ c_childOb cl = None).
Proof.
  induction ks as [|k ks IH]; intros st o Hl Harr Hnd Hflat.
  - exists st, (o_props o). split; [done|]. split.
    { destruct o. simpl. by rewrite insert_id. }
    split; [done|]. split; [done|]. split; [done|].
    intros k v wr Hk. by apply elem_of_nil in Hk.
  - apply NoDup_cons in Hnd as [Hk Hnd].
    destruct (Hflat k) as (v & wr & Hkv & Hprim); [left|].
    assert (isArray o && isValidArrayIndex k = false) as Hnamed by by rewrite Harr.
    pose proof (own_property_named o k Hnamed) as Hown. rewrite Hkv in Hown.
    assert (get_property (tie (S fuel)) l k st = Ret v st []) as Hget.
    { unfold get_property.
      by rewrite (bind_Ret_nil _ _ _ _ _ (lookup_obj_Ret _ _ _ Hl)), Hown. }
    pose proof (defineReactive_with_new (tie (S fuel)) l o k v None false st
                  Hl Hnamed ltac:(by rewrite Hown)
                  (or_intror (fun s => observe_primitive _ _ _ s Hprim))) as Hdef.
    set (st1 := made_reactive l o k v None None false st) in *.
    set (c := fresh (dom (cells st))).
    set (o1 := with_props (<[k := reactive_property c]> (o_props o)) o).
    assert (heap st1 !! l = Some o1) as Hl1.
    { unfold st1, made_reactive. simpl. by rewrite lookup_insert_eq. }
    destruct (IH st1 o1 Hl1 Harr Hnd) as (st' & p' & Hloop & Hh & Ho & Hc & Hout & Hin).
    { intros k' Hk'. destruct (Hflat k') as (v' & wr' & Hkv' & Hprim'); [by right|].
      exists v', wr'. split; [|done]. unfold o1. simpl.
      rewrite lookup_insert_ne; [done|]. intros ->. done. }
    assert (cells st !! c = None) as Hfresh.
    { apply not_elem_of_dom. apply is_fresh. }
    assert (cells st1 !! c
            = Some (reactive_cell l o k v None None false st)) as Hc1.
    { unfold st1, made_reactive. simpl. by rewrite lookup_insert_eq. }
    exists st', p'. split; [|split; [|split; [|split; [|split]]]].
    + cbn [for_each]. rewrite (bind_Ret_nil _ _ st tt st1); [done|].
      by rewrite (bind_Ret_nil _ _ _ _ _ Hget).
    + rewrite Hh. unfold st1, made_reactive, o1. simpl.
      by rewrite insert_insert_eq.
    + by rewrite Ho.
    + etrans; [|exact Hc]. unfold st1, made_reactive. simpl.
      by apply insert_subseteq.
    + intros k' Hk'. apply not_elem_of_cons in Hk' as [Hne Hk'].
      rewrite Hout by done. unfold o1. simpl. by rewrite lookup_insert_ne.
    + intros k' v' wr' Hk' Hkv'. apply elem_of_cons in Hk' as [->|Hk'].
      * rewrite Hkv in Hkv'. injection Hkv' as <- <-.
        exists c, (reactive_cell l o k v None None false st).
        rewrite Hout by done. unfold o1. simpl. rewrite lookup_insert_eq.
        split; [done|]. split.
        { eapply lookup_weaken; [exact Hc1|exact Hc]. }
        unfold reactive_cell. simpl. by rewrite Hown.
      * apply (Hin k' v' wr' Hk'). unfold o1. simpl.
        rewrite lookup_insert_ne; [done|]. intros ->. done.
Qed.

Lemma Object_keys_record o :
  o_elems o = [] ->
  NoDup (Object_keys o) /\
  (forall k, k ∈ Object_keys o <->
             exists p, o_props o !! k = Some p /\ enumerable p = true).
Proof.
  intros He. unfold Object_keys. rewrite He. simpl. split.
  - pose proof (NoDup_fst_map_to_list (o_props o)) as Hnd.
    induction (map_to_list (o_props o)) as [|[k p] kps IH]; [constructor|].
    simpl in *. apply NoDup_cons in Hnd as [Hk Hnd].
    destruct (enumerable p); [|by apply IH].
    constructor; [|by apply IH].
    intros ([k' p'] & Hin & Heq)%list_elem_of_omap. simpl in *.
    destruct (enumerable p'); [|done]. injection Heq as ->.
    apply Hk. apply list_elem_of_fmap. by exists (k, p').
  - intros k. rewrite list_elem_of_omap. split.
    + intros ([k' p] & Hin & Heq). simpl in Heq.
      destruct (enumerable p) eqn:Hen; [|done]. injection Heq as ->.
      apply elem_of_map_to_list in Hin. eauto.
    + intros (p & Hk & Hen). exists (k, p). simpl. rewrite Hen.
      split; [|done]. by apply elem_of_map_to_list.
Qed.

(** X25. [observe] on a plain, extensible record that has no observer
    yet and whose enumerable properties are writable, configurable data
    properties holding primitives: a new observer is created for the
    record and attached to it (counted once when observed as root data),
    every enumerable property becomes the accessor pair over a closure
    that holds the property's value, and the other properties are left as
    they were. *)
Theorem observe_makes_record_reactive fuel l o asRootData st :
  heap st !! l = Some o ->
  o_kind o = KPlain -> o_elems o = [] ->
  o_ob o = None -> o_extensible o = true -> o_isVue o = false ->
  shouldConvert st = true -> isServerRendering E = false ->
  (forall k p, o_props o !! k = Some p -> enumerable p = true ->
     exists v wr, p = PData v wr true true /\ primitive v) ->
  let r := fresh (dom (observers st)) in
  exists st' o',
    observe (S fuel) (VObject l) asRootData st = Ret (Some r) st' [] /\
    observers st' =
      <[r := mkObserver l (uid st) (if asRootData then 1 else 0)]> (observers st) /\
    heap st' = <[l := o']> (heap st) /\
    o_ob o' = Some r /\
    (forall k v wr, o_props o !! k = Some (PData v wr true true) ->
       exists c cl, own_property o' k = Some (reactive_property c) /\
         cells st' !! c = Some cl /\ c_val cl = v /\ c_getter cl = None /\
         c_setter cl = None /\ c_childOb cl = None) /\
    (forall k p, o_props o !! k = Some p -> enumerable p = false ->
                 own_property o' k = Some p).
Proof.
  intros Hl Hkind Helems Hob Hext Hvue Hconv Hserver Hflat r.
  assert (isArray o = false) as Harr.
  { unfold isArray. rewrite Hkind. done. }
  destruct (Object_keys_record o Helems) as [Hnd Hkeys].
  set (st0 := set_observers (<[r := mkObserver l (uid st) 0]> (observers st))
                (set_subs (<[uid st := []]> (subs st)) (set_uid (S (uid st)) st))).
  set (o0 := with_ob (Some r) o).
  set (st1 := set_heap (<[l := o0]> (heap st0)) st0).
  assert (heap st1 !! l = Some o0) as Hl1.
  { unfold st1. simpl. by rewrite lookup_insert_eq. }
  destruct (walk_loop fuel l (Object_keys o) st1 o0 Hl1 Harr Hnd)
    as (st2 & p' & Hloop & Hh & Hobs & Hc & Hout & Hin).
  { intros k (p & Hk & Hen)%Hkeys.
    destruct (Hflat k p Hk Hen) as (v & wr & -> & Hprim). eauto. }
  assert (new_Observer (tie (S fuel)) l st = Ret r st2 []) as Hnew.
  { unfold new_Observer.
    rewrite (bind_Ret_nil new_Dep _ st (uid st) _ eq_refl).
    unfold alloc_observer at 1.
    match goal with |- bind ?m _ ?s = _ =>
      rewrite (bind_Ret_nil m _ s r st0 eq_refl) end.
    assert (def_ob l r st0 = Ret tt st1 []) as Hdef.
    { unfold def_ob.
      assert (heap st0 !! l = Some o) as Hl0 by done.
      by rewrite (bind_Ret_nil _ _ _ _ _ (lookup_obj_Ret _ _ _ Hl0)), Hext. }
    rewrite (bind_Ret_nil _ _ _ _ _ Hdef).
    rewrite (bind_Ret_nil _ _ _ _ _ (lookup_obj_Ret _ _ _ Hl1)).
    assert (isArray o0 = false) as -> by done.
    assert (walk (tie (S fuel)) l st1 = Ret tt st2 []) as Hwalk.
    { unfold walk.
      by rewrite (bind_Ret_nil _ _ _ _ _ (lookup_obj_Ret _ _ _ Hl1)). }
    by rewrite (bind_Ret_nil _ _ _ _ _ Hwalk). }
  assert (observers st2 !! r = Some (mkObserver l (uid st) 0)) as Hr2.
  { rewrite Hobs. unfold st1, st0. simpl. by rewrite lookup_insert_eq. }
  exists (if asRootData then increment_vmCount r st2 else st2), (with_props p' o0).
  split; [|split; [|split; [|split; [|split]]]].
  - unfold observe, observe_with.
    rewrite (bind_Ret_nil _ _ _ _ _ (lookup_obj_Ret _ _ _ Hl)), Hkind. simpl.
    rewrite Hob.
    assert (bind get_state
              (fun s => if shouldConvert s && negb (isServerRendering E)
                           && (isArray o || isPlainObject o)
                           && o_extensible o && negb (o_isVue o)
                        then bind (new_Observer (tie (S fuel)) l)
                                  (fun r => ret (Some r))
                        else ret None) st
            = Ret (Some r) st2 []) as Hinner.
    { rewrite (bind_Ret_nil get_state _ st st st eq_refl).
      unfold isPlainObject. rewrite Hconv, Hserver, Hext, Hvue, Hkind, Harr.
      simpl. by rewrite (bind_Ret_nil _ _ _ _ _ Hnew). }
    rewrite (bind_Ret_nil _ _ _ _ _ Hinner).
    destruct asRootData; [|done]. done.
  - destruct asRootData; simpl; rewrite Hobs; unfold st1, st0; simpl;
      [|done].
    apply map_eq. intros r'. destruct (decide (r = r')) as [<-|Hne].
    + by rewrite lookup_alter_eq, !lookup_insert_eq.
    + by rewrite lookup_alter_ne, !lookup_insert_ne.
  - assert (heap st2 = <[l := with_props p' o0]> (heap st)) as Hh2.
    { rewrite Hh. unfold st1, st0. simpl. by rewrite insert_insert_eq. }
    by destruct asRootData.
  - done.
  - intros k v wr Hk.
    destruct (Hin k v wr) as (c & cl & Hp & Hcl & Hrest); [|done|].
    { apply Hkeys. eauto. }
    exists c, cl. split.
    { rewrite own_property_named; [done|].
      unfold isArray. simpl. by rewrite Hkind. }
    split; [|done]. by destruct asRootData.
  - intros k p Hk Hen.
    rewrite own_property_named by (unfold isArray; simpl; by rewrite Hkind).
    simpl.
    rewrite Hout; [done|]. intros (p2 & Hk2 & Hen2)%Hkeys.
    rewrite Hk in Hk2. injection Hk2 as <-. by rewrite Hen in Hen2.
Qed.

(** ** Framework instances *)


(** ** The custom setter and an earlier setter *)

(** X27. The custom setter handed to [defineReactive] is called on an
    assignment that changes the value, before the value is stored and the
    dependency notified, and only outside a production build; a
    production build stores and notifies without calling it. (No earlier
    accessors on the property; the new value is a primitive or the
    property is shallow.) *)
Theorem custom_setter_is_for_development fuel l k o e cf c cl f newVal st :
  heap st !! l = Some o ->
  own_property o k
    = Some (PAccessor (Some (Reactive c)) (Some (Reactive c)) e cf) ->
  cells st !! c = Some cl ->
  c_getter cl = None -> c_setter cl = None -> c_customSetter cl = Some f ->
  c_shallow cl = true \/ primitive newVal ->
  unchanged newVal (c_val cl) = false ->
  let st0 := if production E then st else customSetter f st in
  let st1 :=
    update_cell c (with_childOb None) (update_cell c (with_val newVal) st0) in
  assign (S (S fuel)) l k newVal st =
    Ret tt (updated (subscribers (c_dep cl) st1) st1)
        ((if production E then [] else [ECustomSetter f])
         ++ ENotify (c_dep cl) :: (EUpdate <$> subscribers (c_dep cl) st1)).
Proof.
  intros Hl Hk Hc Hg Hs Hcs Hobs Hch st0 st1.
  unfold assign, put_property.
  rewrite (bind_Ret_nil _ _ _ _ _ (lookup_obj_Ret _ _ _ Hl)), Hk. simpl.
  unfold reactiveSetter.
  rewrite (bind_Ret_nil _ _ _ _ _ (lookup_cell_Ret _ _ _ Hc)).
  unfold read_current. rewrite Hg.
  rewrite (bind_Ret_nil (ret (c_val cl)) _ st (c_val cl) st eq_refl).
  unfold unchanged in Hch. rewrite Hch, Hcs, Hs.
  assert ((if negb (production E)
           then bind (emit (ECustomSetter f)) (fun _ => modify (customSetter f))
           else ret tt) st
          = Ret tt st0 (if production E then [] else [ECustomSetter f])) as Hcustom.
  { unfold st0. by destruct (production E). }
  rewrite (bind_Ret _ _ _ _ _ _ Hcustom).
  match goal with |- after _ (bind (modify ?g) _ _) = _ =>
    rewrite (bind_Ret_nil (modify g) _ st0 tt (g st0) eq_refl) end.
  set (st2 := update_cell c (with_val newVal) st0).
  assert ((if c_shallow cl then ret None
           else self_observe (tie (S fuel)) newVal false) st2
          = Ret None st2 []) as Hchild.
  { destruct (c_shallow cl); [done|]. destruct Hobs as [|Hprim]; [done|].
    by apply observe_primitive. }
  rewrite (bind_Ret_nil _ _ _ _ _ Hchild).
  match goal with |- after _ (bind (modify ?g) _ _) = _ =>
    rewrite (bind_Ret_nil (modify g) _ st2 tt (g st2) eq_refl) end.
  by rewrite notify_Ret.
Qed.

(** X28. On a property that had a getter and a setter before
    [defineReactive] took it over, an assignment reads the current value
    through the old getter and, when the value changes, hands the new
    value to the old setter instead of storing it in the closure; the
    dependency is notified afterwards. (The new value is a primitive or
    the property is shallow; no custom setter.) *)
Theorem assignment_goes_through_earlier_setter
    fuel l k o e cf c cl f g newVal st :
  heap st !! l = Some o ->
  own_property o k
    = Some (PAccessor (Some (Reactive c)) (Some (Reactive c)) e cf) ->
  cells st !! c = Some cl ->
  c_getter cl = Some (User f) -> c_setter cl = Some (User g) ->
  c_customSetter cl = None ->
  c_shallow cl = true \/ primitive newVal ->
  let value := (user_get f (c_obj cl) st).1 in
  let st0 := (user_get f (c_obj cl) st).2 in
  let st1 := update_cell c (with_childOb None) (user_set g (c_obj cl) newVal st0) in
  assign (S (S fuel)) l k newVal st =
    if unchanged newVal value then Ret tt st0 []
    else Ret tt (updated (subscribers (c_dep cl) st1) st1)
             (ENotify (c_dep cl) :: (EUpdate <$> subscribers (c_dep cl) st1)).
Proof.
  intros Hl Hk Hc Hg Hs Hcs Hobs value st0 st1.
  unfold assign, put_property.
  rewrite (bind_Ret_nil _ _ _ _ _ (lookup_obj_Ret _ _ _ Hl)), Hk. simpl.
  unfold reactiveSetter.
  rewrite (bind_Ret_nil _ _ _ _ _ (lookup_cell_Ret _ _ _ Hc)).
  assert (read_current (tie (S fuel)) cl st = Ret value st0 []) as Hread.
  { unfold read_current, value, st0. rewrite Hg. simpl.
    by destruct (user_get f (c_obj cl) st). }
  rewrite (bind_Ret_nil _ _ _ _ _ Hread).
  fold (unchanged newVal value).
  destruct (unchanged newVal value); [done|].
  rewrite Hcs, Hs.
  rewrite (bind_Ret_nil (ret tt) _ st0 tt st0 eq_refl).
  assert (self_set (tie (S fuel)) (User g) (c_obj cl) newVal st0
          = Ret tt (user_set g (c_obj cl) newVal st0) []) as Hset by done.
  rewrite (bind_Ret_nil _ _ _ _ _ Hset).
  set (st2 := user_set g (c_obj cl) newVal st0).
  assert ((if c_shallow cl then ret None
           else self_observe (tie (S fuel)) newVal false) st2
          = Ret None st2 []) as Hchild.
  { destruct (c_shallow cl); [done|]. destruct Hobs as [|Hprim]; [done|].
    by apply observe_primitive. }
  rewrite (bind_Ret_nil _ _ _ _ _ Hchild).
  match goal with |- bind (modify ?h) _ _ = _ =>
    rewrite (bind_Ret_nil (modify h) _ st2 tt (h st2) eq_refl) end.
  by rewrite notify_Ret.
Qed.

(** ** Observing an array *)

Lemma for_each_idle {A} (f : A -> M E unit) (l : list A) st :
  (forall x, x ∈ l -> f x st = Ret tt st []) ->
  for_each f l st = Ret tt st [].
Proof.
  induction l as [|x l IH]; intros Hf; [done|]. cbn [for_each].
  rewrite (bind_Ret_nil _ _ st tt st) by (apply Hf; left).
  apply IH. intros y Hy. apply Hf. by right.
Qed.

(** X29. [observe] on an extensible array of primitives that has no
    observer yet (in an environment with [__proto__]): a new observer is
    created for the array and attached to it (counted once when observed
    as root data), the mutating methods of the array become the
    intercepting ones, and the elements are left as they are. *)
Theorem observe_augments_array fuel l o asRootData st :
  heap st !! l = Some o ->
  o_kind o = KArray ->
  o_ob o = None -> o_extensible o = true -> o_isVue o = false ->
  shouldConvert st = true -> isServerRendering E = false ->
  hasProto E = true ->
  Forall primitive (o_elems o) ->
  let r := fresh (dom (observers st)) in
  exists st',
    observe (S fuel) (VObject l) asRootData st = Ret (Some r) st' [] /\
    observers st' =
      <[r := mkObserver l (uid st) (if asRootData then 1 else 0)]> (observers st) /\
    heap st' = <[l := with_augmented true (with_ob (Some r) o)]> (heap st) /\
    cells st' = cells st.
Proof.
  intros Hl Hkind Hob Hext Hvue Hconv Hserver Hproto Hprim r.
  assert (isArray o = true) as Harr.
  { unfold isArray. by rewrite Hkind. }
  set (st0 := set_observers (<[r := mkObserver l (uid st) 0]> (observers st))
                (set_subs (<[uid st := []]> (subs st)) (set_uid (S (uid st)) st))).
  set (o0 := with_ob (Some r) o).
  set (st1 := set_heap (<[l := o0]> (heap st0)) st0).
  set (o1 := with_augmented true o0).
  set (st2 := set_heap (<[l := o1]> (heap st)) st0).
  assert (heap st1 !! l = Some o0) as Hl1.
  { unfold st1. simpl. by rewrite lookup_insert_eq. }
  assert (heap st2 !! l = Some o1) as Hl2.
  { unfold st2. simpl. by rewrite lookup_insert_eq. }
  assert (new_Observer (tie (S fuel)) l st = Ret r st2 []) as Hnew.
  { unfold new_Observer.
    rewrite (bind_Ret_nil new_Dep _ st (uid st) _ eq_refl).
    unfold alloc_observer at 1.
    match goal with |- bind ?m _ ?s = _ =>
      rewrite (bind_Ret_nil m _ s r st0 eq_refl) end.
    assert (def_ob l r st0 = Ret tt st1 []) as Hdef.
    { unfold def_ob.
      assert (heap st0 !! l = Some o) as Hl0 by done.
      by rewrite (bind_Ret_nil _ _ _ _ _ (lookup_obj_Ret _ _ _ Hl0)), Hext. }
    rewrite (bind_Ret_nil _ _ _ _ _ Hdef).
    rewrite (bind_Ret_nil _ _ _ _ _ (lookup_obj_Ret _ _ _ Hl1)).
    assert (isArray o0 = true) as -> by done.
    rewrite Hproto.
    assert (protoAugment l st1 = Ret tt st2 []) as Haug.
    { unfold protoAugment.
      rewrite (bind_Ret_nil _ _ _ _ _ (lookup_obj_Ret _ _ _ Hl1)).
      unfold store_obj, modify, st2, st1. simpl. by rewrite insert_insert_eq. }
    assert (observeArray (tie (S fuel)) l st2 = Ret tt st2 []) as Hobs.
    { unfold observeArray.
      rewrite (bind_Ret_nil _ _ _ _ _ (lookup_obj_Ret _ _ _ Hl2)).
      apply for_each_idle. intros i _.
      rewrite (bind_Ret_nil _ _ _ _ _ (lookup_obj_Ret _ _ _ Hl2)).
      rewrite (bind_Ret_nil _ _ st2 None st2); [done|].
      apply observe_primitive. simpl.
      destruct (o_elems o !! i) as [v|] eqn:Hv; [|done]. simpl.
      eapply Forall_lookup_1; [exact Hprim|exact Hv]. }
    rewrite (bind_Ret_nil _ _ st1 tt st2).
    2:{ rewrite (bind_Ret_nil _ _ _ _ _ Haug). exact Hobs. }
    done. }
  exists (if asRootData then increment_vmCount r st2 else st2).
  split; [|split; [|split]].
  - unfold observe, observe_with.
    rewrite (bind_Ret_nil _ _ _ _ _ (lookup_obj_Ret _ _ _ Hl)), Hkind. simpl.
    rewrite Hob.
    assert (bind get_state
              (fun s => if shouldConvert s && negb (isServerRendering E)
                           && (isArray o || isPlainObject o)
                           && o_extensible o && negb (o_isVue o)
                        then bind (new_Observer (tie (S fuel)) l)
                                  (fun r => ret (Some r))
                        else ret None) st
            = Ret (Some r) st2 []) as Hinner.
    { rewrite (bind_Ret_nil get_state _ st st st eq_refl).
      rewrite Hconv, Hserver, Hext, Hvue, Harr.
      simpl. by rewrite (bind_Ret_nil _ _ _ _ _ Hnew). }
    rewrite (bind_Ret_nil _ _ _ _ _ Hinner).
    destruct asRootData; done.
  - destruct asRootData; simpl; [|done].
    apply map_eq. intros r'. destruct (decide (r = r')) as [<-|Hne].
    + by rewrite lookup_alter_eq, !lookup_insert_eq.
    + by rewrite lookup_alter_ne, !lookup_insert_ne.
  - by destruct asRootData.
  - by destruct asRootData.
Qed.

(** ** Reading an array *)

Lemma registered_preserves w ds st :
  (forall d, preserves_data (@addDep E w d)) ->
  heap (registered w ds st) = heap st /\
  observers (registered w ds st) = observers st /\
  cells (registered w ds st) = cells st /\
  target (registered w ds st) = target st.
Proof.
  intros Hadd. revert st. unfold registered.
  induction ds as [|d ds IH]; intros st; simpl; [done|].
  destruct (IH (addDep w d st)) as (-> & -> & -> & ->). apply Hadd.
Qed.

Lemma registered_app w ds1 ds2 st :
  registered w (ds1 ++ ds2) st = registered w ds2 (registered w ds1 st).
Proof. unfold registered. by rewrite foldl_app. Qed.

Lemma dependArray_simple self w lv ov st0 : forall (idxs : list nat) st,
  (forall d, preserves_data (@addDep E w d)) ->
  heap st0 !! lv = Some ov ->
  Forall (simple_element st0) (o_elems ov) ->
  target st0 = Some w ->
  heap st = heap st0 -> observers st = observers st0 -> target st = target st0 ->
  for_each (fun i =>
      bind (lookup_obj lv) (fun o' =>
        match default VUndefined (o_elems o' !! i) with
        | VObject le =>
            bind (lookup_obj le) (fun oe =>
            bind (match o_ob oe with
                  | Some r => bind (lookup_observer r) (fun ob => depend (ob_dep ob))
                  | None => ret tt
                  end) (fun _ =>
            bind (lookup_obj le) (fun oe' =>
              if isArray oe' then self_dependArray self le else ret tt)))
        | _ => ret tt
        end)) idxs st
  = Ret tt
      (registered w
         (omap (fun i => element_dependency st0
                           (default VUndefined (o_elems ov !! i))) idxs) st)
      (EAddDep w <$>
         omap (fun i => element_dependency st0
                          (default VUndefined (o_elems ov !! i))) idxs).
Proof.
  intros idxs. induction idxs as [|i idxs IH];
    intros st Hadd Hlv Hsimple Ht0 Hh Ho Ht; [done|].
  cbn [for_each omap].
  assert (heap st !! lv = Some ov) as Hlv' by by rewrite Hh.
  set (v := default VUndefined (o_elems ov !! i)).
  assert (simple_element st0 v) as Hv.
  { unfold v. destruct (o_elems ov !! i) as [x|] eqn:Hx; [|done]. simpl.
    eapply Forall_lookup_1; [exact Hsimple|exact Hx]. }
  assert (exists st1,
    bind (lookup_obj lv) (fun o' =>
        match default VUndefined (o_elems o' !! i) with
        | VObject le =>
            bind (lookup_obj le) (fun oe =>
            bind (match o_ob oe with
                  | Some r => bind (lookup_observer r) (fun ob => depend (ob_dep ob))
                  | None => ret tt
                  end) (fun _ =>
            bind (lookup_obj le) (fun oe' =>
              if isArray oe' then self_dependArray self le else ret tt)))
        | _ => ret tt
        end) st
    = Ret tt st1 (EAddDep w <$> option_list (element_dependency st0 v)) /\
    st1 = registered w (option_list (element_dependency st0 v)) st)
    as (st1 & Hstep & ->).
  { rewrite (bind_Ret_nil _ _ _ _ _ (lookup_obj_Ret _ _ _ Hlv')). fold v.
    destruct v as [| | | | | |le]; try (eexists; split; done).
    destruct Hv as (oe & Hoe & Harr & Hobs). simpl. rewrite Hoe. simpl.
    assert (heap st !! le = Some oe) as Hoe' by by rewrite Hh.
    rewrite (bind_Ret_nil _ _ _ _ _ (lookup_obj_Ret _ _ _ Hoe')).
    destruct (o_ob oe) as [re|] eqn:Hre; simpl.
    - destruct (Hobs re eq_refl) as [ob Hob]. rewrite Hob. simpl.
      assert (observers st !! re = Some ob) as Hob' by by rewrite Ho.
      assert (bind (lookup_observer re) (fun ob => depend (ob_dep ob)) st
              = Ret tt (addDep w (ob_dep ob) st) [EAddDep w (ob_dep ob)]) as Hdep.
      { rewrite (bind_Ret_nil _ _ _ _ _ (lookup_observer_Ret _ _ _ Hob')).
        unfold depend. by rewrite Ht, Ht0. }
      rewrite (bind_Ret _ _ _ _ _ _ Hdep).
      destruct (Hadd (ob_dep ob) st) as (Hh1 & _).
      assert (heap (addDep w (ob_dep ob) st) !! le = Some oe) as Hoe1
        by by rewrite Hh1.
      rewrite (bind_Ret_nil _ _ _ _ _ (lookup_obj_Ret _ _ _ Hoe1)), Harr.
      eexists. split; [done|done].
    - rewrite (bind_Ret_nil (ret tt) _ st tt st eq_refl).
      rewrite (bind_Ret_nil _ _ _ _ _ (lookup_obj_Ret _ _ _ Hoe')), Harr.
      eexists. split; done. }
  rewrite (bind_Ret _ _ _ _ _ _ Hstep).
  destruct (registered_preserves w (option_list (element_dependency st0 v)) st Hadd)
    as (Hh1 & Ho1 & _ & Ht1).
  rewrite IH; try done; [|congruence..].
  subst v.
  destruct (element_dependency st0 (default VUndefined (o_elems ov !! i)))
    as [d|] eqn:Hd; simpl; rewrite Hd; unfold registered; simpl; done.
Qed.

Lemma omap_by_index (g : value -> option nat) (elems : list value) :
  omap (fun i => g (default VUndefined (elems !! i))) (seq 0 (length elems))
  = omap g elems.
Proof.
  assert (forall pre : list value,
    omap (fun i => g (default VUndefined ((pre ++ elems) !! i)))
         (seq (length pre) (length elems)) = omap g elems) as Hgen.
  { induction elems as [|x xs IH]; intros pre; [done|].
    simpl. rewrite list_lookup_middle by done. simpl.
    specialize (IH (pre ++ [x])). rewrite <- app_assoc in IH. simpl in IH.
    rewrite length_app in IH. simpl in IH. rewrite Nat.add_1_r in IH.
    unfold omap in IH |- *. by rewrite IH. }
  apply (Hgen []).
Qed.

(** X30. While a watcher is being evaluated, reading a reactive property
    that holds an observed array hands the watcher, in this order, the
    dependency of the property, the dependency of the array's observer,
    and the dependency of the observer of every element that is an
    observed object, in the order of the elements. (The watcher's
    [addDep] leaves the reactive data alone; no element is itself an
    array.) *)
Theorem read_of_array_registers_elements
    fuel l k o c s e cf cl w lv ov r ob st :
  heap st !! l = Some o ->
  own_property o k = Some (PAccessor (Some (Reactive c)) s e cf) ->
  cells st !! c = Some cl ->
  c_getter cl = None ->
  target st = Some w ->
  (forall d, preserves_data (@addDep E w d)) ->
  c_val cl = VObject lv ->
  heap st !! lv = Some ov -> isArray ov = true ->
  c_childOb cl = Some r -> observers st !! r = Some ob ->
  Forall (simple_element st) (o_elems ov) ->
  let ds := c_dep cl :: ob_dep ob :: omap (element_dependency st) (o_elems ov) in
  read (S fuel) l k st = Ret (VObject lv) (registered w ds st) (EAddDep w <$> ds).
Proof.
  intros Hl Hk Hc Hg Ht Hadd Hval Hlv Harr Hchild Hob Hsimple ds.
  unfold read, get_property.
  rewrite (bind_Ret_nil _ _ _ _ _ (lookup_obj_Ret _ _ _ Hl)), Hk. simpl.
  unfold reactiveGetter.
  rewrite (bind_Ret_nil _ _ _ _ _ (lookup_cell_Ret _ _ _ Hc)).
  unfold read_current. rewrite Hg, Hval.
  rewrite (bind_Ret_nil (ret (VObject lv)) _ st (VObject lv) st eq_refl).
  rewrite (bind_Ret_nil get_state _ st st st eq_refl). rewrite Ht.
  destruct (Hadd (c_dep cl) st) as (Hh1 & Ho1 & Hc1 & Ht1).
  set (st1 := addDep w (c_dep cl) st) in *.
  assert (depend (c_dep cl) st = Ret tt st1 [EAddDep w (c_dep cl)]) as Hdep.
  { unfold depend. by rewrite Ht. }
  destruct (Hadd (ob_dep ob) st1) as (Hh2 & Ho2 & Hc2 & Ht2).
  set (st2 := addDep w (ob_dep ob) st1) in *.
  assert (depend (ob_dep ob) st1 = Ret tt st2 [EAddDep w (ob_dep ob)]) as Hdep2.
  { unfold depend. by rewrite Ht1, Ht. }
  set (es := omap (element_dependency st) (o_elems ov)).
  assert (dependArray_with (tie fuel) lv st2
          = Ret tt (registered w es st2) (EAddDep w <$> es)) as Harray.
  { unfold dependArray_with.
    assert (heap st2 !! lv = Some ov) as Hlv2 by by rewrite Hh2, Hh1.
    rewrite (bind_Ret_nil _ _ _ _ _ (lookup_obj_Ret _ _ _ Hlv2)).
    rewrite (dependArray_simple (tie fuel) w lv ov st); try done; try congruence.
    unfold es. by rewrite omap_by_index. }
  assert (cells st1 !! c = Some cl) as Hc' by by rewrite Hc1.
  assert (observers st1 !! r = Some ob) as Hob' by by rewrite Ho1.
  assert (heap st2 !! lv = Some ov) as Hlv2 by by rewrite Hh2, Hh1.
  rewrite (bind_Ret _ _ st tt (registered w ds st) (EAddDep w <$> ds)).
  { simpl. by rewrite app_nil_r. }
  rewrite (bind_Ret _ _ _ _ _ _ Hdep).
  rewrite (bind_Ret_nil _ _ _ _ _ (lookup_cell_Ret _ _ _ Hc')), Hchild.
  rewrite (bind_Ret_nil _ _ _ _ _ (lookup_observer_Ret _ _ _ Hob')).
  rewrite (bind_Ret _ _ _ _ _ _ Hdep2).
  rewrite (bind_Ret_nil _ _ _ _ _ (lookup_obj_Ret _ _ _ Hlv2)), Harr.
  rewrite Harray. done.
Qed.

End Laws.

(** ** The statements at work *)

Import Samples.

Local Ltac evaluate := vm_compute; reflexivity.

Local Ltac side :=
  first
    [ evaluate
    | by (intros ? ?; repeat split)
    | by (intros ? H; vm_compute in H)
    | by (intros ? H; vm_compute in H; injection H as <-; eauto)
    | by left | by right | done ].

Lemma read_outside_watcher_witness :
  read 1 0 (KName "a") watched_record = Ret NaN watched_record [].
Proof.
  etrans.
  - eapply (read_outside_watcher (E:=recording_env) 0 0 (KName "a")); evaluate.
  - reflexivity.
Defined.

(** Watcher 9 reads [a] while it is evaluated and becomes the third
    subscriber of the property's dependency. *)
Lemma read_registers_dependency_witness :
  exists st',
    read 1 0 (KName "a") watched_record_in_evaluation
      = Ret NaN st' [EAddDep (Scheduler.sample_watcher 9) 1] /\
    subs st' !! 1 = Some [Scheduler.sample_watcher 1; Scheduler.sample_watcher 2;
                          Scheduler.sample_watcher 9].
Proof.
  eexists. split.
  - etrans.
    + eapply (read_registers_dependency (E:=recording_env) 0 0 (KName "a"));
        side.
    + evaluate.
  - evaluate.
Defined.

(** The property [id] of the sample record is not configurable. *)
Lemma defineReactive_skips_fixed_property_witness :
  exists st',
    defineReactive 0 0 (KName "id") NaN None false fixed_record = Ret tt st' [] /\
    heap st' = heap fixed_record /\ cells st' = ∅ /\ uid st' = 1.
Proof.
  eexists. split.
  - eapply (defineReactive_skips_fixed_property (E:=recording_env) 0 0); evaluate.
  - repeat split.
Defined.

(** [a] holds [NaN]; assigning 1 notifies dependency 1, updates its two
    subscribers, and 1 is read back. *)
Lemma assign_then_read_witness :
  exists st',
    assign 2 0 (KName "a") one watched_record
      = Ret tt st' [ENotify 1; EUpdate (Scheduler.sample_watcher 1);
                    EUpdate (Scheduler.sample_watcher 2)] /\
    read 1 0 (KName "a") st' = Ret one st' [].
Proof.
  edestruct (assign_then_read (E:=recording_env))
    with (fuel := 0) (l := 0) (k := KName "a") (newVal := one)
         (st := watched_record) as (st' & H1 & H2); [side..|].
  exists st'. split; [exact H1|exact H2].
Defined.



(** The record observed as root data owns [a]: no warning. *)
Lemma set_on_own_key_assigns_witness :
  set 2 0 (KName "a") one (root_record false)
    = bind (assign 2 0 (KName "a") one) (fun _ => ret one) (root_record false) /\
  no_warning (set 2 0 (KName "a") one (root_record false)).
Proof.
  eapply (set_on_own_key_assigns (E:=still_env false) 2 0); evaluate.
Defined.


(** Deleting [a] from the observed record updates watcher 3. *)
Lemma del_of_own_key_witness :
  exists st',
    del 0 0 (KName "a") watched_record
      = Ret tt st' [ENotify 0; EUpdate (Scheduler.sample_watcher 3)] /\
    read 0 0 (KName "a") st' = Ret VUndefined st' [].
Proof.
  eexists. split.
  - etrans.
    + eapply (del_of_own_key (E:=recording_env) 0 0); side.
    + evaluate.
  - evaluate.
Defined.



(** [full] has a getter that returns "computed": that is what is read,
    not the 1 handed to [defineReactive]. *)
Lemma defineReactive_keeps_getter_witness :
  exists st1,
    defineReactive 1 0 (KName "full") one None false fixed_record
      = Ret tt st1 [] /\
    read 2 0 (KName "full") st1 = Ret (VString "computed") st1 [].
Proof.
  edestruct (defineReactive_keeps_getter (E:=recording_env))
    with (fuel := 0) (fuel' := 0) (l := 0) (k := KName "full") (f := 0)
         (val := one) (custom := @None nat) (shallow := false)
         (st := fixed_record) as (H1 & H2); [side..|].
  eexists. split; [exact H1|]. apply H2. evaluate.
Defined.


(** The record [{a: NaN}] observed as root data. *)
Lemma observe_makes_record_reactive_witness :
  exists st',
    observe 1 (VObject 0) true plain_state = Ret (Some 0) st' [] /\
    observers st' !! 0 = Some (mkObserver 0 0 1) /\
    read 1 0 (KName "a") st' = Ret NaN st' [].
Proof.
  edestruct (observe_makes_record_reactive (E:=recording_env))
    with (fuel := 0) (l := 0) (asRootData := true) (st := plain_state)
         (o := mkObj KPlain true None false
                 (<[KName "a" := PData NaN true true true]> ∅) [] false)
    as (st' & o' & H1 & H2 & _).
  - evaluate.
  - evaluate.
  - evaluate.
  - evaluate.
  - evaluate.
  - evaluate.
  - evaluate.
  - evaluate.
  - intros k p Hk Hen. simpl in Hk.
    apply lookup_insert_Some in Hk as [[_ <-]|[_ Hk]].
    + exists NaN, true. split; [reflexivity|exact I].
    + rewrite lookup_empty in Hk. discriminate.
  - exists st'. split; [exact H1|]. split.
    + rewrite H2. evaluate.
    + vm_compute in H1. injection H1 as <-. evaluate.
Defined.


(** Custom setter 5 is called in the development build and left out in
    the production build. *)
Lemma custom_setter_is_for_development_witness :
  (exists st',
     assign 2 0 (KName "a") one (guarded_record false)
       = Ret tt st' [ECustomSetter 5; ENotify 0]) /\
  (exists st',
     assign 2 0 (KName "a") one (guarded_record true)
       = Ret tt st' [ENotify 0]).
Proof.
  split; eexists.
  - etrans.
    + eapply (custom_setter_is_for_development (E:=still_env false) 0 0
                (KName "a")); side.
    + evaluate.
  - etrans.
    + eapply (custom_setter_is_for_development (E:=still_env true) 0 0
                (KName "a")); side.
    + evaluate.
Defined.

(** [full] goes on reading "computed": the value assigned went to the
    earlier setter, not into the closure. *)
Lemma assignment_goes_through_earlier_setter_witness :
  exists st',
    assign 2 0 (KName "full") (VString "x") computed_record
      = Ret tt st' [ENotify 0] /\
    read 2 0 (KName "full") st' = Ret (VString "computed") st' [].
Proof.
  eexists. split.
  - etrans.
    + eapply (assignment_goes_through_earlier_setter (E:=recording_env) 0 0
                (KName "full")); side.
    + evaluate.
  - evaluate.
Defined.

(** The array [[1, null]] observed as root data. *)
Lemma observe_augments_array_witness :
  exists st',
    observe 1 (VObject 1) true plain_state = Ret (Some 0) st' [] /\
    observers st' !! 0 = Some (mkObserver 1 0 1) /\
    o_augmented <$> heap st' !! 1 = Some true.
Proof.
  edestruct (observe_augments_array (E:=recording_env))
    with (fuel := 0) (l := 1) (asRootData := true) (st := plain_state)
    as (st' & H1 & H2 & H3 & _).
  - evaluate.
  - evaluate.
  - evaluate.
  - evaluate.
  - evaluate.
  - evaluate.
  - evaluate.
  - evaluate.
  - repeat constructor.
  - exists st'. split; [exact H1|]. split.
    + rewrite H2. evaluate.
    + rewrite H3. evaluate.
Defined.

(** Watcher 9 reads [list]: it is handed the dependency of the property,
    the one of the array and the one of the record inside the array. *)
Lemma read_of_array_registers_elements_witness :
  exists st',
    read 1 0 (KName "list") nested_in_evaluation
      = Ret (VObject 1) st'
          [EAddDep (Scheduler.sample_watcher 9) 1;
           EAddDep (Scheduler.sample_watcher 9) 2;
           EAddDep (Scheduler.sample_watcher 9) 3].
Proof.
  eexists. etrans.
  - eapply (read_of_array_registers_elements (E:=recording_env) 0 0
              (KName "list")); try side.
    repeat constructor. eexists. split; [evaluate|]. split; [evaluate|].
    intros re Hre. vm_compute in Hre. injection Hre as <-. eexists. evaluate.
  - evaluate.
Defined.

End ObserverLaws.
